(** * mysql-modelify: the Entity Definition ([Model]) and the Route Generator

    A shallow embedding of [src/route-generator.js] (which also holds the
    [Model] class) and the properties of its row mapper, its CRUD methods
    and its HTTP handlers.

    Conventions of the embedding.
    - A JavaScript object is the ordered list of its own properties, in
      enumeration order; the prototype chain is not modelled and property
      names are taken as plain names.
    - Values read from the database and values returned to the client are
      trees ([value]).  Request payloads are mutated in place by the code, so
      they live in a heap of cells addressed by references ([val], [cell]).
    - Numbers are integers ([Z]); the ids and counts handled here are. *)

From Stdlib Require Import ZArith Ascii String DecimalString.
From stdpp Require Import base option list strings.

Local Open Scope string_scope.
Local Open Scope list_scope.

(** ** Primitive values *)

Inductive prim :=
| PUndefined
| PNull
| PBool (b : bool)
| PNum (n : Z)
| PStr (s : string).

#[global] Instance prim_eq_dec : EqDecision prim.
Proof. solve_decision. Defined.

(** JavaScript truthiness of a primitive: [undefined], [null], [false], [0]
    and the empty string are falsy. *)
Definition truthy_prim (p : prim) : bool :=
  match p with
  | PUndefined | PNull => false
  | PBool b => b
  | PNum n => negb (Z.eqb n 0)
  | PStr s => negb (String.eqb s "")
  end.

(** ** Tree values: database rows and mapped entities *)

#[warnings="-register-all"]
Inductive value :=
| VPrim (p : prim)
| VObj (props : list (string * value))
| VArr (items : list value).

Coercion VPrim : prim >-> value.

Definition truthy (v : value) : bool :=
  match v with
  | VPrim p => truthy_prim p
  | VObj _ | VArr _ => true
  end.

(** [value && typeof value === "object"] *)
Definition is_object (v : value) : bool :=
  match v with
  | VPrim _ => false
  | VObj _ | VArr _ => true
  end.

(** ** Strings *)

(** [s.split(sep)] for a one-character separator: never empty, the empty
    string splits into one empty segment. *)
Fixpoint split_on (sep : Ascii.ascii) (s : string) : list string :=
  match s with
  | EmptyString => [""]
  | String c rest =>
      if Ascii.eqb c sep then "" :: split_on sep rest
      else match split_on sep rest with
           | seg :: segs => String c seg :: segs
           | [] => [String c ""]
           end
  end.

Fixpoint contains_char (c : Ascii.ascii) (s : string) : bool :=
  match s with
  | EmptyString => false
  | String d rest => Ascii.eqb d c || contains_char c rest
  end.

(** The property name of array index [i]. *)
Definition index_key (i : nat) : string :=
  NilZero.string_of_uint (Nat.to_uint i).

(** ** Own properties of an object *)

Section Props.
Context {V : Type}.

Fixpoint get_prop (key : string) (props : list (string * V)) : option V :=
  match props with
  | [] => None
  | (k, v) :: rest => if String.eqb k key then Some v else get_prop key rest
  end.

(** [object[key] = v]: an existing property keeps its place, a new one is
    enumerated last. *)
Fixpoint set_prop (key : string) (v : V) (props : list (string * V))
  : list (string * V) :=
  match props with
  | [] => [(key, v)]
  | (k, x) :: rest =>
      if String.eqb k key then (k, v) :: rest
      else (k, x) :: set_prop key v rest
  end.

(** [delete object[key]] *)
Fixpoint delete_prop (key : string) (props : list (string * V))
  : list (string * V) :=
  match props with
  | [] => []
  | (k, x) :: rest =>
      if String.eqb k key then delete_prop key rest
      else (k, x) :: delete_prop key rest
  end.

Definition has_prop (key : string) (props : list (string * V)) : bool :=
  match get_prop key props with Some _ => true | None => false end.

Definition keys (props : list (string * V)) : list string := map fst props.
End Props.

Definition includes (x : string) (l : list string) : bool :=
  existsb (String.eqb x) l.

(** ** lodash [_.set] on trees

    [_.set(object, path, value)] for a string path.  lodash takes the string
    as one property name when the object already has that property, and
    otherwise splits it on dots; on the way down a property that holds no
    object is replaced by a fresh object; the names [__proto__],
    [constructor] and [prototype] end the walk and leave the rest untouched.
    The bracket syntax of lodash paths and the arrays lodash creates for a
    segment that is an array index are not modelled: column names are SQL
    identifiers. *)

Definition unsafe_key (k : string) : bool :=
  String.eqb k "__proto__" || String.eqb k "constructor"
  || String.eqb k "prototype".

Fixpoint base_set (path : list string) (v : value)
    (props : list (string * value)) : list (string * value) :=
  match path with
  | [] => props
  | [k] => if unsafe_key k then props else set_prop k v props
  | k :: rest =>
      if unsafe_key k then props
      else
        let nested :=
          match get_prop k props with
          | Some (VObj ps) => ps
          | _ => []
          end in
        set_prop k (VObj (base_set rest v nested)) props
  end.

Definition cast_path (key : string) (props : list (string * value))
  : list string :=
  if has_prop key props then [key] else split_on "."%char key.

Definition lodash_set_props (props : list (string * value)) (key : string)
    (v : value) : list (string * value) :=
  base_set (cast_path key props) v props.

(** [_.set] returns its first argument; what is no object is returned as it
    is.  The mapper only ever hands it plain objects. *)
Definition lodash_set (object : value) (key : string) (v : value) : value :=
  match object with
  | VObj props => VObj (lodash_set_props props key v)
  | _ => object
  end.

(** A key that [_.set] assigns directly. *)
Definition plain_key (k : string) : bool :=
  negb (contains_char "."%char k) && negb (contains_char "["%char k)
  && negb (contains_char "]"%char k) && negb (unsafe_key k).

(** ** Heap values: request payloads

    The payload handed to [create] and [update] is mutated in place, and
    its relation rows are reached through several references, so payloads
    are cells of a heap.  An array cell keeps its elements and, apart from
    them, the named properties assigned to it. *)

Inductive val :=
| Prim (p : prim)
| Ref (l : nat).

Coercion Prim : prim >-> val.

#[global] Instance val_eq_dec : EqDecision val.
Proof. solve_decision. Defined.

Inductive cell :=
| Obj (props : list (string * val))
| Arr (items : list val) (props : list (string * val)).

Abbreviation heap := (list cell).

Definition truthy_val (v : val) : bool :=
  match v with
  | Prim p => truthy_prim p
  | Ref _ => true
  end.

(** ** Errors and results *)

Inductive error :=
| TypeError (what : string)
| InvalidModelInputError (missingFields : list string)
| RelationNotFound (relationName : string)
| RelationValidationFailure (what : string)
| ExecutionFailure (what : string).

Inductive outcome (A : Type) :=
| Ok (a : A)
| Throw (e : error).

Arguments Ok {A} a.
Arguments Throw {A} e.

(** ** The row mapper *)

(** [(value || "").split(",")]: numbers and booleans have no [split]. *)
Definition split_value (v : value) : outcome (list value) :=
  if truthy v then
    match v with
    | VPrim (PStr s) => Ok (map (fun seg => VPrim (PStr seg)) (split_on ","%char s))
    | _ => Throw (TypeError "value.split is not a function")
    end
  else Ok [VPrim (PStr "")].

(** [relationValueEntry || null] *)
Definition or_null (v : value) : value :=
  if truthy v then v else VPrim PNull.

(** [result[index] || {}] *)
Definition or_empty_object (v : value) : value :=
  if truthy v then v else VObj [].

(** The [forEach] of [parseRelationCollection]: entry [index] of
    [parsedValue] is assigned under [key] in row [index] of [result]; the
    rows of [result] are created in index order, so it has no holes. *)
Fixpoint assign_entries (key : string) (parsedValue result : list value)
  : list value :=
  match parsedValue with
  | [] => result
  | relationValueEntry :: entries =>
      match result with
      | [] =>
          lodash_set (VObj []) key (or_null relationValueEntry)
            :: assign_entries key entries []
      | row :: rows =>
          lodash_set (or_empty_object row) key (or_null relationValueEntry)
            :: assign_entries key entries rows
      end
  end.

Section Reduce.
Variable parse : value -> outcome (list value).

Definition parsed_value (v : value) : outcome (list value) :=
  if truthy v && is_object v then parse v else split_value v.

Definition reduce_step (key : string) (v : value) (result : list value)
  : outcome (list value) :=
  match parsed_value v with
  | Ok parsedValue => Ok (assign_entries key parsedValue result)
  | Throw e => Throw e
  end.

(** [Object.entries(object).reduce(..., result)] *)
Fixpoint reduce_props (entries : list (string * value))
    (result : list value) : outcome (list value) :=
  match entries with
  | [] => Ok result
  | (key, v) :: rest =>
      match reduce_step key v result with
      | Ok result' => reduce_props rest result'
      | Throw e => Throw e
      end
  end.

(** The same over the elements of an array, from index [i] on. *)
Fixpoint reduce_items (i : nat) (items : list value)
    (result : list value) : outcome (list value) :=
  match items with
  | [] => Ok result
  | v :: rest =>
      match reduce_step (index_key i) v result with
      | Ok result' => reduce_items (S i) rest result'
      | Throw e => Throw e
      end
  end.
End Reduce.

(** The characters of a string, as [Object.entries] lists them. *)
Fixpoint string_entries (i : nat) (s : string) : list (string * value) :=
  match s with
  | EmptyString => []
  | String c rest =>
      (index_key i, VPrim (PStr (String c ""))) :: string_entries (S i) rest
  end.

(** [parseRelationCollection(relationship)] *)
Fixpoint parseRelationCollection (relationship : value)
  : outcome (list value) :=
  match relationship with
  | VObj props => reduce_props parseRelationCollection props []
  | VArr items => reduce_items parseRelationCollection 0 items []
  | VPrim (PStr s) => reduce_props (fun _ => Ok []) (string_entries 0 s) []
  | VPrim PUndefined | VPrim PNull =>
      Throw (TypeError "Cannot convert undefined or null to object")
  | VPrim _ => Ok []
  end.

(** ** Schema descriptors *)

(** One row of [DESCRIBE table] ([Type] is spelled [Type_]). *)
Record column := Column {
  Field : string;
  Type_ : string;
  Null : string;
  Key : string;
  Default : prim;
  Extra : string;
}.

(** Modelled from the spec: [mysqlService.columnIsRequired] is in
    [mysql-service.js], which is not among the sources; the spec has the
    required fields as the columns that are non-nullable and have no
    default. *)
Definition columnIsRequired (c : column) : bool :=
  String.eqb (Null c) "NO" && bool_decide (Default c = PNull).

(** Modelled from the spec: [mysqlService.getColumnName] is in the same
    absent file; a column spec is named by its [Field]. *)
Definition getColumnName (c : column) : string := Field c.

(** A [Relationship] as far as [Model] uses it: the class is in
    [relationship.js], which is not among the sources, so its table name
    and its validation are taken as given.  [validateDataForCreate] reads
    the payload rows and answers with the message of the error it throws,
    if it throws. *)
Record Relationship := {
  tableName_of : string;
  validateDataForCreate : heap -> val -> option string;
}.

(** ** The Entity Definition *)

Record Model := {
  name : string;
  capitalizedName : string;
  tableName : string;
  fields : list column;
  plainFields : list string;
  updateableFields : list string;
  requiredFields : list string;
  hasCreatedAtTimestamp : bool;
  hasUpdatedAtTimestamp : bool;
  (** a [Map]: the entries in insertion order *)
  relations : list (string * Relationship);
}.

(** [_.without(array, ...values)] *)
Definition without (array : list string) (values : list string) : list string :=
  List.filter (fun x => negb (includes x values)) array.

(** [_.capitalize]: first character to upper case, the others to lower
    case (ASCII letters). *)
Definition upper_char (c : ascii) : ascii :=
  let n := nat_of_ascii c in
  if (97 <=? n)%nat && (n <=? 122)%nat then ascii_of_nat (n - 32) else c.

Definition lower_char (c : ascii) : ascii :=
  let n := nat_of_ascii c in
  if (65 <=? n)%nat && (n <=? 90)%nat then ascii_of_nat (n + 32) else c.

Fixpoint lower_case (s : string) : string :=
  match s with
  | EmptyString => EmptyString
  | String c rest => String (lower_char c) (lower_case rest)
  end.

Definition capitalize (s : string) : string :=
  match s with
  | EmptyString => EmptyString
  | String c rest => String (upper_char c) (lower_case rest)
  end.

(** [this.relations.set(relationName, relationship)] of [addRelationship] *)
Definition addRelationship (m : Model) (relationName : string)
    (relationship : Relationship) : Model :=
  {| name := name m;
     capitalizedName := capitalizedName m;
     tableName := tableName m;
     fields := fields m;
     plainFields := plainFields m;
     updateableFields := updateableFields m;
     requiredFields := requiredFields m;
     hasCreatedAtTimestamp := hasCreatedAtTimestamp m;
     hasUpdatedAtTimestamp := hasUpdatedAtTimestamp m;
     relations := set_prop relationName relationship (relations m) |}.

(** A flattened join row: a map from column alias to scalar. *)
Definition raw_row := list (string * prim).

(** The callback of the [reduce] in [rawSQLToModel]: a column is assigned
    at its dotted path, unless it has a second-level name and a falsy
    value. *)
Definition assign_column (partialModel : list (string * value))
    (column : string * prim) : list (string * value) :=
  let '(key, v) := column in
  let secondLevelProp := split_on "."%char key !! 1%nat in
  let valueShouldBeOmitted :=
    match secondLevelProp with
    | Some second => negb (String.eqb second "") && negb (truthy_prim v)
    | None => false
    end in
  if valueShouldBeOmitted then partialModel
  else lodash_set_props partialModel key (VPrim v).

Definition collect_columns (rawOutput : raw_row) : list (string * value) :=
  fold_left assign_column rawOutput [].

(** [model[relation.tableName] || []] *)
Definition relation_sub_object (model : list (string * value))
    (relation : Relationship) : value :=
  match get_prop (tableName_of relation) model with
  | Some v => if truthy v then v else VArr []
  | None => VArr []
  end.

(** The callback of [this.relations.forEach] in [rawSQLToModel] *)
Definition unflatten_relation (model : list (string * value))
    (relation : Relationship) : outcome (list (string * value)) :=
  match parseRelationCollection (relation_sub_object model relation) with
  | Ok rows => Ok (set_prop (tableName_of relation) (VArr rows) model)
  | Throw e => Throw e
  end.

Definition unflatten_relations (relations : list (string * Relationship))
    (model : list (string * value)) : outcome (list (string * value)) :=
  fold_left
    (fun acc '(_, relation) =>
       match acc with
       | Ok model => unflatten_relation model relation
       | Throw e => Throw e
       end)
    relations (Ok model).

(** [rawSQLToModel(rawOutput)] *)
Definition rawSQLToModel (m : Model) (rawOutput : raw_row) : outcome value :=
  match unflatten_relations (relations m) (collect_columns rawOutput) with
  | Ok model => Ok (VObj model)
  | Throw e => Throw e
  end.

(** ** Reading and writing the payload heap *)

Fixpoint index_entries (i : nat) (items : list val) : list (string * val) :=
  match items with
  | [] => []
  | x :: rest => (index_key i, x) :: index_entries (S i) rest
  end.

Fixpoint char_entries (i : nat) (s : string) : list (string * val) :=
  match s with
  | EmptyString => []
  | String c rest =>
      (index_key i, Prim (PStr (String c ""))) :: char_entries (S i) rest
  end.

Definition cell_entries (c : cell) : list (string * val) :=
  match c with
  | Obj props => props
  | Arr items props => index_entries 0 items ++ props
  end.

(** The own enumerable properties of a value, as [Object.entries] lists
    them; a reference to no cell has none. *)
Definition own_props (h : heap) (v : val) : list (string * val) :=
  match v with
  | Ref l => match h !! l with Some c => cell_entries c | None => [] end
  | Prim (PStr s) => char_entries 0 s
  | Prim _ => []
  end.

(** [object[key]] on a value that is not [null] or [undefined] *)
Definition read_prop (h : heap) (object : val) (key : string) : val :=
  match get_prop key (own_props h object) with
  | Some v => v
  | None => Prim PUndefined
  end.

Definition map_cell_props (f : list (string * val) -> list (string * val))
    (c : cell) : cell :=
  match c with
  | Obj props => Obj (f props)
  | Arr items props => Arr items (f props)
  end.

(** [_.set(object, key, v)] on the heap, for a key that lodash assigns
    directly (see [plain_key]) and that is no array index, as the stamp
    [id_<name>] is: the property is written into the cell in place. *)
Definition heap_set (h : heap) (object : val) (key : string) (v : val) : heap :=
  match object with
  | Ref l =>
      match h !! l with
      | Some c => <[l := map_cell_props (set_prop key v) c]> h
      | None => h
      end
  | Prim _ => h
  end.

(** [delete object[key]] for a key that is no array index *)
Definition heap_delete (h : heap) (object : val) (key : string) : heap :=
  match object with
  | Ref l =>
      match h !! l with
      | Some c => <[l := map_cell_props (delete_prop key) c]> h
      | None => h
      end
  | Prim _ => h
  end.

(** The elements of an array, none for what is no array. *)
Definition items_of (h : heap) (array : val) : list val :=
  match array with
  | Ref l => match h !! l with Some (Arr items _) => items | _ => [] end
  | Prim _ => []
  end.

Definition is_nullish (v : val) : bool :=
  match v with
  | Prim PUndefined | Prim PNull => true
  | _ => false
  end.

(** ** Statements and the execution adapter *)

Definition row := list (string * val).

(** Modelled from the spec: [QueryBuilder] is in [query-builder.js], which
    is not among the sources.  A statement is kept as what the spec says it
    is built from, not as SQL text: the get statement of a table with an
    optional id filter, the INSERT of a field map, the UPDATE with a SET
    clause over every key of a field map and a primary-key filter, the
    DELETE of the link-table rows whose senior key equals an id, one INSERT
    per relation row.  [QGetLast] and [QDelete] are the two statements
    [Model] writes itself:
    [SELECT * FROM t ORDER BY id DESC LIMIT 1] and
    [DELETE FROM t WHERE id = id]. *)
Inductive stmt :=
| QGet (table : string) (id : val)
| QGetLast (table : string)
| QCreate (table : string) (fieldMap : row)
| QUpdate (table : string) (id : val) (fieldMap : row)
| QDelete (table : string) (id : val)
| QDeleteExistingRelation (table : string) (seniorKey : string) (id : val)
| QCreateRelationEntry (table : string) (entry : row).

#[global] Instance stmt_eq_dec : EqDecision stmt.
Proof. solve_decision. Defined.

(** The stored tables, by name. *)
Definition tables := list (string * list row).

Definition rows_of (table : string) (db : tables) : list row :=
  match get_prop table db with
  | Some rows => rows
  | None => []
  end.

Fixpoint alter_table (f : list row -> list row) (table : string) (db : tables)
  : tables :=
  match db with
  | [] => []
  | (t, rows) :: rest =>
      if String.eqb t table then (t, f rows) :: rest
      else (t, rows) :: alter_table f table rest
  end.

(** The row holds [v] in column [c]: the same JavaScript value (the number
    [1] and the string ["1"] are told apart, where SQL would compare
    them). *)
Definition column_is (c : string) (v : val) (r : row) : bool :=
  bool_decide (get_prop c r = Some v).

Definition assign_fields (fieldMap : row) (r : row) : row :=
  fold_left (fun r '(k, v) => set_prop k v r) fieldMap r.

(** Modelled from the spec: what a statement does to the stored tables
    when the adapter runs it.  A write touches the rows of its own table
    only; the store has no triggers and no cascading keys. *)
Definition run_write (q : stmt) (db : tables) : tables :=
  match q with
  | QGet _ _ | QGetLast _ => db
  | QCreate t fieldMap => alter_table (fun rows => rows ++ [fieldMap]) t db
  | QUpdate t id fieldMap =>
      alter_table
        (map (fun r => if column_is "id" id r then assign_fields fieldMap r
                       else r)) t db
  | QDelete t id =>
      alter_table (List.filter (fun r => negb (column_is "id" id r))) t db
  | QDeleteExistingRelation t seniorKey id =>
      alter_table (List.filter (fun r => negb (column_is seniorKey id r))) t db
  | QCreateRelationEntry t entry =>
      alter_table (fun rows => rows ++ [entry]) t db
  end.

(** The collaborators of [Model] that are not among the sources:
    [pluralize.singular]; the rows [mysqlService.runQuery] returns for a
    statement and whether the driver fails on it (with which message); the
    message that [InvalidModelInputError] gives a list of missing
    fields. *)
Class Collaborators := {
  singular : string -> string;
  answer : stmt -> tables -> list raw_row;
  fault : stmt -> tables -> option string;
  invalidModelInputMessage : list string -> string;
}.

(** [err.message] *)
Definition message `{Collaborators} (e : error) : string :=
  match e with
  | TypeError what => what
  | InvalidModelInputError missingFields =>
      invalidModelInputMessage missingFields
  | RelationNotFound relationName =>
      "Relation " ++ relationName ++ " not found"
  | RelationValidationFailure what => what
  | ExecutionFailure what => what
  end.

(** [new Model(name, fields)] *)
Definition new_Model `{Collaborators} (name' : string) (fields' : list column)
  : Model :=
  {| name := singular name';
     capitalizedName := capitalize (singular name');
     tableName := name';
     fields := fields';
     plainFields := map Field fields';
     hasCreatedAtTimestamp := includes "created_at" (map Field fields');
     hasUpdatedAtTimestamp := includes "updated_at" (map Field fields');
     updateableFields := without (map Field fields') ["id"; "created_at"];
     requiredFields := map getColumnName (List.filter columnIsRequired fields');
     relations := [] |}.

(** ** The world and its monad

    A CRUD method runs in a world made of the payload heap, the stored
    tables and the statements handed to the adapter so far (oldest first).
    It ends with a value or with a thrown error; either way the world is
    what it has become.  The adapter is taken to run statements one at a
    time, in the order [runQuery] receives them. *)

Record world := World {
  w_heap : heap;
  w_tables : tables;
  w_log : list stmt;
}.

Definition M (A : Type) : Type := world -> outcome A * world.

Definition ret {A} (a : A) : M A := fun w => (Ok a, w).

Definition bind {A B} (m : M A) (k : A -> M B) : M B :=
  fun w =>
    match m w with
    | (Ok a, w') => k a w'
    | (Throw e, w') => (Throw e, w')
    end.

Definition throw {A} (e : error) : M A := fun w => (Throw e, w).

Definition lift {A} (r : outcome A) : M A := fun w => (r, w).

(** [try { ... } catch] *)
Definition attempt {A} (m : M A) : M (outcome A) :=
  fun w => let '(r, w') := m w in (Ok r, w').

(** An [async] callback whose promise nobody awaits: what it throws is
    lost to the caller.  (Node reports it as an unhandled rejection, which
    no [try]/[catch] of the callers sees; what the process does with it is
    not followed here.) *)
Definition detached (m : M unit) : M unit :=
  fun w => (Ok tt, snd (m w)).

Notation "'let*' x := m 'in' k" := (bind m (fun x => k))
  (at level 10, x name, m at level 100, k at level 200).
Notation "m ;;; k" := (bind m (fun _ => k))
  (at level 100, k at level 200, right associativity).

Fixpoint forEach {A} (f : A -> M unit) (l : list A) : M unit :=
  match l with
  | [] => ret tt
  | x :: rest => f x ;;; forEach f rest
  end.

Fixpoint mapM {A B} (f : A -> M B) (l : list A) : M (list B) :=
  match l with
  | [] => ret []
  | x :: rest => let* y := f x in let* ys := mapM f rest in ret (y :: ys)
  end.

Definition the_heap : M heap := fun w => (Ok (w_heap w), w).

Definition put_heap (h : heap) : M unit :=
  fun w => (Ok tt, {| w_heap := h; w_tables := w_tables w; w_log := w_log w |}).

Definition alloc (c : cell) : M val :=
  fun w =>
    (Ok (Ref (length (w_heap w))),
     {| w_heap := w_heap w ++ [c]; w_tables := w_tables w; w_log := w_log w |}).

(** ** [Model]: the CRUD methods *)

Section Crud.
Context `{Collaborators}.

(** [mysqlService.runQuery(query)]: the statement is handed to the
    adapter, which fails on it or runs it and answers with rows. *)
Definition runQuery (query : stmt) : M (list raw_row) :=
  fun w =>
    let after db :=
      {| w_heap := w_heap w; w_tables := db; w_log := w_log w ++ [query] |} in
    match fault query (w_tables w) with
    | Some what => (Throw (ExecutionFailure what), after (w_tables w))
    | None =>
        (Ok (answer query (w_tables w)),
         after (run_write query (w_tables w)))
    end.

(** Modelled from the spec: the statements of the absent [QueryBuilder],
    built for this model from their arguments as they are at the call. *)
Definition QueryBuilder_get (m : Model) (id : val) : stmt :=
  QGet (tableName m) id.

Definition QueryBuilder_create (m : Model) (fieldMap : row) : stmt :=
  QCreate (tableName m) fieldMap.

Definition QueryBuilder_update (m : Model) (id : val) (fieldMap : row)
  : stmt :=
  QUpdate (tableName m) id fieldMap.

Definition QueryBuilder_deleteExistingRelation (m : Model) (id : val)
    (relation : Relationship) : stmt :=
  QDeleteExistingRelation (tableName_of relation) ("id_" ++ name m) id.

Definition QueryBuilder_createRelationEntries (m : Model)
    (relation : Relationship) (h : heap) (rows : list val) : list stmt :=
  map (fun entry => QCreateRelationEntry (tableName_of relation)
                      (own_props h entry)) rows.

(** A parameter with a default: [data = {}], [id = null]. *)
Definition default_object (data : val) : M val :=
  match data with
  | Prim PUndefined => alloc (Obj [])
  | _ => ret data
  end.

Definition default_null (id : val) : val :=
  match id with
  | Prim PUndefined => Prim PNull
  | _ => id
  end.

(** [_.pick(object, paths)], over own properties: the prototype chain is
    not modelled, so what [_.pick] would find there (an array's [length],
    the members of [Object.prototype]) is not picked. *)
Definition pick (h : heap) (object : val) (paths : list string) : row :=
  fold_left
    (fun result path =>
       match get_prop path (own_props h object) with
       | Some v => set_prop path v result
       | None => result
       end)
    paths [].

Definition getValidFields (m : Model) (data : val) : M row :=
  let* h := the_heap in
  ret (pick h data (updateableFields m)).

(** [array.map]: the elements of an array; anything else has no [map]. *)
Definition array_items (array : val) : M (list val) :=
  let* h := the_heap in
  match array with
  | Ref l =>
      match h !! l with
      | Some (Arr items _) => ret items
      | _ => throw (TypeError "relation.relationData.map is not a function")
      end
  | Prim PUndefined =>
      throw (TypeError "Cannot read properties of undefined (reading 'map')")
  | Prim PNull =>
      throw (TypeError "Cannot read properties of null (reading 'map')")
  | Prim _ => throw (TypeError "relation.relationData.map is not a function")
  end.

(** [{ relationName, relationData }] *)
Record relation_update := {
  relationName : string;
  relationData : val;
}.

Definition stamp_key (m : Model) : string := "id_" ++ name m.

(** [_.set(relationEntry, `id_${this.name}`, id)] is written as the
    assignment of one property, which is what [_.set] does when the key
    is a plain property name ([plain_key]); the statements about stamping
    assume that of [stamp_key]. [_.set] on a primitive entry leaves it as
    it is, as [heap_set] does. *)
Definition signRelationsDataWithSeniorId (m : Model)
    (data : list relation_update) (id : val) : M (list relation_update) :=
  mapM
    (fun relation =>
       let* entries := array_items (relationData relation) in
       let* stamped :=
         mapM (fun relationEntry =>
                 let* h := the_heap in
                 put_heap (heap_set h relationEntry (stamp_key m) id) ;;;
                 ret relationEntry)
              entries in
       let* fresh := alloc (Arr stamped []) in
       ret {| relationName := relationName relation;
              relationData := fresh |})
    data.

Definition getRelationsToUpdate (m : Model) (data : val) (signingId : val)
  : M (list relation_update) :=
  let signingId := default_null signingId in
  let* h := the_heap in
  if is_nullish data then
    throw (TypeError "Cannot convert undefined or null to object")
  else
    let relationsToUpdate :=
      map (fun relationName =>
             {| relationName := relationName;
                relationData := read_prop h data relationName |})
          (List.filter (fun relationName =>
                          includes relationName (keys (relations m)))
                       (keys (own_props h data))) in
    signRelationsDataWithSeniorId m relationsToUpdate signingId.

(** [relation.validateDataForCreate(relationData)] *)
Definition validate (relation : Relationship) (data : val) : M unit :=
  let* h := the_heap in
  match validateDataForCreate relation h data with
  | Some what => throw (RelationValidationFailure what)
  | None => ret tt
  end.

(** [this.relations.get(relationName)] where the code goes on to use
    the relation without a check. *)
Definition relation_named (m : Model) (relationName : string)
  : M Relationship :=
  match get_prop relationName (relations m) with
  | Some relation => ret relation
  | None => throw (TypeError "Cannot read properties of undefined")
  end.

Definition get (m : Model) (id : val) : M value :=
  let id := default_null id in
  let query := QueryBuilder_get m id in
  let* data := runQuery query in
  let* result :=
    mapM (fun rawOutput => lift (rawSQLToModel m rawOutput)) data in
  ret (if truthy_val id
       then match result with
            | first :: _ => first
            | [] => VPrim PUndefined
            end
       else VArr result).

Definition getLast (m : Model) : M (option raw_row) :=
  let* data := runQuery (QGetLast (tableName m)) in
  ret (head data).

(** [assignRelationData(relation, newData)]: every INSERT is handed to
    the adapter at once; none is awaited. *)
Definition assignRelationData (m : Model) (relation : Relationship)
    (newData : val) : M unit :=
  let* h := the_heap in
  forEach (fun query => detached (runQuery query ;;; ret tt))
          (QueryBuilder_createRelationEntries m relation h
             (items_of h newData)).

(** [update(id, data)].  The two [forEach(async ...)] of the source are
    not awaited: of [overrideExistingRelationEntries] only the DELETE is
    handed to the adapter before [update] goes on to [this.get(id)]; the
    INSERTs of a relation follow once its DELETE has been answered, and
    not at all when that DELETE failed.  What those callbacks throw is
    lost. *)
Definition update (m : Model) (id : val) (data : val) : M value :=
  let* data := default_object data in
  (if is_nullish data then
     throw (TypeError "Cannot convert undefined or null to object")
   else
     let* h := the_heap in put_heap (heap_delete h data "id")) ;;;
  let* fieldsToUpdate := getValidFields m data in
  let* relationsToUpdate := getRelationsToUpdate m data id in
  forEach (fun r =>
             let* relation := relation_named m (relationName r) in
             validate relation (relationData r))
          relationsToUpdate ;;;
  (if (0 <? length (keys fieldsToUpdate))%nat then
     let* h := the_heap in
     let query := QueryBuilder_update m id (own_props h data) in
     runQuery query ;;; ret tt
   else ret tt) ;;;
  let* deleted :=
    mapM (fun r =>
            let* answered :=
              attempt
                (let* relation := relation_named m (relationName r) in
                 runQuery (QueryBuilder_deleteExistingRelation m id relation)) in
            ret (r, answered))
         relationsToUpdate in
  let* result := attempt (get m id) in
  forEach (fun '(r, answered) =>
             match answered with
             | Ok _ =>
                 detached
                   (let* relation := relation_named m (relationName r) in
                    assignRelationData m relation (relationData r))
             | Throw _ => ret tt
             end)
          deleted ;;;
  lift result.

(** [delete(id)] *)
Definition delete (m : Model) (id : val) : M value :=
  runQuery (QDelete (tableName m) id) ;;;
  ret (VObj [("success", VPrim (PBool true))]).

(** [create(data)] *)
Definition create (m : Model) (data : val) : M value :=
  let* data := default_object data in
  let* fieldsToUpdate := getValidFields m data in
  let missingRequiredFields :=
    List.filter (fun field => negb (includes field (keys fieldsToUpdate)))
                (requiredFields m) in
  let* relationsToInsert := getRelationsToUpdate m data (Prim PNull) in
  forEach (fun r =>
             match get_prop (relationName r) (relations m) with
             | None => throw (RelationNotFound (relationName r))
             | Some relation => validate relation (relationData r)
             end)
          relationsToInsert ;;;
  if (0 <? length missingRequiredFields)%nat then
    throw (InvalidModelInputError missingRequiredFields)
  else
    let query := QueryBuilder_create m fieldsToUpdate in
    runQuery query ;;;
    let* result := getLast m in
    let* id :=
      match result with
      | Some last =>
          ret (match get_prop "id" last with
               | Some p => Prim p
               | None => Prim PUndefined
               end)
      | None =>
          throw (TypeError "Cannot read properties of undefined (reading 'id')")
      end in
    let* signedRelationsData :=
      signRelationsDataWithSeniorId m relationsToInsert id in
    forEach (fun r =>
               detached
                 (let* relation := relation_named m (relationName r) in
                  assignRelationData m relation (relationData r)))
            signedRelationsData ;;;
    get m id.
End Crud.

(** ** The Route Generator

    The handlers are written against the Express response object:
    [res.status(code).send(body)] answers with that status and body (an
    object is sent as JSON); [res.sendStatus(code)] answers with the status
    and its registered status message as text; [res.end(text)] after
    [res.setHeader] answers 200 with that text. *)

Inductive body :=
| BEmpty
| BText (text : string)
| BJson (v : value).

Record response := {
  status : Z;
  contentType : string;
  content : body;
}.

Record request := {
  params_id : string;
  req_body : val;
}.

Definition status_message (code : Z) : string :=
  if Z.eqb code 200 then "OK"
  else if Z.eqb code 404 then "Not Found"
  else if Z.eqb code 500 then "Internal Server Error"
  else NilZero.string_of_int (Z.to_int code).

Definition send_object (code : Z) (v : value) : response :=
  {| status := code; contentType := "application/json"; content := BJson v |}.

Definition send_text (code : Z) (text : string) : response :=
  {| status := code; contentType := "text/html"; content := BText text |}.

Definition sendStatus (code : Z) : response :=
  {| status := code; contentType := "text/plain";
     content := BText (status_message code) |}.

(** [res.setHeader("Content-Type", "application/json");
     res.end(JSON.stringify(data))]: [JSON.stringify(undefined)] is
    [undefined] and nothing is written. *)
Definition end_json (data : value) : response :=
  {| status := 200; contentType := "application/json";
     content := match data with
                | VPrim PUndefined => BEmpty
                | _ => BJson data
                end |}.

Section Routes.
Context `{Collaborators}.

(** [catch (err) { res.status(500).send(err.message) }] *)
Definition send_error (err : error) : response :=
  send_text 500 (message err).

Definition get_collection_handler (m : Model) (req : request) : M response :=
  let* r := attempt (get m (Prim PUndefined)) in
  match r with
  | Ok data => ret (end_json data)
  | Throw err => ret (send_error err)
  end.

Definition get_handler (m : Model) (req : request) : M response :=
  let* r := attempt (get m (Prim (PStr (params_id req)))) in
  match r with
  | Ok data =>
      if negb (truthy data) then
        ret (send_object 404
               (VObj [("success", VPrim (PBool false));
                      ("status", VPrim (PStr "Not found"))]))
      else ret (end_json data)
  | Throw err => ret (send_error err)
  end.

Definition put_handler (m : Model) (req : request) : M response :=
  let* r :=
    attempt
      (let* target := get m (Prim (PStr (params_id req))) in
       if negb (truthy target) then ret (sendStatus 404)
       else
         let* result :=
           update m (Prim (PStr (params_id req))) (req_body req) in
         ret (end_json result)) in
  match r with
  | Ok res => ret res
  | Throw err => ret (send_error err)
  end.

Definition post_handler (m : Model) (req : request) : M response :=
  let* r := attempt (create m (req_body req)) in
  match r with
  | Ok result => ret (end_json result)
  | Throw err => ret (send_error err)
  end.

Definition delete_handler (m : Model) (req : request) : M response :=
  let* r :=
    attempt
      (let* target := get m (Prim (PStr (params_id req))) in
       if negb (truthy target) then ret (sendStatus 404)
       else
         let* result := delete m (Prim (PStr (params_id req))) in
         ret (end_json result)) in
  match r with
  | Ok res => ret res
  | Throw err => ret (send_error err)
  end.

Record route := {
  method : string;
  path : string;
  handler : request -> M response;
}.

(** [generate(model)]: the routes in the order they are registered. *)
Definition generate (m : Model) : list route :=
  [ {| method := "GET"; path := "/" ++ tableName m;
       handler := get_collection_handler m |};
    {| method := "GET"; path := "/" ++ tableName m ++ "/:id";
       handler := get_handler m |};
    {| method := "PUT"; path := "/" ++ tableName m ++ "/:id";
       handler := put_handler m |};
    {| method := "POST"; path := "/" ++ tableName m;
       handler := post_handler m |};
    {| method := "DELETE"; path := "/" ++ tableName m ++ "/:id";
       handler := delete_handler m |} ].
End Routes.

(** ** Notions used in the statements *)

(** The named properties of a cell. *)
Definition cell_props (c : cell) : list (string * val) :=
  match c with
  | Obj props => props
  | Arr _ props => props
  end.

(** The cell at [x] carries [key] with value [v]. *)
Definition stamped (h : heap) (key : string) (v : val) (x : nat) : Prop :=
  exists c, h !! x = Some c /\ get_prop key (cell_props c) = Some v.

(** The required fields that [create] finds missing in a payload. *)
Definition missing_required (m : Model) (h : heap) (data : val)
  : list string :=
  List.filter
    (fun field => negb (includes field (keys (pick h data (updateableFields m)))))
    (requiredFields m).

(** A computation that leaves the heap, or the store and the log, as they
    were, whatever it returns. *)
Definition keeps_heap {A} (c : M A) : Prop :=
  forall w, w_heap (snd (c w)) = w_heap w.

Definition keeps_store {A} (c : M A) : Prop :=
  forall w, w_tables (snd (c w)) = w_tables w /\ w_log (snd (c w)) = w_log w.

(** ** A small entity for the examples: [users] with a [tags] relation *)

Module Demo.
Definition collaborators (rows : stmt -> list raw_row) : Collaborators :=
  {| singular := fun _ => "user";
     answer := fun query _ => rows query;
     fault := fun _ _ => None;
     invalidModelInputMessage := fun _ => "Invalid model input" |}.

Definition no_rows : stmt -> list raw_row := fun _ => [].

Definition one_user : stmt -> list raw_row :=
  fun _ => [[("id", PNum 1); ("name", PStr "Ann")]].

Definition tags : Relationship :=
  {| tableName_of := "tags"; validateDataForCreate := fun _ _ => None |}.

Definition addr : Relationship :=
  {| tableName_of := "addr"; validateDataForCreate := fun _ _ => None |}.

Definition columns : list column :=
  [ Column "id" "char(36)" "NO" "PRI" (PStr "uuid()") "DEFAULT_GENERATED";
    Column "name" "varchar(64)" "NO" "" PNull "";
    Column "nick" "varchar(64)" "YES" "" PNull "";
    Column "created_at" "timestamp" "NO" "" (PStr "CURRENT_TIMESTAMP") "" ].

Definition users (C : Collaborators) : Model :=
  addRelationship (new_Model "users" columns) "tags" tags.

Definition residents (C : Collaborators) : Model :=
  addRelationship (new_Model "residents" columns) "addr" addr.

Definition store : tables :=
  [ ("users", [[("id", Prim (PStr "1")); ("name", Prim (PStr "Ann"))]]);
    ("tags", [ [("id_user", Prim (PStr "1")); ("id_tag", Prim (PNum 9))];
               [("id_user", Prim (PStr "2")); ("id_tag", Prim (PNum 9))] ]) ].

Definition world_of (h : heap) : world :=
  {| w_heap := h; w_tables := store; w_log := [] |}.

(** The payload [{id: 1, name: "Bea", tags: [{id_tag: 5}]}] at [Ref 0]. *)
Definition payload : heap :=
  [ Obj [("id", Prim (PNum 1)); ("name", Prim (PStr "Bea")); ("tags", Ref 1)];
    Arr [Ref 2] [];
    Obj [("id_tag", Prim (PNum 5))] ].
End Demo.

(** The value of [key] in row [i] of a collection, if that row is an
    object that has the property. *)
Definition row_get (rows : list value) (i : nat) (key : string)
  : option value :=
  match rows !! i with
  | Some (VObj props) => get_prop key props
  | _ => None
  end.

(** What the mapper puts into row [i] for a column aggregated as [s]: its
    [i]-th segment, [null] for an empty segment, nothing past the last
    segment. *)
Definition segment_cell (s : string) (i : nat) : option value :=
  match split_on ","%char s !! i with
  | Some segment =>
      Some (if String.eqb segment "" then VPrim PNull else VPrim (PStr segment))
  | None => None
  end.

Definition is_plain_object (v : value) : Prop := exists props, v = VObj props.

Definition string_columns (columns : list (string * string))
  : list (string * value) :=
  map (fun '(k, s) => (k, VPrim (PStr s))) columns.

Definition segment_counts (columns : list (string * string)) : list nat :=
  map (fun '(_, s) => length (split_on ","%char s)) columns.

(** [h'] is [h] after some cells were given the property [key := v] and
    some cells were allocated: nothing else has changed. *)
Definition heap_stamps (key : string) (v : val) (h h' : heap) : Prop :=
  length h <= length h'
  /\ forall l c, h !! l = Some c ->
       exists c', h' !! l = Some c'
                  /\ (c' = c \/ c' = map_cell_props (set_prop key v) c).

(** The value is an array with these elements. *)
Definition array_at (h : heap) (array : val) (items : list val) : Prop :=
  exists a props, array = Ref a /\ h !! a = Some (Arr items props).

(** Every live cell among [items] carries [key := v]. *)
Definition rows_stamped (h0 h : heap) (key : string) (v : val)
    (items : list val) : Prop :=
  forall x, In (Ref x) items -> is_Some (h0 !! x) -> stamped h key v x.

(** The keys of a payload that name a declared relation, in payload
    order. *)
Definition relation_keys (m : Model) (h : heap) (data : val) : list string :=
  List.filter (fun relationName => includes relationName (keys (relations m)))
              (keys (own_props h data)).

(** ** The stages of [create] and [update]

    The bodies of [create] and [update], cut at the points where they can
    stop: the callbacks that validate a relation payload, and what follows
    the checks.  [create_stages] and [update_stages] below show that the
    methods are these stages in sequence. *)

Section Stages.
Context `{Collaborators}.

Definition create_validate (m : Model) (r : relation_update) : M unit :=
  match get_prop (relationName r) (relations m) with
  | None => throw (RelationNotFound (relationName r))
  | Some relation => validate relation (relationData r)
  end.

Definition create_relations (m : Model)
    (relationsToInsert : list relation_update) (id : val) : M value :=
  let* signedRelationsData :=
    signRelationsDataWithSeniorId m relationsToInsert id in
  forEach (fun r =>
             detached
               (let* relation := relation_named m (relationName r) in
                assignRelationData m relation (relationData r)))
          signedRelationsData ;;;
  get m id.

Definition last_id (result : option raw_row) : M val :=
  match result with
  | Some last =>
      ret (match get_prop "id" last with
           | Some p => Prim p
           | None => Prim PUndefined
           end)
  | None =>
      throw (TypeError "Cannot read properties of undefined (reading 'id')")
  end.

Definition create_write (m : Model) (fieldsToUpdate : row)
    (relationsToInsert : list relation_update) : M value :=
  runQuery (QueryBuilder_create m fieldsToUpdate) ;;;
  let* result := getLast m in
  let* id := last_id result in
  create_relations m relationsToInsert id.

Definition update_validate (m : Model) (r : relation_update) : M unit :=
  let* relation := relation_named m (relationName r) in
  validate relation (relationData r).

Definition update_delete_existing (m : Model) (id : val) (r : relation_update)
  : M (relation_update * outcome (list raw_row)) :=
  let* answered :=
    attempt
      (let* relation := relation_named m (relationName r) in
       runQuery (QueryBuilder_deleteExistingRelation m id relation)) in
  ret (r, answered).

Definition update_insert_new (m : Model)
    (d : relation_update * outcome (list raw_row)) : M unit :=
  let '(r, answered) := d in
  match answered with
  | Ok _ =>
      detached
        (let* relation := relation_named m (relationName r) in
         assignRelationData m relation (relationData r))
  | Throw _ => ret tt
  end.

Definition update_relations (m : Model) (id : val)
    (relationsToUpdate : list relation_update) : M value :=
  let* deleted := mapM (update_delete_existing m id) relationsToUpdate in
  let* result := attempt (get m id) in
  forEach (update_insert_new m) deleted ;;;
  lift result.

Definition update_own_fields (m : Model) (id : val) (data : val)
    (fieldsToUpdate : row) : M unit :=
  if (0 <? length (keys fieldsToUpdate))%nat then
    let* h := the_heap in
    let query := QueryBuilder_update m id (own_props h data) in
    runQuery query ;;; ret tt
  else ret tt.

Definition update_write (m : Model) (id : val) (data : val)
    (fieldsToUpdate : row) (relationsToUpdate : list relation_update)
  : M value :=
  update_own_fields m id data fieldsToUpdate ;;;
  update_relations m id relationsToUpdate.
End Stages.

(** The relation payload [r] names a declared relation whose validation
    accepts it in heap [h]. *)
Definition accepted (m : Model) (h : heap) (r : relation_update) : Prop :=
  exists relation,
    get_prop (relationName r) (relations m) = Some relation
    /\ validateDataForCreate relation h (relationData r) = None.

(** Whatever the computation throws satisfies [P]. *)
Definition throws_only {A} (P : error -> Prop) (c : M A) : Prop :=
  forall w e w', c w = (Throw e, w') -> P e.

(** Any error but the "Relation ... not found" of [create]. *)
Definition other_than_not_found (e : error) : Prop :=
  match e with
  | RelationNotFound _ => False
  | _ => True
  end.

(** The error is a [TypeError]. *)
Definition is_type_error (e : error) : Prop := exists what, e = TypeError what.

(** The link table of a relation payload, and the statements [update]
    hands to the adapter for it: the DELETE of the rows of senior [id],
    then one INSERT per row of the payload as heap [h] has it. *)
Definition table_of (m : Model) (r : relation_update) : string :=
  match get_prop (relationName r) (relations m) with
  | Some relation => tableName_of relation
  | None => ""
  end.

Definition delete_existing (m : Model) (id : val) (db : tables)
    (r : relation_update) : tables :=
  run_write (QDeleteExistingRelation (table_of m r) (stamp_key m) id) db.

Definition insert_rows (table : string) (rows : list row) (db : tables)
  : tables :=
  fold_left (fun db entry => run_write (QCreateRelationEntry table entry) db)
            rows db.

Definition insert_new (m : Model) (h : heap) (db : tables)
    (r : relation_update) : tables :=
  insert_rows (table_of m r) (map (own_props h) (items_of h (relationData r))) db.

(** The adapter never fails. *)
Definition no_fault `{Collaborators} : Prop :=
  forall query db, fault query db = None.

(** The row is a reference to a plain object. *)
Definition object_row (h : heap) (v : val) : Prop :=
  exists x props, v = Ref x /\ h !! x = Some (Obj props).


(** The columns of one relation in a flattened join row: the aggregated
    string of column [c] of relation table [table] under the alias
    [table.c]. *)
Definition alias (table c : string) : string :=
  String.append table (String "."%char c).

Definition relation_columns (table : string) (columns : list (string * string))
  : raw_row :=
  map (fun '(c, s) => (alias table c, PStr s)) columns.

Definition relation_tables (m : Model) : list string :=
  map (fun e => tableName_of (snd e)) (relations m).

(** The partial model once the columns [columns] of relation [table] were
    assigned on top of [base]. *)
Definition gathered (table : string) (base : list (string * value))
    (columns : list (string * string)) : list (string * value) :=
  match columns with
  | [] => base
  | _ :: _ => set_prop table (VObj (string_columns columns)) base
  end.

(** ** Notions used in the further properties *)

(** The columns of a flattened row that are the entity's own: the ones
    whose alias has no dot, in row order, and the properties they become. *)
Definition own_columns (rawOutput : raw_row) : raw_row :=
  List.filter (fun column => negb (contains_char "."%char (fst column)))
              rawOutput.

Definition scalar_props (columns : raw_row) : list (string * value) :=
  map (fun '(k, v) => (k, VPrim v)) columns.

(** Every declared relation with an empty collection, in declaration
    order. *)
Definition empty_relations (m : Model) : list (string * value) :=
  map (fun t => (t, VArr [])) (relation_tables m).

(** A column that the mapper assigns as it is: a plain name that is no
    relation's table name. *)
Definition own_column (m : Model) (column : string * prim) : Prop :=
  plain_key (fst column) = true /\ ~ In (fst column) (relation_tables m).

(** A column that the mapper leaves out: an alias [table.c] with a falsy
    value, as a join without related rows gives. *)
Definition omitted_column (column : string * prim) : Prop :=
  exists t c,
    fst column = alias t c
    /\ plain_key t = true /\ plain_key c = true /\ c <> ""
    /\ truthy_prim (snd column) = false.

(** A truthy scalar that is no string: a number other than [0], or
    [true]. *)
Definition truthy_non_string (p : prim) : Prop :=
  truthy_prim p = true /\ forall s, p <> PStr s.

(** Between [w] and [w'] the one statement [q], which writes nothing, went
    to the adapter, and nothing else has changed: the payload heap and the
    stored tables are as they were. *)
Definition only_reads (q : stmt) (w w' : world) : Prop :=
  w_heap w' = w_heap w
  /\ w_tables w' = w_tables w
  /\ w_log w' = w_log w ++ [q].

(** The INSERTs that [assignRelationData] hands to the adapter for the
    relation payloads [rels], one per row and in row order, as heap [h] has
    the rows; and the DELETEs of the rows of senior [id] that [update]
    hands to it before. *)
Definition relation_inserts (m : Model) (h : heap)
    (rels : list relation_update) : list stmt :=
  concat
    (map (fun r =>
            map (fun entry =>
                   QCreateRelationEntry (table_of m r) (own_props h entry))
                (items_of h (relationData r)))
         rels).

Definition relation_deletes (m : Model) (id : val)
    (rels : list relation_update) : list stmt :=
  map (fun r => QDeleteExistingRelation (table_of m r) (stamp_key m) id) rels.

(** The relation payload [r] is the one under key [k] of the payload
    [data]: it is named [k], and in heap [h] it is an array of the elements
    that the array under [k] had in heap [h0]. *)
Definition payload_of_key (h0 h : heap) (data : val) (k : string)
    (r : relation_update) : Prop :=
  relationName r = k
  /\ forall items,
       array_at h0 (read_prop h0 data k) items ->
       items_of h (relationData r) = items.

(** The relation payload [r] names a declared relation whose validation
    rejects it in heap [h], with the message [what]. *)
Definition rejected (m : Model) (h : heap) (r : relation_update)
    (what : string) : Prop :=
  exists relation,
    get_prop (relationName r) (relations m) = Some relation
    /\ validateDataForCreate relation h (relationData r) = Some what.

(** The value is no array: a scalar, or a plain object. *)
Definition no_array (h : heap) (v : val) : Prop :=
  match v with
  | Prim _ => True
  | Ref a => exists props, h !! a = Some (Obj props)
  end.

(** [users] with a second relation, whose validation wants at least one
    row. *)
Module Sample.
Definition roles : Relationship :=
  {| tableName_of := "roles";
     validateDataForCreate := fun h data =>
       match items_of h data with
       | [] => Some "roles: at least one row is required"
       | _ :: _ => None
       end |}.

Definition members (C : Collaborators) : Model :=
  addRelationship (Demo.users C) "roles" roles.

(** The payload [{name: "Bea", roles: []}] at [Ref 0]. *)
Definition without_roles : heap :=
  [ Obj [("name", Prim (PStr "Bea")); ("roles", Ref 1)]; Arr [] [] ].

(** The payload [{name: "Bea", tags: {id_tag: 5}}] at [Ref 0]. *)
Definition tags_as_object : heap :=
  [ Obj [("name", Prim (PStr "Bea")); ("tags", Ref 1)];
    Obj [("id_tag", Prim (PNum 5))] ].

(** The first key of a field map that is no column of [users]. *)
Definition unknown_column (fieldMap : row) : option string :=
  head (List.filter (fun k => negb (includes k (map Field Demo.columns)))
                    (keys fieldMap)).

(** An adapter that, as a database does, fails on an UPDATE or INSERT of
    [users] that names something that is no column of the table. *)
Definition checking (rows : stmt -> list raw_row) : Collaborators :=
  {| singular := fun _ => "user";
     answer := fun query _ => rows query;
     fault := fun query _ =>
       match query with
       | QUpdate _ _ fieldMap | QCreate _ fieldMap =>
           match unknown_column fieldMap with
           | Some k =>
               Some (String.append "Unknown column '"
                       (String.append k "' in 'field list'"))
           | None => None
           end
       | _ => None
       end;
     invalidModelInputMessage := fun _ => "Invalid model input" |}.
End Sample.

(** * Properties *)

(** ** Strings, property lists *)

Lemma includes_In (x : string) (l : list string) :
  includes x l = true <-> In x l.
Proof.
  unfold includes. rewrite existsb_exists. split.
  - intros (y & Hy & Heq). apply String.eqb_eq in Heq. now subst.
  - intros Hx. exists x. split; [exact Hx | apply String.eqb_refl].
Qed.

Lemma split_on_nonempty (sep : ascii) (s : string) : split_on sep s <> [].
Proof.
  destruct s as [|c rest]; simpl; [discriminate|].
  destruct (Ascii.eqb c sep); [discriminate|].
  destruct (split_on sep rest); discriminate.
Qed.

Lemma split_on_no_sep (sep : ascii) (s : string) :
  contains_char sep s = false -> split_on sep s = [s].
Proof.
  induction s as [|c rest IH]; simpl; [reflexivity|].
  intros Hc. apply orb_false_iff in Hc as [Hc Hrest].
  rewrite Hc, (IH Hrest). reflexivity.
Qed.

Section PropsFacts.
Context {V : Type}.
Implicit Types (props : list (string * V)) (key : string).

Lemma get_set_prop_eq key (v : V) props :
  get_prop key (set_prop key v props) = Some v.
Proof.
  induction props as [|[k x] rest IH]; simpl.
  - now rewrite String.eqb_refl.
  - destruct (String.eqb k key) eqn:E; simpl; rewrite E; [reflexivity | exact IH].
Qed.

Lemma get_set_prop_ne key key' (v : V) props :
  key <> key' -> get_prop key' (set_prop key v props) = get_prop key' props.
Proof.
  intros Hne. induction props as [|[k x] rest IH]; simpl.
  - destruct (String.eqb key key') eqn:E; [|reflexivity].
    apply String.eqb_eq in E. contradiction.
  - destruct (String.eqb k key) eqn:E; simpl.
    + apply String.eqb_eq in E. subst k.
      destruct (String.eqb key key') eqn:E'; [|reflexivity].
      apply String.eqb_eq in E'. contradiction.
    + now rewrite IH.
Qed.

Lemma get_delete_prop_eq key props : get_prop key (delete_prop key props) = None.
Proof.
  induction props as [|[k x] rest IH]; simpl; [reflexivity|].
  destruct (String.eqb k key) eqn:E; simpl; [exact IH | now rewrite E].
Qed.

Lemma get_delete_prop_ne key key' props :
  key <> key' -> get_prop key' (delete_prop key props) = get_prop key' props.
Proof.
  intros Hne. induction props as [|[k x] rest IH]; simpl; [reflexivity|].
  destruct (String.eqb k key) eqn:E; simpl.
  - apply String.eqb_eq in E. subst k.
    destruct (String.eqb key key') eqn:E'; [|exact IH].
    apply String.eqb_eq in E'. contradiction.
  - now rewrite IH.
Qed.

Lemma get_prop_In key (v : V) props : get_prop key props = Some v -> In (key, v) props.
Proof.
  induction props as [|[k x] rest IH]; simpl; [discriminate|].
  destruct (String.eqb k key) eqn:E.
  - apply String.eqb_eq in E. intros [= ->]. left. now subst.
  - intros Hg. right. now apply IH.
Qed.

Lemma get_prop_None key props : get_prop key props = None <-> ~ In key (keys props).
Proof.
  induction props as [|[k x] rest IH]; simpl; [tauto|].
  destruct (String.eqb k key) eqn:E.
  - apply String.eqb_eq in E. split; [discriminate | intros Hn; exfalso; apply Hn; now left].
  - apply String.eqb_neq in E. rewrite IH. unfold keys. tauto.
Qed.
End PropsFacts.

(** ** The Entity Definition's field sets *)

Section FieldSets.
Context `{Collaborators}.

(** C5: for every column list, [updateableFields] is the column names
    without [id] and [created_at], in column order, and [requiredFields]
    is the names of exactly the columns that are non-nullable and have no
    default. *)
Theorem new_Model_field_sets (table : string) (columns : list column) :
  let m := new_Model table columns in
  updateableFields m
    = List.filter (fun x => negb (String.eqb x "id")
                            && negb (String.eqb x "created_at"))
                  (map Field columns)
  /\ (forall x, In x (updateableFields m)
                <-> In x (map Field columns) /\ x <> "id" /\ x <> "created_at")
  /\ requiredFields m
       = map Field (List.filter (fun c => String.eqb (Null c) "NO"
                                          && bool_decide (Default c = PNull))
                                columns)
  /\ (forall x, In x (requiredFields m)
                <-> exists c, In c columns /\ Field c = x
                              /\ Null c = "NO" /\ Default c = PNull).
Proof.
  cbn zeta. simpl. unfold without.
  assert (Hf : forall x, negb (includes x ["id"; "created_at"])
               = negb (String.eqb x "id") && negb (String.eqb x "created_at")).
  { intros x. unfold includes. simpl. rewrite orb_false_r.
    rewrite negb_orb. reflexivity. }
  split; [|split; [|split]].
  - apply List.filter_ext. exact Hf.
  - intros x. rewrite List.filter_In, Hf, andb_true_iff, !negb_true_iff.
    rewrite !String.eqb_neq. tauto.
  - reflexivity.
  - intros x. split.
    + intros Hx. apply in_map_iff in Hx as (c & Hc & Hin).
      apply List.filter_In in Hin as [Hin Hreq].
      unfold columnIsRequired in Hreq.
      apply andb_true_iff in Hreq as [Hn Hd]. apply String.eqb_eq in Hn.
      apply bool_decide_eq_true in Hd. exists c.
      unfold getColumnName in Hc. tauto.
    + intros (c & Hin & Hc & Hn & Hd). apply in_map_iff. exists c.
      split; [exact Hc|]. apply List.filter_In. split; [exact Hin|].
      unfold columnIsRequired. apply andb_true_iff. split.
      * now apply String.eqb_eq.
      * now apply bool_decide_eq_true.
Qed.
End FieldSets.

(** ** The row mapper *)

Lemma split_value_string (s : string) :
  split_value (VPrim (PStr s))
  = Ok (map (fun seg => VPrim (PStr seg)) (split_on ","%char s)).
Proof.
  unfold split_value. simpl. destruct s as [|c rest]; reflexivity.
Qed.

Lemma lodash_set_plain (props : list (string * value)) (key : string) (v : value) :
  plain_key key = true ->
  lodash_set (VObj props) key v = VObj (set_prop key v props).
Proof.
  unfold plain_key. rewrite !andb_true_iff, !negb_true_iff.
  intros [[[Hdot _] _] Hsafe].
  unfold lodash_set, lodash_set_props, cast_path. f_equal.
  destruct (has_prop key props); [|rewrite (split_on_no_sep _ _ Hdot)];
    simpl; now rewrite Hsafe.
Qed.

Lemma row_get_cons_S (row : value) (rows : list value) (i : nat) (key : string) :
  row_get (row :: rows) (S i) key = row_get rows i key.
Proof. reflexivity. Qed.

Lemma assign_entries_length (key : string) (parsedValue result : list value) :
  length (assign_entries key parsedValue result)
  = Nat.max (length parsedValue) (length result).
Proof.
  revert result. induction parsedValue as [|e es IH]; intros result; simpl.
  - reflexivity.
  - destruct result as [|row rows]; simpl; rewrite IH; simpl; lia.
Qed.

Lemma assign_entries_objects (key : string) (parsedValue result : list value) :
  Forall is_plain_object result ->
  Forall is_plain_object (assign_entries key parsedValue result).
Proof.
  revert result. induction parsedValue as [|e es IH]; intros result Hres; simpl.
  - exact Hres.
  - destruct result as [|row rows].
    + constructor; [eexists; reflexivity | apply IH; constructor].
    + inversion Hres as [|? ? [ps ->] Hrows]; subst.
      constructor; [eexists; reflexivity | now apply IH].
Qed.

Lemma assign_entries_get (key : string) (segments : list string)
    (result : list value) (i : nat) (key' : string) :
  plain_key key = true ->
  Forall is_plain_object result ->
  row_get (assign_entries key (map (fun seg => VPrim (PStr seg)) segments) result)
          i key'
  = if String.eqb key key' then
      match segments !! i with
      | Some segment =>
          Some (if String.eqb segment "" then VPrim PNull
                else VPrim (PStr segment))
      | None => row_get result i key'
      end
    else row_get result i key'.
Proof.
  intros Hplain. revert result i.
  induction segments as [|seg segs IH]; intros result i Hres;
    cbn [assign_entries map].
  - destruct (String.eqb key key'); reflexivity.
  - assert (Hnull : or_null (VPrim (PStr seg))
                    = if String.eqb seg "" then VPrim PNull else VPrim (PStr seg)).
    { unfold or_null. simpl. now destruct (String.eqb seg ""). }
    destruct result as [|row rows].
    + rewrite (lodash_set_plain [] key _ Hplain), Hnull.
      destruct i as [|i].
      * unfold row_get. simpl.
        destruct (String.eqb key key'); reflexivity.
      * rewrite row_get_cons_S, IH by constructor. reflexivity.
    + inversion Hres as [|? ? [ps ->] Hrows]; subst.
      unfold or_empty_object. cbn [truthy].
      rewrite (lodash_set_plain ps key _ Hplain), Hnull.
      destruct i as [|i].
      * unfold row_get. cbn [lookup list_lookup].
        destruct (String.eqb key key') eqn:E.
        -- apply String.eqb_eq in E. subst key'. apply get_set_prop_eq.
        -- apply String.eqb_neq in E. now apply get_set_prop_ne.
      * rewrite !row_get_cons_S. now apply IH.
Qed.

Lemma reduce_string_columns (parse : value -> outcome (list value))
    (columns : list (string * string)) :
  List.NoDup (map fst columns) ->
  Forall (fun k => plain_key k = true) (map fst columns) ->
  forall result, Forall is_plain_object result ->
  exists rows,
    reduce_props parse (string_columns columns) result = Ok rows
    /\ Forall is_plain_object rows
    /\ length rows = Nat.max (length result) (list_max (segment_counts columns))
    /\ forall i key,
         row_get rows i key
         = match get_prop key columns with
           | Some s =>
               match segment_cell s i with
               | Some v => Some v
               | None => row_get result i key
               end
           | None => row_get result i key
           end.
Proof.
  induction columns as [|[k s] rest IH]; intros Hnodup Hplain result Hres.
  - exists result. simpl. repeat split; [exact Hres | lia].
  - inversion Hnodup as [|? ? Hnotin Hnodup']; subst.
    inversion Hplain as [|? ? Hk Hplain']; subst.
    cbn [string_columns map reduce_props]. fold (string_columns rest).
    unfold reduce_step, parsed_value. cbn [truthy is_object andb].
    rewrite andb_false_r, split_value_string.
    set (result1 := assign_entries k _ result).
    assert (Hres1 : Forall is_plain_object result1)
      by now apply assign_entries_objects.
    destruct (IH Hnodup' Hplain' result1 Hres1) as (rows & Hrun & Hobj & Hlen & Hget).
    exists rows. split; [cbn beta iota; exact Hrun|]. split; [exact Hobj|]. split.
    + rewrite Hlen. unfold result1. rewrite assign_entries_length, length_map.
      simpl. lia.
    + intros i key. rewrite Hget. unfold result1.
      cbn [get_prop]. destruct (String.eqb k key) eqn:E.
      * apply String.eqb_eq in E. subst key.
        assert (Hnone : get_prop k rest = None).
        { apply get_prop_None. exact Hnotin. }
        rewrite Hnone, assign_entries_get by assumption.
        rewrite String.eqb_refl. unfold segment_cell.
        destruct (split_on ","%char s !! i); reflexivity.
      * assert (Hother : row_get
                  (assign_entries k
                     (map (fun seg => VPrim (PStr seg)) (split_on ","%char s))
                     result) i key = row_get result i key).
        { rewrite assign_entries_get by assumption. now rewrite E. }
        rewrite Hother. reflexivity.
Qed.

Lemma get_prop_of_In (columns : list (string * string)) (key s : string) :
  List.NoDup (map fst columns) -> In (key, s) columns -> get_prop key columns = Some s.
Proof.
  induction columns as [|[k x] rest IH]; intros Hnodup Hin; [destruct Hin|].
  inversion Hnodup as [|? ? Hnotin Hnodup']; subst. simpl.
  destruct Hin as [[= -> ->]|Hin].
  - now rewrite String.eqb_refl.
  - destruct (String.eqb k key) eqn:E; [|now apply IH].
    apply String.eqb_eq in E. subst k. exfalso. apply Hnotin.
    apply in_map_iff. now exists (key, s).
Qed.

(** *** From the flattened row to the relation sub-object *)

Lemma contains_char_app (c : ascii) (s1 s2 : string) :
  contains_char c (String.append s1 s2)
  = contains_char c s1 || contains_char c s2.
Proof.
  induction s1 as [|d rest IH]; simpl; [reflexivity|].
  now rewrite IH, orb_assoc.
Qed.

Lemma split_on_app_sep (sep : ascii) (s1 s2 : string) :
  contains_char sep s1 = false ->
  split_on sep (String.append s1 (String sep s2)) = s1 :: split_on sep s2.
Proof.
  induction s1 as [|d rest IH]; simpl.
  - intros _. now rewrite Ascii.eqb_refl.
  - intros Hc. apply orb_false_iff in Hc as [Hd Hrest].
    now rewrite Hd, (IH Hrest).
Qed.

Lemma plain_key_parts (k : string) :
  plain_key k = true ->
  contains_char "."%char k = false /\ unsafe_key k = false.
Proof.
  unfold plain_key. rewrite !andb_true_iff, !negb_true_iff. tauto.
Qed.

Lemma split_alias (table c : string) :
  plain_key table = true -> plain_key c = true ->
  split_on "."%char (alias table c) = [table; c].
Proof.
  intros Ht Hc. apply plain_key_parts in Ht as [Ht _].
  apply plain_key_parts in Hc as [Hc _].
  unfold alias.
  rewrite (split_on_app_sep _ _ _ Ht), (split_on_no_sep _ _ Hc). reflexivity.
Qed.

Lemma keys_set_prop {V} (key : string) (v : V) (props : list (string * V))
    (k : string) :
  In k (keys (set_prop key v props)) -> k = key \/ In k (keys props).
Proof.
  induction props as [|[k' x] rest IH]; simpl.
  - intros [<-|[]]. now left.
  - destruct (String.eqb k' key) eqn:E; simpl.
    + tauto.
    + intros [<-|Hin]; [tauto|]. destruct (IH Hin); tauto.
Qed.

Lemma set_prop_twice {V} (key : string) (v v' : V) (props : list (string * V)) :
  set_prop key v' (set_prop key v props) = set_prop key v' props.
Proof.
  induction props as [|[k x] rest IH]; simpl.
  - now rewrite String.eqb_refl.
  - destruct (String.eqb k key) eqn:E; simpl; rewrite E; [reflexivity|].
    now rewrite IH.
Qed.

Lemma set_prop_fresh {V} (key : string) (v : V) (props : list (string * V)) :
  ~ In key (keys props) -> set_prop key v props = props ++ [(key, v)].
Proof.
  induction props as [|[k x] rest IH]; simpl; [reflexivity|].
  intros Hnotin. destruct (String.eqb k key) eqn:E.
  - apply String.eqb_eq in E. tauto.
  - rewrite IH by tauto. reflexivity.
Qed.

Lemma has_prop_false {V} (key : string) (props : list (string * V)) :
  ~ In key (keys props) -> has_prop key props = false.
Proof.
  intros Hnotin. unfold has_prop.
  now rewrite (proj2 (get_prop_None key props) Hnotin).
Qed.

(** The own columns of a row: plain names, assigned as they are. *)
Lemma collect_own_columns (own : raw_row) (model : list (string * value)) :
  Forall (fun k => plain_key k = true) (map fst own) ->
  forall k, In k (keys (fold_left assign_column own model)) ->
            In k (keys model) \/ In k (map fst own).
Proof.
  revert model. induction own as [|[key v] rest IH]; intros model Hplain k;
    simpl; [tauto|].
  inversion Hplain as [|? ? Hkey Hrest]; subst. intros Hin.
  destruct (IH _ Hrest k Hin) as [Hk|Hk]; [|tauto].
  unfold assign_column in Hk.
  destruct (plain_key_parts key Hkey) as [Hdot Hsafe].
  rewrite (split_on_no_sep _ _ Hdot) in Hk. simpl in Hk.
  unfold lodash_set_props, cast_path in Hk.
  assert (Hset : base_set (if has_prop key model then [key]
                           else split_on "."%char key) (VPrim v) model
                 = set_prop key (VPrim v) model).
  { destruct (has_prop key model); [|rewrite (split_on_no_sep _ _ Hdot)];
      simpl; now rewrite Hsafe. }
  rewrite Hset in Hk. apply keys_set_prop in Hk as [->|Hk]; [|now left].
  right. now left.
Qed.

Lemma string_columns_app (cs1 cs2 : list (string * string)) :
  string_columns (cs1 ++ cs2) = string_columns cs1 ++ string_columns cs2.
Proof. unfold string_columns. apply map_app. Qed.

Lemma keys_string_columns (cs : list (string * string)) :
  keys (string_columns cs) = map fst cs.
Proof.
  unfold keys, string_columns. rewrite map_map. apply map_ext.
  now intros [c s].
Qed.

(** The columns of a relation are gathered, in row order, in one object
    under the relation's table name. *)
Lemma collect_relation_columns (table : string) (base : list (string * value))
    (columns : list (string * string)) :
  plain_key table = true ->
  (forall k, In k (keys base) -> contains_char "."%char k = false) ->
  ~ In table (keys base) ->
  List.NoDup (map fst columns) ->
  Forall (fun k => plain_key k = true) (map fst columns) ->
  Forall (fun s => s <> "") (map snd columns) ->
  fold_left assign_column (relation_columns table columns) base
  = gathered table base columns.
Proof.
  intros Htable Hbase Hfresh.
  destruct (plain_key_parts table Htable) as [Htdot Htsafe].
  assert (Hstep : forall done c s,
            plain_key c = true -> s <> "" -> ~ In c (map fst done) ->
            assign_column (gathered table base done) (alias table c, PStr s)
            = gathered table base (done ++ [(c, s)])).
  { intros done c s Hc Hs Hnotin. unfold assign_column.
    rewrite (split_alias table c Htable Hc). cbn [lookup list_lookup].
    assert (Htruthy : truthy_prim (PStr s) = true).
    { simpl. apply negb_true_iff. now apply String.eqb_neq. }
    rewrite Htruthy, andb_false_r.
    unfold lodash_set_props, cast_path.
    assert (Hnokey : forall model : list (string * value),
              (forall k, In k (keys model) -> contains_char "."%char k = false) ->
              has_prop (alias table c) model = false).
    { intros model Hmodel. apply has_prop_false. intros Hin.
      apply Hmodel in Hin. unfold alias in Hin.
      rewrite contains_char_app in Hin. simpl in Hin.
      rewrite orb_true_r in Hin. discriminate. }
    destruct (plain_key_parts c Hc) as [_ Hcsafe].
    destruct done as [|d done']; cbn [gathered app].
    - rewrite (Hnokey base Hbase), (split_alias table c Htable Hc).
      cbn [base_set]. rewrite Htsafe, Hcsafe.
      rewrite (proj2 (get_prop_None table base) Hfresh). reflexivity.
    - rewrite Hnokey, (split_alias table c Htable Hc).
      + cbn [base_set]. rewrite Htsafe, Hcsafe, get_set_prop_eq.
        rewrite set_prop_twice. f_equal. f_equal.
        rewrite set_prop_fresh by (now rewrite keys_string_columns).
        change (d :: done' ++ [(c, s)]) with ((d :: done') ++ [(c, s)]).
        now rewrite string_columns_app.
      + intros k Hk. apply keys_set_prop in Hk as [->|Hk];
          [exact Htdot | now apply Hbase]. }
  intros Hnodup Hplain Hvalues.
  assert (Hgen : forall cs done,
            List.NoDup (map fst (done ++ cs)) ->
            Forall (fun k => plain_key k = true) (map fst cs) ->
            Forall (fun s => s <> "") (map snd cs) ->
            fold_left assign_column (relation_columns table cs)
                      (gathered table base done)
            = gathered table base (done ++ cs)).
  { induction cs as [|[c s] rest IH]; intros done Hnd Hpl Hvs.
    - now rewrite app_nil_r.
    - inversion Hpl as [|? ? Hc Hpl']; inversion Hvs as [|? ? Hs Hvs']; subst.
      cbn [relation_columns map fold_left]. fold (relation_columns table rest).
      rewrite Hstep; [|exact Hc | exact Hs|].
      + rewrite (IH (done ++ [(c, s)])); [| |exact Hpl' | exact Hvs'].
        * now rewrite <- app_assoc.
        * now rewrite <- app_assoc.
      + rewrite map_app in Hnd. simpl in Hnd.
        apply List.NoDup_remove_2 in Hnd. intros Hin. apply Hnd.
        apply in_or_app. now left. }
  exact (Hgen columns [] Hnodup Hplain Hvalues).
Qed.

Lemma unflatten_relations_cons (k : string) (relation : Relationship)
    (rest : list (string * Relationship)) (model model1 : list (string * value)) :
  unflatten_relation model relation = Ok model1 ->
  unflatten_relations ((k, relation) :: rest) model
  = unflatten_relations rest model1.
Proof. intros Hstep. unfold unflatten_relations. simpl. now rewrite Hstep. Qed.

(** Every relation's entry of the mapped row is its sub-object,
    un-flattened. *)
Lemma unflatten_relations_run (rels : list (string * Relationship))
    (model0 : list (string * value)) :
  List.NoDup (map (fun e => tableName_of (snd e)) rels) ->
  (forall e, In e rels ->
     exists rows,
       parseRelationCollection (relation_sub_object model0 (snd e)) = Ok rows) ->
  exists modelF,
    unflatten_relations rels model0 = Ok modelF
    /\ (forall e rows,
          In e rels ->
          parseRelationCollection (relation_sub_object model0 (snd e)) = Ok rows ->
          get_prop (tableName_of (snd e)) modelF = Some (VArr rows))
    /\ (forall key,
          ~ In key (map (fun e => tableName_of (snd e)) rels) ->
          get_prop key modelF = get_prop key model0).
Proof.
  revert model0. induction rels as [|[k relation] rest IH];
    intros model0 Hnodup Hparse.
  - exists model0. split; [reflexivity|]. split; [intros e rows []|reflexivity].
  - inversion Hnodup as [|? ? Hnotin Hnodup']; subst.
    destruct (Hparse (k, relation) (or_introl eq_refl)) as [rows0 Hrows0].
    simpl in Hrows0, Hnotin.
    set (model1 := set_prop (tableName_of relation) (VArr rows0) model0).
    assert (Hstep : unflatten_relation model0 relation = Ok model1).
    { unfold unflatten_relation. now rewrite Hrows0. }
    assert (Hsame : forall e, In e rest ->
              relation_sub_object model1 (snd e)
              = relation_sub_object model0 (snd e)).
    { intros e He. unfold relation_sub_object, model1.
      rewrite get_set_prop_ne; [reflexivity|]. intros Heq. apply Hnotin.
      rewrite Heq. now apply (in_map (fun e => tableName_of (snd e))). }
    destruct (IH model1 Hnodup') as (modelF & Hrun & Hfound & Hother).
    { intros e He. rewrite (Hsame e He). apply Hparse. now right. }
    exists modelF. split; [|split].
    + now rewrite (unflatten_relations_cons k relation rest model0 model1 Hstep).
    + intros e rows [<-|He] Hrows.
      * simpl in *. rewrite (Hother _ Hnotin). unfold model1.
        rewrite get_set_prop_eq. congruence.
      * apply Hfound; [exact He|]. now rewrite (Hsame e He).
    + intros key Hkey. simpl in Hkey. rewrite Hother by tauto.
      unfold model1. apply get_set_prop_ne. tauto.
Qed.

(** C1, as amended: the relation sub-columns
    [{"addr.city":"NY,LA", "addr.zip":"10001,90001"}] map to
    [addr = [{city:"NY", zip:"10001"}, {city:"LA", zip:"90001"}]]; for
    every relation sub-object of aggregated strings, with as many rows as
    the longest column has segments, row [i] holds for each column its
    [i]-th comma-split segment, [null] when that segment is the empty
    string, and no property at all when the column has no [i]-th
    segment; and for every declared relation, the entry of the mapped row
    under the relation's table name is the sub-object of its columns
    un-flattened in that way. *)
Theorem rawSQLToModel_unflattens_by_index :
  rawSQLToModel (Demo.residents (Demo.collaborators Demo.no_rows))
    [("addr.city", PStr "NY,LA"); ("addr.zip", PStr "10001,90001")]
  = Ok (VObj
          [("addr",
            VArr [VObj [("city", VPrim (PStr "NY")); ("zip", VPrim (PStr "10001"))];
                  VObj [("city", VPrim (PStr "LA")); ("zip", VPrim (PStr "90001"))]])])
  /\ (forall columns : list (string * string),
        List.NoDup (map fst columns) ->
        Forall (fun k => plain_key k = true) (map fst columns) ->
        exists rows,
          parseRelationCollection (VObj (string_columns columns)) = Ok rows
          /\ length rows = list_max (segment_counts columns)
          /\ forall i key s,
               In (key, s) columns -> i < length rows ->
               exists props,
                 rows !! i = Some (VObj props)
                 /\ get_prop key props
                    = match split_on ","%char s !! i with
                      | Some segment =>
                          Some (if String.eqb segment "" then VPrim PNull
                                else VPrim (PStr segment))
                      | None => None
                      end)
  /\ (forall (m : Model) (relation : Relationship) (own : raw_row)
             (columns : list (string * string)),
        In relation (map snd (relations m)) ->
        List.NoDup (relation_tables m) ->
        plain_key (tableName_of relation) = true ->
        Forall (fun k => plain_key k = true /\ ~ In k (relation_tables m))
               (map fst own) ->
        List.NoDup (map fst columns) ->
        Forall (fun k => plain_key k = true) (map fst columns) ->
        Forall (fun s => s <> "") (map snd columns) ->
        exists model rows,
          rawSQLToModel m
            (own ++ relation_columns (tableName_of relation) columns)
          = Ok (VObj model)
          /\ get_prop (tableName_of relation) model = Some (VArr rows)
          /\ parseRelationCollection (VObj (string_columns columns)) = Ok rows).
Proof.
  split; [reflexivity|].
  assert (Hsub : forall columns : list (string * string),
            List.NoDup (map fst columns) ->
            Forall (fun k => plain_key k = true) (map fst columns) ->
            exists rows,
              parseRelationCollection (VObj (string_columns columns)) = Ok rows
              /\ Forall is_plain_object rows
              /\ length rows = list_max (segment_counts columns)
              /\ forall i key, row_get rows i key
                               = match get_prop key columns with
                                 | Some s => segment_cell s i
                                 | None => None
                                 end).
  { intros columns Hnodup Hplain.
    destruct (reduce_string_columns parseRelationCollection columns Hnodup Hplain
                [] (List.Forall_nil _)) as (rows & Hrun & Hobj & Hlen & Hget).
    exists rows. split; [exact Hrun|]. split; [exact Hobj|].
    split; [exact Hlen|]. intros i key. rewrite Hget.
    destruct (get_prop key columns) as [s|]; [|reflexivity].
    now destruct (segment_cell s i). }
  split.
  - intros columns Hnodup Hplain.
    destruct (Hsub columns Hnodup Hplain) as (rows & Hrun & Hobj & Hlen & Hget).
    exists rows. split; [exact Hrun|]. split; [exact Hlen|].
    intros i key s Hin Hi.
    destruct (lookup_lt_is_Some_2 rows i Hi) as [row Hrow].
    assert (Hprops : is_plain_object row).
    { rewrite Forall_forall in Hobj. apply Hobj.
      eapply list_elem_of_lookup_2. exact Hrow. }
    destruct Hprops as [props ->]. exists props. split; [exact Hrow|].
    specialize (Hget i key). unfold row_get in Hget. rewrite Hrow in Hget.
    rewrite Hget, (get_prop_of_In columns key s Hnodup Hin). reflexivity.
  - intros m relation own columns Hrel Htables Htable Hown Hnodup Hplain Hvalues.
    destruct (Hsub columns Hnodup Hplain) as (rows & Hrows & _).
    set (table := tableName_of relation) in *.
    assert (Hin_tables : In table (relation_tables m)).
    { apply in_map_iff in Hrel as (e & <- & He). unfold relation_tables.
      now apply (in_map (fun e => tableName_of (snd e))). }
    assert (Hownkeys : forall k, In k (keys (collect_columns own)) ->
              plain_key k = true /\ ~ In k (relation_tables m)).
    { intros k Hk. unfold collect_columns in Hk.
      apply collect_own_columns in Hk as [[]|Hk].
      - rewrite List.Forall_forall in Hown. now apply Hown.
      - eapply Forall_impl; [exact Hown|]. now intros k' [Hk' _]. }
    assert (Hmodel0 : collect_columns (own ++ relation_columns table columns)
                      = gathered table (collect_columns own) columns).
    { unfold collect_columns at 1. rewrite fold_left_app.
      fold (collect_columns own). apply collect_relation_columns; try assumption.
      - intros k Hk. now apply plain_key_parts, Hownkeys.
      - intros Hk. now apply (Hownkeys table Hk). }
    assert (Hother : forall t', t' <> table -> In t' (relation_tables m) ->
              get_prop t' (gathered table (collect_columns own) columns) = None).
    { intros t' Hne Ht'.
      assert (Hnone : get_prop t' (collect_columns own) = None).
      { apply get_prop_None. intros Hk. now apply (Hownkeys t' Hk). }
      unfold gathered. destruct columns; [exact Hnone|].
      rewrite get_set_prop_ne by congruence. exact Hnone. }
    assert (Hthis : parseRelationCollection
                      (relation_sub_object
                         (gathered table (collect_columns own) columns) relation)
                    = Ok rows).
    { unfold relation_sub_object. fold table. unfold gathered.
      destruct columns as [|col cols].
      - assert (Hnone : get_prop table (collect_columns own) = None).
        { apply get_prop_None. intros Hk. now apply (Hownkeys table Hk). }
        rewrite Hnone. exact Hrows.
      - rewrite get_set_prop_eq. exact Hrows. }
    destruct (unflatten_relations_run (relations m)
                (gathered table (collect_columns own) columns) Htables)
      as (modelF & Hrun & Hfound & _).
    { intros e He. destruct (string_dec (tableName_of (snd e)) table) as [Heq|Hne].
      - exists rows. unfold relation_sub_object in *. fold table in Hthis.
        rewrite Heq. exact Hthis.
      - exists []. unfold relation_sub_object. rewrite Hother; [reflexivity | exact Hne|].
        unfold relation_tables. now apply (in_map (fun e => tableName_of (snd e))). }
    exists modelF, rows. split; [|split; [|exact Hrows]].
    + unfold rawSQLToModel. now rewrite Hmodel0, Hrun.
    + apply in_map_iff in Hrel as (e & He & Hin). subst relation.
      apply (Hfound e rows Hin Hthis).
Qed.

(** C1, witness: the [city] and [zip] columns of the example, as a
    sub-object and inside the flattened row
    [{id: 1, "addr.city": "NY,LA", "addr.zip": "10001,90001"}]. *)
Lemma rawSQLToModel_unflattens_by_index_witness :
  (exists rows,
     parseRelationCollection
       (VObj (string_columns [("city", "NY,LA"); ("zip", "10001,90001")])) = Ok rows
     /\ length rows = 2
     /\ exists props,
          rows !! 1 = Some (VObj props)
          /\ get_prop "zip" props = Some (VPrim (PStr "90001")))
  /\ (exists model rows,
        rawSQLToModel (Demo.residents (Demo.collaborators Demo.no_rows))
          ([("id", PNum 1)]
             ++ relation_columns "addr" [("city", "NY,LA"); ("zip", "10001,90001")])
        = Ok (VObj model)
        /\ get_prop "addr" model = Some (VArr rows)
        /\ parseRelationCollection
             (VObj (string_columns [("city", "NY,LA"); ("zip", "10001,90001")]))
           = Ok rows).
Proof.
  destruct rawSQLToModel_unflattens_by_index as (_ & Hgen & Hrow).
  split.
  - destruct (Hgen [("city", "NY,LA"); ("zip", "10001,90001")])
      as (rows & Hrun & Hlen & Hget).
    + repeat constructor; simpl; intuition discriminate.
    + repeat constructor.
    + exists rows. split; [exact Hrun|]. split; [exact Hlen|].
      destruct (Hget 1 "zip" "10001,90001") as (props & Hrow' & Hzip).
      * right. now left.
      * rewrite Hlen. simpl. lia.
      * exists props. split; [exact Hrow' | exact Hzip].
  - apply (Hrow (Demo.residents (Demo.collaborators Demo.no_rows)) Demo.addr
             [("id", PNum 1)] [("city", "NY,LA"); ("zip", "10001,90001")]).
    + left. reflexivity.
    + repeat constructor. simpl. tauto.
    + reflexivity.
    + repeat constructor. simpl. intuition discriminate.
    + repeat constructor; simpl; intuition discriminate.
    + repeat constructor.
    + repeat constructor; discriminate.
Defined.

(** C1, counterexample to the claim as stated: with
    [{city:"NY,LA", zip:"10001"}] the second row has no [zip] property at
    all, where the claim has [null] for a missing segment. *)
Lemma parseRelationCollection_missing_segment_not_null :
  parseRelationCollection
    (VObj (string_columns [("city", "NY,LA"); ("zip", "10001")]))
  = Ok [VObj [("city", VPrim (PStr "NY")); ("zip", VPrim (PStr "10001"))];
        VObj [("city", VPrim (PStr "LA"))]]
  /\ split_on ","%char "10001" !! 1 = None
  /\ row_get [VObj [("city", VPrim (PStr "NY")); ("zip", VPrim (PStr "10001"))];
              VObj [("city", VPrim (PStr "LA"))]] 1 "zip"
     <> Some (VPrim PNull).
Proof.
  split; [reflexivity|]. split; [reflexivity|]. discriminate.
Qed.

(** ** The monad *)

Section MonadFacts.
Context {A B : Type}.

Lemma bind_run (c : M A) (k : A -> M B) (w : world) :
  bind c k w = match c w with
               | (Ok a, w') => k a w'
               | (Throw e, w') => (Throw e, w')
               end.
Proof. reflexivity. Qed.

Lemma bind_ok_inv (c : M A) (k : A -> M B) (w w' : world) (b : B) :
  bind c k w = (Ok b, w') ->
  exists a w1, c w = (Ok a, w1) /\ k a w1 = (Ok b, w').
Proof.
  unfold bind. destruct (c w) as [[a|e] w1]; intros Hrun.
  - now exists a, w1.
  - discriminate.
Qed.

Lemma bind_throw_inv (c : M A) (k : A -> M B) (w w' : world) (e : error) :
  bind c k w = (Throw e, w') ->
  c w = (Throw e, w')
  \/ exists a w1, c w = (Ok a, w1) /\ k a w1 = (Throw e, w').
Proof.
  unfold bind. destruct (c w) as [[a|e'] w1]; intros Hrun.
  - right. now exists a, w1.
  - left. now inversion Hrun.
Qed.

Lemma keeps_heap_bind (c : M A) (k : A -> M B) :
  keeps_heap c -> (forall a, keeps_heap (k a)) -> keeps_heap (bind c k).
Proof.
  intros Hc Hk w. unfold bind. specialize (Hc w).
  destruct (c w) as [[a|e] w1]; simpl in *.
  - now rewrite Hk.
  - exact Hc.
Qed.

Lemma keeps_store_bind (c : M A) (k : A -> M B) :
  keeps_store c -> (forall a, keeps_store (k a)) -> keeps_store (bind c k).
Proof.
  intros Hc Hk w. unfold bind. specialize (Hc w).
  destruct (c w) as [[a|e] w1]; simpl in *.
  - destruct (Hk a w1) as [-> ->]. exact Hc.
  - exact Hc.
Qed.

Lemma keeps_heap_ret (a : A) : keeps_heap (ret a).
Proof. now intros w. Qed.

Lemma keeps_store_ret (a : A) : keeps_store (ret a).
Proof. now intros w. Qed.

Lemma keeps_heap_throw (e : error) : keeps_heap (@throw A e).
Proof. now intros w. Qed.

Lemma keeps_store_throw (e : error) : keeps_store (@throw A e).
Proof. now intros w. Qed.

Lemma keeps_heap_lift (r : outcome A) : keeps_heap (lift r).
Proof. now intros w. Qed.

Lemma keeps_store_lift (r : outcome A) : keeps_store (lift r).
Proof. now intros w. Qed.

Lemma keeps_heap_attempt (c : M A) : keeps_heap c -> keeps_heap (attempt c).
Proof.
  intros Hc w. unfold attempt. specialize (Hc w). now destruct (c w).
Qed.

Lemma keeps_store_attempt (c : M A) : keeps_store c -> keeps_store (attempt c).
Proof.
  intros Hc w. unfold attempt. specialize (Hc w). now destruct (c w).
Qed.

End MonadFacts.

Lemma keeps_heap_forEach {A} (f : A -> M unit) (l : list A) :
  (forall x, keeps_heap (f x)) -> keeps_heap (forEach f l).
Proof.
  intros Hf. induction l as [|x rest IH]; simpl.
  - apply keeps_heap_ret.
  - apply keeps_heap_bind; [apply Hf | intros _; exact IH].
Qed.

Lemma keeps_store_forEach {A} (f : A -> M unit) (l : list A) :
  (forall x, keeps_store (f x)) -> keeps_store (forEach f l).
Proof.
  intros Hf. induction l as [|x rest IH]; simpl.
  - apply keeps_store_ret.
  - apply keeps_store_bind; [apply Hf | intros _; exact IH].
Qed.

Lemma keeps_heap_mapM {A B} (f : A -> M B) (l : list A) :
  (forall x, keeps_heap (f x)) -> keeps_heap (mapM f l).
Proof.
  intros Hf. induction l as [|x rest IH]; simpl.
  - apply keeps_heap_ret.
  - apply keeps_heap_bind; [apply Hf | intros y].
    apply keeps_heap_bind; [exact IH | intros ys; apply keeps_heap_ret].
Qed.

Lemma keeps_store_mapM {A B} (f : A -> M B) (l : list A) :
  (forall x, keeps_store (f x)) -> keeps_store (mapM f l).
Proof.
  intros Hf. induction l as [|x rest IH]; simpl.
  - apply keeps_store_ret.
  - apply keeps_store_bind; [apply Hf | intros y].
    apply keeps_store_bind; [exact IH | intros ys; apply keeps_store_ret].
Qed.

Lemma keeps_heap_detached (c : M unit) : keeps_heap c -> keeps_heap (detached c).
Proof. intros Hc w. apply Hc. Qed.

Lemma keeps_store_detached (c : M unit) : keeps_store c -> keeps_store (detached c).
Proof. intros Hc w. apply Hc. Qed.

Lemma keeps_store_the_heap : keeps_store the_heap.
Proof. now intros w. Qed.

Lemma keeps_heap_the_heap : keeps_heap the_heap.
Proof. now intros w. Qed.

Lemma keeps_store_put_heap (h : heap) : keeps_store (put_heap h).
Proof. now intros w. Qed.

Lemma keeps_store_alloc (c : cell) : keeps_store (alloc c).
Proof. now intros w. Qed.

Create HintDb frame.

#[local] Hint Resolve keeps_heap_ret keeps_heap_throw keeps_heap_lift
  keeps_heap_the_heap keeps_store_ret keeps_store_throw keeps_store_lift
  keeps_store_the_heap keeps_store_put_heap keeps_store_alloc : frame.

(** Decompose a frame goal along the structure of the computation. *)
Ltac frame_step :=
  lazymatch goal with
  | |- forall _, _ => intros
  | |- keeps_heap (bind _ _) => apply keeps_heap_bind
  | |- keeps_store (bind _ _) => apply keeps_store_bind
  | |- keeps_heap (attempt _) => apply keeps_heap_attempt
  | |- keeps_store (attempt _) => apply keeps_store_attempt
  | |- keeps_heap (detached _) => apply keeps_heap_detached
  | |- keeps_store (detached _) => apply keeps_store_detached
  | |- keeps_heap (forEach _ _) => apply keeps_heap_forEach
  | |- keeps_store (forEach _ _) => apply keeps_store_forEach
  | |- keeps_heap (mapM _ _) => apply keeps_heap_mapM
  | |- keeps_store (mapM _ _) => apply keeps_store_mapM
  | |- keeps_heap ?c =>
      first [ solve [auto with frame]
            | match c with
              | context [match ?x with _ => _ end] => destruct x
              end ]
  | |- keeps_store ?c =>
      first [ solve [auto with frame]
            | match c with
              | context [match ?x with _ => _ end] => destruct x
              end ]
  end.

Ltac frame := repeat frame_step.

(** ** What the CRUD methods leave alone *)

Section CrudFrames.
Context `{Collaborators}.

Lemma runQuery_run (query : stmt) (w : world) :
  w_heap (snd (runQuery query w)) = w_heap w
  /\ w_log (snd (runQuery query w)) = w_log w ++ [query]
  /\ match fault query (w_tables w) with
     | Some what =>
         fst (runQuery query w) = Throw (ExecutionFailure what)
         /\ w_tables (snd (runQuery query w)) = w_tables w
     | None =>
         fst (runQuery query w) = Ok (answer query (w_tables w))
         /\ w_tables (snd (runQuery query w)) = run_write query (w_tables w)
     end.
Proof.
  unfold runQuery. destruct (fault query (w_tables w)); simpl; auto.
Qed.

Lemma keeps_heap_runQuery (query : stmt) : keeps_heap (runQuery query).
Proof. intros w. apply runQuery_run. Qed.

Lemma keeps_heap_validate (relation : Relationship) (data : val) :
  keeps_heap (validate relation data).
Proof. unfold validate. frame. Qed.

Lemma keeps_store_validate (relation : Relationship) (data : val) :
  keeps_store (validate relation data).
Proof. unfold validate. frame. Qed.

Lemma keeps_heap_relation_named (m : Model) (relationName : string) :
  keeps_heap (relation_named m relationName).
Proof. unfold relation_named. frame. Qed.

Lemma keeps_store_relation_named (m : Model) (relationName : string) :
  keeps_store (relation_named m relationName).
Proof. unfold relation_named. frame. Qed.

Lemma keeps_heap_get (m : Model) (id : val) : keeps_heap (get m id).
Proof. unfold get. frame. apply keeps_heap_runQuery. Qed.

Lemma keeps_heap_getLast (m : Model) : keeps_heap (getLast m).
Proof. unfold getLast. frame. apply keeps_heap_runQuery. Qed.

Lemma keeps_heap_assignRelationData (m : Model) (relation : Relationship)
    (newData : val) :
  keeps_heap (assignRelationData m relation newData).
Proof. unfold assignRelationData. frame. apply keeps_heap_runQuery. Qed.

Lemma keeps_store_getValidFields (m : Model) (data : val) :
  keeps_store (getValidFields m data).
Proof. unfold getValidFields. frame. Qed.

Lemma keeps_heap_getValidFields (m : Model) (data : val) :
  keeps_heap (getValidFields m data).
Proof. unfold getValidFields. frame. Qed.

Lemma keeps_store_default_object (data : val) :
  keeps_store (default_object data).
Proof. unfold default_object. frame. Qed.

Lemma keeps_store_array_items (array : val) : keeps_store (array_items array).
Proof. unfold array_items. frame. Qed.

Lemma keeps_heap_array_items (array : val) : keeps_heap (array_items array).
Proof. unfold array_items. frame. Qed.

Lemma keeps_store_signRelationsDataWithSeniorId (m : Model)
    (data : list relation_update) (id : val) :
  keeps_store (signRelationsDataWithSeniorId m data id).
Proof.
  unfold signRelationsDataWithSeniorId. frame.
  apply keeps_store_array_items.
Qed.

Lemma keeps_store_getRelationsToUpdate (m : Model) (data signingId : val) :
  keeps_store (getRelationsToUpdate m data signingId).
Proof.
  unfold getRelationsToUpdate. frame.
  apply keeps_store_signRelationsDataWithSeniorId.
Qed.
End CrudFrames.

#[local] Hint Resolve keeps_heap_runQuery keeps_heap_validate
  keeps_store_validate keeps_heap_relation_named keeps_store_relation_named
  keeps_heap_get keeps_heap_getLast keeps_heap_assignRelationData
  keeps_store_getValidFields keeps_heap_getValidFields
  keeps_store_default_object keeps_store_array_items keeps_heap_array_items
  keeps_store_signRelationsDataWithSeniorId
  keeps_store_getRelationsToUpdate : frame.

(** ** [delete] and [get] *)

Section DeleteGet.
Context `{Collaborators}.

(** C8: [delete(id)] hands the adapter exactly one statement, the DELETE
    on the entity's own table filtered on the primary key; the rows of
    every other table, so every link-table row that refers to [id], are
    as they were; and unless the driver fails the result is
    [{success: true}]. *)
Theorem delete_one_statement_no_cascade (m : Model) (id : val) (w : world) :
  w_log (snd (delete m id w)) = w_log w ++ [QDelete (tableName m) id]
  /\ (forall table, table <> tableName m ->
        rows_of table (w_tables (snd (delete m id w)))
        = rows_of table (w_tables w))
  /\ w_heap (snd (delete m id w)) = w_heap w
  /\ (fault (QDelete (tableName m) id) (w_tables w) = None ->
        fst (delete m id w) = Ok (VObj [("success", VPrim (PBool true))])).
Proof.
  unfold delete. rewrite bind_run.
  destruct (runQuery_run (QDelete (tableName m) id) w) as (Hheap & Hlog & Hrun).
  destruct (runQuery (QDelete (tableName m) id) w) as [[rows|e] w1];
    simpl in *; (split; [exact Hlog|]); (split; [|split; [exact Hheap|]]).
  - intros table Hne.
    destruct (fault (QDelete (tableName m) id) (w_tables w));
      destruct Hrun as [_ ->]; [reflexivity|].
    simpl. generalize (w_tables w). intros db. unfold rows_of.
    induction db as [|[t rows'] rest IH]; simpl; [reflexivity|].
    destruct (String.eqb t (tableName m)) eqn:E; simpl.
    + apply String.eqb_eq in E. subst t.
      destruct (String.eqb (tableName m) table) eqn:E'; [|reflexivity].
      apply String.eqb_eq in E'. congruence.
    + destruct (String.eqb t table); [reflexivity | exact IH].
  - reflexivity.
  - intros table Hne.
    destruct (fault (QDelete (tableName m) id) (w_tables w));
      destruct Hrun as [_ ->]; [reflexivity|].
    simpl. generalize (w_tables w). intros db. unfold rows_of.
    induction db as [|[t rows'] rest IH]; simpl; [reflexivity|].
    destruct (String.eqb t (tableName m)) eqn:E; simpl.
    + apply String.eqb_eq in E. subst t.
      destruct (String.eqb (tableName m) table) eqn:E'; [|reflexivity].
      apply String.eqb_eq in E'. congruence.
    + destruct (String.eqb t table); [reflexivity | exact IH].
  - intros Hok. rewrite Hok in Hrun. destruct Hrun as [Hrun _]. discriminate.
Qed.

Lemma mapM_lift_mapper (m : Model) (rows : list raw_row) (mapped : list value)
    (w : world) :
  Forall2 (fun rawOutput v => rawSQLToModel m rawOutput = Ok v) rows mapped ->
  mapM (fun rawOutput => lift (rawSQLToModel m rawOutput)) rows w
  = (Ok mapped, w).
Proof.
  induction 1 as [|rawOutput v rows' mapped' Hv _ IH]; simpl; [reflexivity|].
  rewrite bind_run. unfold lift at 1. rewrite Hv.
  rewrite bind_run, IH. reflexivity.
Qed.

(** C6, as amended: when the get statement is answered and every row
    maps, [get(id)] with a truthy [id] returns the first mapped object,
    or [undefined] when there is no row; with no [id], or with a falsy
    one ([0], the empty string, [null]), it returns the whole mapped
    sequence. *)
Theorem get_first_or_all (m : Model) (id : val) (w : world)
    (mapped : list value) :
  fault (QueryBuilder_get m (default_null id)) (w_tables w) = None ->
  Forall2 (fun rawOutput v => rawSQLToModel m rawOutput = Ok v)
          (answer (QueryBuilder_get m (default_null id)) (w_tables w)) mapped ->
  fst (get m id w)
  = Ok (if truthy_val id
        then match mapped with
             | first :: _ => first
             | [] => VPrim PUndefined
             end
        else VArr mapped).
Proof.
  intros Hfault Hmapped. unfold get. rewrite bind_run.
  destruct (runQuery_run (QueryBuilder_get m (default_null id)) w)
    as (_ & _ & Hrun).
  rewrite Hfault in Hrun. destruct Hrun as [Hrun _].
  destruct (runQuery (QueryBuilder_get m (default_null id)) w) as [r w1].
  simpl in Hrun. subst r.
  rewrite bind_run, (mapM_lift_mapper m _ mapped w1 Hmapped). simpl.
  assert (Htruthy : truthy_val (default_null id) = truthy_val id)
    by (destruct id as [[]|]; reflexivity).
  now rewrite Htruthy.
Qed.
End DeleteGet.

(** C8, witness: deleting user 1 leaves the [tags] rows in place. *)
Lemma delete_one_statement_no_cascade_witness :
  let C := Demo.collaborators Demo.no_rows in
  let w := Demo.world_of [] in
  let w' := snd (delete (Demo.users C) (Prim (PStr "1")) w) in
  w_log w' = [QDelete "users" (Prim (PStr "1"))]
  /\ rows_of "tags" (w_tables w') = rows_of "tags" Demo.store
  /\ fst (delete (Demo.users C) (Prim (PStr "1")) w)
     = Ok (VObj [("success", VPrim (PBool true))]).
Proof.
  intros C w w'.
  destruct (delete_one_statement_no_cascade (H := C) (Demo.users C)
              (Prim (PStr "1")) w) as (Hlog & Hrows & _ & Hok).
  split; [exact Hlog|]. split.
  - apply Hrows. discriminate.
  - apply Hok. reflexivity.
Defined.

(** C6, witness: with one stored user, [get("1")] is that user. *)
Lemma get_first_or_all_witness :
  let C := Demo.collaborators Demo.one_user in
  fst (get (Demo.users C) (Prim (PStr "1")) (Demo.world_of []))
  = Ok (VObj [("id", VPrim (PNum 1)); ("name", VPrim (PStr "Ann"));
              ("tags", VArr [])]).
Proof.
  intros C.
  apply (get_first_or_all (H := C) (Demo.users C) (Prim (PStr "1"))
           (Demo.world_of [])
           [VObj [("id", VPrim (PNum 1)); ("name", VPrim (PStr "Ann"));
                  ("tags", VArr [])]]).
  - reflexivity.
  - repeat constructor.
Defined.

(** C6, counterexample to the claim as stated: the id [0] is given, and
    [get(0)] returns the mapped sequence, not its first element. *)
Lemma get_zero_returns_sequence :
  let C := Demo.collaborators Demo.one_user in
  fst (get (Demo.users C) (Prim (PNum 0)) (Demo.world_of []))
  = Ok (VArr [VObj [("id", VPrim (PNum 1)); ("name", VPrim (PStr "Ann"));
                    ("tags", VArr [])]])
  /\ fst (get (Demo.users C) (Prim (PNum 0)) (Demo.world_of []))
     <> Ok (VObj [("id", VPrim (PNum 1)); ("name", VPrim (PStr "Ann"));
                  ("tags", VArr [])]).
Proof.
  split; [reflexivity | discriminate].
Qed.

(** ** The routes *)

Section RouteFacts.
Context `{Collaborators}.

(** C9, as amended: when the lookup of an [:id] route yields no object,
    GET answers 404 with the JSON body [{success:false, status:"Not
    found"}], while PUT and DELETE answer 404 through [sendStatus], whose
    body is the status text "Not Found"; and every error thrown by a CRUD
    method, validation failures included, is answered with 500 and the
    error's message as body. *)
Theorem handlers_not_found_and_errors (m : Model) (req : request) (w : world) :
  let id := Prim (PStr (params_id req)) in
  let not_found_json :=
    {| status := 404; contentType := "application/json";
       content := BJson (VObj [("success", VPrim (PBool false));
                               ("status", VPrim (PStr "Not found"))]) |} in
  let not_found_text :=
    {| status := 404; contentType := "text/plain";
       content := BText "Not Found" |} in
  let failure err :=
    {| status := 500; contentType := "text/html";
       content := BText (message err) |} in
  (forall target w1,
     get m id w = (Ok target, w1) -> truthy target = false ->
     get_handler m req w = (Ok not_found_json, w1)
     /\ put_handler m req w = (Ok not_found_text, w1)
     /\ delete_handler m req w = (Ok not_found_text, w1))
  /\ (forall err w1,
        get m id w = (Throw err, w1) ->
        get_handler m req w = (Ok (failure err), w1)
        /\ put_handler m req w = (Ok (failure err), w1)
        /\ delete_handler m req w = (Ok (failure err), w1))
  /\ (forall err w1,
        get m (Prim PUndefined) w = (Throw err, w1) ->
        get_collection_handler m req w = (Ok (failure err), w1))
  /\ (forall err w1,
        create m (req_body req) w = (Throw err, w1) ->
        post_handler m req w = (Ok (failure err), w1))
  /\ (forall target w1 err w2,
        get m id w = (Ok target, w1) -> truthy target = true ->
        (update m id (req_body req) w1 = (Throw err, w2) ->
         put_handler m req w = (Ok (failure err), w2))
        /\ (delete m id w1 = (Throw err, w2) ->
            delete_handler m req w = (Ok (failure err), w2))).
Proof.
  cbn zeta. split; [|split; [|split; [|split]]].
  - intros target w1 Hget Hfalsy. split; [|split].
    + unfold get_handler. rewrite bind_run. unfold attempt. rewrite Hget.
      now rewrite Hfalsy.
    + unfold put_handler. rewrite bind_run. unfold attempt.
      rewrite bind_run, Hget. now rewrite Hfalsy.
    + unfold delete_handler. rewrite bind_run. unfold attempt.
      rewrite bind_run, Hget. now rewrite Hfalsy.
  - intros err w1 Hget. split; [|split].
    + unfold get_handler. rewrite bind_run. unfold attempt. now rewrite Hget.
    + unfold put_handler. rewrite bind_run. unfold attempt. rewrite bind_run.
      now rewrite Hget.
    + unfold delete_handler. rewrite bind_run. unfold attempt.
      rewrite bind_run. now rewrite Hget.
  - intros err w1 Hget. unfold get_collection_handler. rewrite bind_run.
    unfold attempt. now rewrite Hget.
  - intros err w1 Hcreate. unfold post_handler. rewrite bind_run.
    unfold attempt. now rewrite Hcreate.
  - intros target w1 err w2 Hget Htruthy. split.
    + intros Hupdate. unfold put_handler. rewrite bind_run. unfold attempt.
      rewrite bind_run, Hget. rewrite Htruthy. cbn [negb].
      rewrite bind_run, Hupdate. reflexivity.
    + intros Hdelete. unfold delete_handler. rewrite bind_run. unfold attempt.
      rewrite bind_run, Hget. rewrite Htruthy. cbn [negb].
      rewrite bind_run, Hdelete. reflexivity.
Qed.
End RouteFacts.

(** C9, witness: no stored row answers the lookup of [/users/7]. *)
Lemma handlers_not_found_and_errors_witness :
  let C := Demo.collaborators Demo.no_rows in
  let req := {| params_id := "7"; req_body := Ref 0 |} in
  let w := Demo.world_of [Obj [("name", Prim (PStr "Bea"))]] in
  fst (get_handler (Demo.users C) req w)
  = Ok {| status := 404; contentType := "application/json";
          content := BJson (VObj [("success", VPrim (PBool false));
                                  ("status", VPrim (PStr "Not found"))]) |}
  /\ fst (delete_handler (Demo.users C) req w)
     = Ok {| status := 404; contentType := "text/plain";
             content := BText "Not Found" |}.
Proof.
  intros C req w.
  destruct (handlers_not_found_and_errors (H := C) (Demo.users C) req w)
    as (Hnone & _).
  destruct (Hnone (VPrim PUndefined)
              {| w_heap := w_heap w; w_tables := w_tables w;
                 w_log := [QGet "users" (Prim (PStr "7"))] |})
    as (Hget & _ & Hdelete); [reflexivity | reflexivity |].
  rewrite Hget, Hdelete. split; reflexivity.
Defined.

(** C9, counterexample to the claim as stated: the 404 of PUT carries the
    status text as its body; the body is not empty. *)
Lemma put_not_found_body_is_status_text :
  let C := Demo.collaborators Demo.no_rows in
  let req := {| params_id := "7"; req_body := Ref 0 |} in
  let w := Demo.world_of [Obj [("name", Prim (PStr "Bea"))]] in
  fst (put_handler (Demo.users C) req w)
  = Ok {| status := 404; contentType := "text/plain";
          content := BText "Not Found" |}
  /\ content {| status := 404; contentType := "text/plain";
                content := BText "Not Found" |} <> BEmpty.
Proof.
  split; [reflexivity | discriminate].
Qed.

(** ** Stamping the payload *)

Lemma set_prop_idem {V} (key : string) (v : V) (props : list (string * V)) :
  set_prop key v (set_prop key v props) = set_prop key v props.
Proof.
  induction props as [|[k x] rest IH]; simpl.
  - now rewrite String.eqb_refl.
  - destruct (String.eqb k key) eqn:E; simpl; rewrite E; [reflexivity|].
    now rewrite IH.
Qed.

Lemma map_cell_props_idem (key : string) (v : val) (c : cell) :
  map_cell_props (set_prop key v) (map_cell_props (set_prop key v) c)
  = map_cell_props (set_prop key v) c.
Proof. destruct c; simpl; now rewrite set_prop_idem. Qed.

Lemma heap_stamps_refl (key : string) (v : val) (h : heap) :
  heap_stamps key v h h.
Proof. split; [lia|]. intros l c Hl. exists c. auto. Qed.

Lemma heap_stamps_trans (key : string) (v : val) (h1 h2 h3 : heap) :
  heap_stamps key v h1 h2 -> heap_stamps key v h2 h3 -> heap_stamps key v h1 h3.
Proof.
  intros [Hlen12 H12] [Hlen23 H23]. split; [lia|].
  intros l c Hl. destruct (H12 l c Hl) as (c2 & Hl2 & Hc2).
  destruct (H23 l c2 Hl2) as (c3 & Hl3 & Hc3).
  exists c3. split; [exact Hl3|].
  destruct Hc2 as [->| ->], Hc3 as [->| ->]; auto.
  right. apply map_cell_props_idem.
Qed.

Lemma heap_stamps_alloc (key : string) (v : val) (h : heap) (c : cell) :
  heap_stamps key v h (h ++ [c]).
Proof.
  split; [rewrite length_app; lia|].
  intros l c0 Hl. exists c0. split; [|now left].
  now apply lookup_app_l_Some.
Qed.

Lemma heap_stamps_set (key : string) (v : val) (h : heap) (object : val) :
  heap_stamps key v h (heap_set h object key v).
Proof.
  destruct object as [p|x]; simpl; [apply heap_stamps_refl|].
  destruct (h !! x) as [c|] eqn:Hx; [|apply heap_stamps_refl].
  split; [now rewrite length_insert|].
  intros l c0 Hl. destruct (decide (l = x)) as [->|Hne].
  - rewrite Hx in Hl. injection Hl as <-.
    exists (map_cell_props (set_prop key v) c). split; [|now right].
    apply list_lookup_insert_eq. now apply lookup_lt_Some in Hx.
  - exists c0. split; [|now left]. now rewrite list_lookup_insert_ne.
Qed.

Lemma heap_stamps_array (key : string) (v : val) (h h' : heap) (array : val)
    (items : list val) :
  heap_stamps key v h h' -> array_at h array items -> array_at h' array items.
Proof.
  intros [_ Hst] (a & props & -> & Ha).
  destruct (Hst a _ Ha) as (c' & Ha' & [->| ->]).
  - now exists a, props.
  - now exists a, (set_prop key v props).
Qed.

Lemma heap_stamps_live (key : string) (v : val) (h h' : heap) (x : nat) :
  heap_stamps key v h h' -> is_Some (h !! x) -> is_Some (h' !! x).
Proof.
  intros [_ Hst] [c Hx]. destruct (Hst x c Hx) as (c' & Hx' & _). now exists c'.
Qed.

Lemma cell_props_stamped (key : string) (v : val) (c : cell) :
  get_prop key (cell_props (map_cell_props (set_prop key v) c)) = Some v.
Proof. destruct c; simpl; apply get_set_prop_eq. Qed.

Lemma cell_props_other (key key' : string) (v : val) (c : cell) :
  key <> key' ->
  get_prop key' (cell_props (map_cell_props (set_prop key v) c))
  = get_prop key' (cell_props c).
Proof. intros Hne. destruct c; simpl; now apply get_set_prop_ne. Qed.

Lemma heap_stamps_stamped (key : string) (v : val) (h h' : heap) (x : nat) :
  heap_stamps key v h h' -> stamped h key v x -> stamped h' key v x.
Proof.
  intros [_ Hst] (c & Hx & Hc). destruct (Hst x c Hx) as (c' & Hx' & [->| ->]).
  - now exists c.
  - eexists. split; [exact Hx'|]. apply cell_props_stamped.
Qed.

Lemma heap_stamps_other (key key' : string) (v : val) (h h' : heap) (x : nat)
    (c : cell) :
  key <> key' -> heap_stamps key v h h' -> h !! x = Some c ->
  exists c', h' !! x = Some c'
             /\ get_prop key' (cell_props c') = get_prop key' (cell_props c).
Proof.
  intros Hne [_ Hst] Hx. destruct (Hst x c Hx) as (c' & Hx' & [->| ->]).
  - now exists c.
  - eexists. split; [exact Hx'|]. now apply cell_props_other.
Qed.

Lemma heap_set_stamped (key : string) (v : val) (h : heap) (x : nat) :
  is_Some (h !! x) -> stamped (heap_set h (Ref x) key v) key v x.
Proof.
  intros [c Hx]. unfold heap_set. rewrite Hx.
  exists (map_cell_props (set_prop key v) c). split.
  - apply list_lookup_insert_eq. now apply lookup_lt_Some in Hx.
  - apply cell_props_stamped.
Qed.

Lemma stamp_entries_run (key : string) (id : val) (entries : list val)
    (w : world) :
  exists w',
    mapM (fun relationEntry =>
            let* h := the_heap in
            put_heap (heap_set h relationEntry key id) ;;; ret relationEntry)
         entries w
    = (Ok entries, w')
    /\ w_tables w' = w_tables w /\ w_log w' = w_log w
    /\ heap_stamps key id (w_heap w) (w_heap w')
    /\ rows_stamped (w_heap w) (w_heap w') key id entries.
Proof.
  revert w. induction entries as [|entry rest IH]; intros w.
  - exists w. split; [reflexivity|]. split; [reflexivity|].
    split; [reflexivity|]. split; [apply heap_stamps_refl|].
    intros x [].
  - set (w1 := {| w_heap := heap_set (w_heap w) entry key id;
                  w_tables := w_tables w; w_log := w_log w |}).
    destruct (IH w1) as (w' & Hrun & Htables & Hlog & Hst & Hrows).
    exists w'. cbn [mapM]. rewrite !bind_run. cbn [the_heap].
    rewrite !bind_run. cbn [put_heap ret]. fold w1. rewrite bind_run, Hrun.
    assert (Hst1 : heap_stamps key id (w_heap w) (w_heap w1))
      by apply heap_stamps_set.
    split; [reflexivity|]. split; [exact Htables|]. split; [exact Hlog|].
    split.
    + eapply heap_stamps_trans; [exact Hst1 | exact Hst].
    + intros x [Hx|Hx] Hlive.
      * subst entry. eapply heap_stamps_stamped; [exact Hst|].
        now apply heap_set_stamped.
      * apply Hrows; [exact Hx|]. eapply heap_stamps_live; [exact Hst1 | exact Hlive].
Qed.

Lemma array_items_run (h : heap) (array : val) (items : list val) (w : world) :
  array_at (w_heap w) array items -> array_items array w = (Ok items, w).
Proof.
  intros (a & props & -> & Ha). unfold array_items. rewrite bind_run.
  cbn [the_heap]. now rewrite Ha.
Qed.

Lemma array_at_unique (h : heap) (array : val) (items items' : list val) :
  array_at h array items -> array_at h array items' -> items = items'.
Proof.
  intros (a & props & -> & Ha) (a' & props' & [= <-] & Ha'). congruence.
Qed.

Lemma signRelationsDataWithSeniorId_run (m : Model)
    (data : list relation_update) (id : val) (w : world) :
  Forall (fun r => exists items, array_at (w_heap w) (relationData r) items)
         data ->
  exists out w',
    signRelationsDataWithSeniorId m data id w = (Ok out, w')
    /\ w_tables w' = w_tables w /\ w_log w' = w_log w
    /\ heap_stamps (stamp_key m) id (w_heap w) (w_heap w')
    /\ (forall r items,
          In r data -> array_at (w_heap w) (relationData r) items ->
          rows_stamped (w_heap w) (w_heap w') (stamp_key m) id items)
    /\ Forall2 (fun r r' =>
                  relationName r' = relationName r
                  /\ forall items,
                       array_at (w_heap w) (relationData r) items ->
                       array_at (w_heap w') (relationData r') items)
               data out.
Proof.
  revert w. induction data as [|r rest IH]; intros w Harrays.
  - exists [], w. split; [reflexivity|]. split; [reflexivity|].
    split; [reflexivity|]. split; [apply heap_stamps_refl|].
    split; [intros r items [] | constructor].
  - inversion Harrays as [|? ? [items Hitems] Hrest]; subst.
    unfold signRelationsDataWithSeniorId. cbn [mapM].
    rewrite bind_run. rewrite bind_run.
    rewrite (array_items_run (w_heap w) _ items w Hitems).
    destruct (stamp_entries_run (stamp_key m) id items w)
      as (w1 & Hstamp & Htables1 & Hlog1 & Hst1 & Hrows1).
    rewrite bind_run, Hstamp. rewrite bind_run. cbn [alloc ret].
    set (w2 := {| w_heap := w_heap w1 ++ [Arr items []];
                  w_tables := w_tables w1; w_log := w_log w1 |}).
    assert (Hst2 : heap_stamps (stamp_key m) id (w_heap w) (w_heap w2)).
    { eapply heap_stamps_trans; [exact Hst1 | apply heap_stamps_alloc]. }
    assert (Harrays2 : Forall (fun r => exists items,
                                 array_at (w_heap w2) (relationData r) items) rest).
    { eapply Forall_impl; [exact Hrest|]. intros r' [items' Hr'].
      exists items'. eapply heap_stamps_array; [exact Hst2 | exact Hr']. }
    destruct (IH w2 Harrays2) as (out & w' & Hrun & Htables & Hlog & Hst & Hrows & Hout).
    fold (signRelationsDataWithSeniorId m rest id). rewrite bind_run, Hrun.
    eexists _, w'. split; [reflexivity|].
    split; [now rewrite Htables|]. split; [now rewrite Hlog|].
    assert (Hst' : heap_stamps (stamp_key m) id (w_heap w) (w_heap w'))
      by (eapply heap_stamps_trans; [exact Hst2 | exact Hst]).
    split; [exact Hst'|]. split.
    + intros r' items' [<-|Hin] Hitems'.
      * rewrite (array_at_unique _ _ _ _ Hitems' Hitems).
        intros x Hx Hlive.
        eapply heap_stamps_stamped;
          [eapply heap_stamps_trans; [apply heap_stamps_alloc | exact Hst]|].
        now apply Hrows1.
      * intros x Hx Hlive. eapply (Hrows r' items' Hin).
        -- eapply heap_stamps_array; [exact Hst2 | exact Hitems'].
        -- exact Hx.
        -- eapply heap_stamps_live; [exact Hst2 | exact Hlive].
    + constructor.
      * split; [reflexivity|]. intros items' Hitems'.
        rewrite (array_at_unique _ _ _ _ Hitems' Hitems).
        eapply heap_stamps_array; [exact Hst|].
        exists (length (w_heap w1)), []. split; [reflexivity|].
        apply list_lookup_middle. reflexivity.
      * eapply Forall2_impl; [exact Hout|]. intros r1 r1' [Hname Harr].
        split; [exact Hname|]. intros items' Hitems'. apply Harr.
        eapply heap_stamps_array; [exact Hst2 | exact Hitems'].
Qed.

Lemma getRelationsToUpdate_run (m : Model) (data signingId : val) (w : world) :
  is_nullish data = false ->
  (forall k, In k (relation_keys m (w_heap w) data) ->
     exists items, array_at (w_heap w) (read_prop (w_heap w) data k) items) ->
  exists out w',
    getRelationsToUpdate m data signingId w = (Ok out, w')
    /\ w_tables w' = w_tables w /\ w_log w' = w_log w
    /\ heap_stamps (stamp_key m) (default_null signingId) (w_heap w) (w_heap w')
    /\ (forall k items,
          In k (relation_keys m (w_heap w) data) ->
          array_at (w_heap w) (read_prop (w_heap w) data k) items ->
          rows_stamped (w_heap w) (w_heap w') (stamp_key m)
                       (default_null signingId) items)
    /\ Forall2 (fun k r' =>
                  relationName r' = k
                  /\ forall items,
                       array_at (w_heap w) (read_prop (w_heap w) data k) items ->
                       array_at (w_heap w') (relationData r') items)
               (relation_keys m (w_heap w) data) out.
Proof.
  intros Hdata Harrays. unfold getRelationsToUpdate.
  rewrite bind_run. cbn [the_heap]. rewrite Hdata.
  fold (relation_keys m (w_heap w) data).
  set (mk := fun relationName =>
               {| relationName := relationName;
                  relationData := read_prop (w_heap w) data relationName |}).
  destruct (signRelationsDataWithSeniorId_run m
              (map mk (relation_keys m (w_heap w) data))
              (default_null signingId) w)
    as (out & w' & Hrun & Htables & Hlog & Hst & Hrows & Hout).
  { apply List.Forall_forall. intros r Hr. apply in_map_iff in Hr as (k & <- & Hk).
    apply Harrays. exact Hk. }
  exists out, w'. split; [exact Hrun|]. split; [exact Htables|].
  split; [exact Hlog|]. split; [exact Hst|]. split.
  - intros k items Hk Hitems. apply (Hrows (mk k) items); [|exact Hitems].
    apply in_map. exact Hk.
  - clear -Hout. revert out Hout.
    induction (relation_keys m (w_heap w) data) as [|k ks IH]; intros out Hout.
    + inversion Hout. constructor.
    + inversion Hout as [|? r' ? out' Hr' Hrest]; subst. constructor.
      * exact Hr'.
      * apply IH. exact Hrest.
Qed.

Lemma stamp_key_not_id (m : Model) : stamp_key m <> "id".
Proof. unfold stamp_key. destruct (name m); discriminate. Qed.

Lemma keys_delete_prop {V} (key k : string) (props : list (string * V)) :
  In k (keys (delete_prop key props)) -> In k (keys props) /\ k <> key.
Proof.
  induction props as [|[k' x] rest IH]; simpl; [tauto|].
  destruct (String.eqb k' key) eqn:E; simpl.
  - intros Hin. destruct (IH Hin). tauto.
  - apply String.eqb_neq in E. intros [<-|Hin]; [tauto|].
    destruct (IH Hin). tauto.
Qed.

Lemma keys_delete_prop_2 {V} (key k : string) (props : list (string * V)) :
  In k (keys props) -> k <> key -> In k (keys (delete_prop key props)).
Proof.
  induction props as [|[k' x] rest IH]; simpl; [tauto|].
  intros [<-|Hin] Hne.
  - destruct (String.eqb k' key) eqn:E; [|now left].
    apply String.eqb_eq in E. contradiction.
  - destruct (String.eqb k' key); [|right]; now apply IH.
Qed.

Lemma Forall2_In_l {X Y} (R : X -> Y -> Prop) (xs : list X) (ys : list Y) (x : X) :
  Forall2 R xs ys -> In x xs -> exists y, In y ys /\ R x y.
Proof.
  induction 1 as [|x' y' xs' ys' Hxy _ IH]; intros Hin; [destruct Hin|].
  destruct Hin as [<-|Hin].
  - exists y'. split; [now left | exact Hxy].
  - destruct (IH Hin) as (y & Hy & Hr). exists y. split; [now right | exact Hr].
Qed.

Section StagesOfCreateAndUpdate.
Context `{Collaborators}.

Lemma create_stages (m : Model) (data : val) :
  create m data
  = (let* data := default_object data in
     let* fieldsToUpdate := getValidFields m data in
     let missingRequiredFields :=
       List.filter (fun field => negb (includes field (keys fieldsToUpdate)))
                   (requiredFields m) in
     let* relationsToInsert := getRelationsToUpdate m data (Prim PNull) in
     forEach (create_validate m) relationsToInsert ;;;
     if (0 <? length missingRequiredFields)%nat then
       throw (InvalidModelInputError missingRequiredFields)
     else create_write m fieldsToUpdate relationsToInsert).
Proof. reflexivity. Qed.

Lemma update_stages (m : Model) (id data : val) :
  update m id data
  = (let* data := default_object data in
     (if is_nullish data then
        throw (TypeError "Cannot convert undefined or null to object")
      else
        let* h := the_heap in put_heap (heap_delete h data "id")) ;;;
     let* fieldsToUpdate := getValidFields m data in
     let* relationsToUpdate := getRelationsToUpdate m data id in
     forEach (update_validate m) relationsToUpdate ;;;
     update_write m id data fieldsToUpdate relationsToUpdate).
Proof. reflexivity. Qed.
End StagesOfCreateAndUpdate.

Section CreateChecks.
Context `{Collaborators}.

Lemma default_object_run (data : val) (w : world) :
  exists data' w0,
    default_object data w = (Ok data', w0)
    /\ w_tables w0 = w_tables w /\ w_log w0 = w_log w
    /\ own_props (w_heap w0) data' = own_props (w_heap w) data.
Proof.
  destruct data as [p|l].
  - destruct p as [| |b|n|s];
      try (eexists _, w; split; [reflexivity|]; now repeat split).
    eexists _, _. split; [reflexivity|]. repeat split. simpl.
    now rewrite list_lookup_middle.
  - exists (Ref l), w. now repeat split.
Qed.

(** [create] up to its required-field check. *)
Lemma create_run (m : Model) (data : val) (w : world) :
  exists data' w0,
    default_object data w = (Ok data', w0)
    /\ w_tables w0 = w_tables w /\ w_log w0 = w_log w
    /\ create m data w
       = match getRelationsToUpdate m data' (Prim PNull) w0 with
         | (Throw e, w1) => (Throw e, w1)
         | (Ok rels, w1) =>
             match forEach (create_validate m) rels w1 with
             | (Throw e, w2) => (Throw e, w2)
             | (Ok _, w2) =>
                 if (0 <? length (missing_required m (w_heap w) data))%nat
                 then (Throw (InvalidModelInputError
                                (missing_required m (w_heap w) data)), w2)
                 else create_write m (pick (w_heap w) data (updateableFields m))
                                   rels w2
             end
         end.
Proof.
  destruct (default_object_run data w) as (data' & w0 & Hdef & Htables & Hlog & Hprops).
  exists data', w0. split; [exact Hdef|]. split; [exact Htables|].
  split; [exact Hlog|].
  rewrite create_stages, bind_run, Hdef. unfold getValidFields.
  rewrite !bind_run. cbn [the_heap ret].
  assert (Hpick : pick (w_heap w0) data' (updateableFields m)
                  = pick (w_heap w) data (updateableFields m))
    by (unfold pick; now rewrite Hprops).
  rewrite Hpick. fold (missing_required m (w_heap w) data).
  rewrite bind_run.
  destruct (getRelationsToUpdate m data' (Prim PNull) w0) as [[rels|e] w1];
    [|reflexivity].
  rewrite bind_run.
  destruct (forEach (create_validate m) rels w1) as [[[]|e] w2]; [|reflexivity].
  destruct (0 <? length (missing_required m (w_heap w) data))%nat; reflexivity.
Qed.

Lemma keeps_store_create_validate (m : Model) (r : relation_update) :
  keeps_store (create_validate m r).
Proof. unfold create_validate. frame. Qed.

Lemma keeps_heap_create_validate (m : Model) (r : relation_update) :
  keeps_heap (create_validate m r).
Proof. unfold create_validate. frame. Qed.

Lemma forEach_create_validate_accepted (m : Model) (rels : list relation_update)
    (w : world) :
  Forall (accepted m (w_heap w)) rels ->
  forEach (create_validate m) rels w = (Ok tt, w).
Proof.
  induction 1 as [|r rest (relation & Hrel & Hvalid) _ IH]; [reflexivity|].
  cbn [forEach]. rewrite bind_run. unfold create_validate at 1. rewrite Hrel.
  unfold validate. rewrite bind_run. cbn [the_heap]. rewrite Hvalid. exact IH.
Qed.

(** C2, as amended: when a required field is absent from the filtered
    payload, [create] fails and hands no statement to the adapter, so the
    stored tables are as they were; and when the relation payloads were
    collected and each is accepted by its relation's validation, the error
    is [InvalidModelInput] carrying exactly the missing required field
    names. *)
Theorem create_missing_required_fields (m : Model) (data : val) (w : world) :
  missing_required m (w_heap w) data <> [] ->
  (exists e, fst (create m data w) = Throw e)
  /\ w_log (snd (create m data w)) = w_log w
  /\ w_tables (snd (create m data w)) = w_tables w
  /\ forall data' w0 rels w1,
       default_object data w = (Ok data', w0) ->
       getRelationsToUpdate m data' (Prim PNull) w0 = (Ok rels, w1) ->
       Forall (accepted m (w_heap w1)) rels ->
       fst (create m data w)
       = Throw (InvalidModelInputError (missing_required m (w_heap w) data)).
Proof.
  intros Hmissing.
  assert (Hlen : (0 <? length (missing_required m (w_heap w) data))%nat = true).
  { apply Nat.ltb_lt. destruct (missing_required m (w_heap w) data);
      [contradiction | simpl; lia]. }
  destruct (create_run m data w) as (data' & w0 & Hdef & Htables & Hlog & Hcreate).
  rewrite Hcreate, Hlen. clear Hcreate.
  pose proof (keeps_store_getRelationsToUpdate m data' (Prim PNull) w0) as Hrel.
  destruct (getRelationsToUpdate m data' (Prim PNull) w0) as [[rels|e] w1] eqn:Erel.
  - pose proof (keeps_store_forEach (create_validate m) rels
                  (keeps_store_create_validate m) w1) as Hval.
    destruct (forEach (create_validate m) rels w1) as [[[]|e] w2] eqn:Eval;
      simpl in *.
    + split; [eexists; reflexivity|].
      split; [destruct Hrel, Hval; congruence|].
      split; [destruct Hrel, Hval; congruence|].
      intros data1 w01 rels1 w11 Hdef1 Hrel1 Hacc. reflexivity.
    + split; [eexists; reflexivity|].
      split; [destruct Hrel, Hval; congruence|].
      split; [destruct Hrel, Hval; congruence|].
      intros data1 w01 rels1 w11 Hdef1 Hrel1 Hacc.
      rewrite Hdef in Hdef1. injection Hdef1 as <- <-.
      rewrite Erel in Hrel1. injection Hrel1 as <- <-.
      rewrite (forEach_create_validate_accepted m rels w1 Hacc) in Eval.
      discriminate.
  - simpl in *. split; [eexists; reflexivity|].
    split; [destruct Hrel; congruence|].
    split; [destruct Hrel; congruence|].
    intros data1 w01 rels1 w11 Hdef1 Hrel1 Hacc.
    rewrite Hdef in Hdef1. injection Hdef1 as <- <-.
    rewrite Erel in Hrel1. discriminate.
Qed.
End CreateChecks.

Section PayloadMutation.
Context `{Collaborators}.

(** The heap [update] leaves behind is the one its stamping produced. *)
Lemma update_heap (m : Model) (id : val) (l : nat)
    (props : list (string * val)) (w : world) :
  w_heap w !! l = Some (Obj props) ->
  (forall k, In k (relation_keys m (w_heap w) (Ref l)) ->
     exists items, array_at (w_heap w) (read_prop (w_heap w) (Ref l) k) items) ->
  let h0 := <[l := Obj (delete_prop "id" props)]> (w_heap w) in
  exists h1,
    w_heap (snd (update m id (Ref l) w)) = h1
    /\ heap_stamps (stamp_key m) (default_null id) h0 h1
    /\ forall k items,
         k <> "id" -> In k (relation_keys m (w_heap w) (Ref l)) ->
         array_at (w_heap w) (read_prop (w_heap w) (Ref l) k) items ->
         rows_stamped (w_heap w) h1 (stamp_key m) (default_null id) items.
Proof.
  intros Hl Harrays h0.
  set (w0 := {| w_heap := h0; w_tables := w_tables w; w_log := w_log w |}).
  assert (Hl0 : h0 !! l = Some (Obj (delete_prop "id" props))).
  { apply list_lookup_insert_eq. now apply lookup_lt_Some in Hl. }
  assert (Hkeys : forall k, In k (relation_keys m h0 (Ref l)) <->
            In k (relation_keys m (w_heap w) (Ref l)) /\ k <> "id").
  { intros k. unfold relation_keys, own_props. rewrite Hl0, Hl. simpl.
    rewrite !List.filter_In. split.
    - intros [Hk Hdecl]. apply keys_delete_prop in Hk. tauto.
    - intros [[Hk Hdecl] Hne]. split; [|exact Hdecl].
      apply keys_delete_prop_2; assumption. }
  assert (Hread : forall k, k <> "id" ->
            read_prop h0 (Ref l) k = read_prop (w_heap w) (Ref l) k).
  { intros k Hne. unfold read_prop, own_props. rewrite Hl0, Hl. simpl.
    rewrite get_delete_prop_ne by congruence. reflexivity. }
  assert (Harr0 : forall array items, array_at (w_heap w) array items ->
            array_at h0 array items).
  { intros array items (a & ps & -> & Ha). exists a, ps. split; [reflexivity|].
    unfold h0. rewrite list_lookup_insert_ne; [exact Ha|]. congruence. }
  destruct (getRelationsToUpdate_run m (Ref l) id w0 eq_refl)
    as (rels & w1 & Hrun & _ & _ & Hst & Hrows & _).
  { change (w_heap w0) with h0. intros k Hk.
    apply Hkeys in Hk as [Hk Hne]. rewrite (Hread k Hne).
    destruct (Harrays k Hk) as [items Hitems]. exists items. now apply Harr0. }
  change (w_heap w0) with h0 in Hst, Hrows.
  exists (w_heap w1). split; [|split; [exact Hst|]].
  - unfold update. rewrite bind_run. cbn [default_object ret].
    rewrite bind_run. cbn [is_nullish]. rewrite bind_run. cbn [the_heap].
    unfold heap_delete. rewrite Hl. cbn [map_cell_props put_heap].
    fold h0. fold w0.
    rewrite bind_run. unfold getValidFields at 1. rewrite bind_run.
    cbn [the_heap ret]. rewrite bind_run, Hrun.
    match goal with
    | |- w_heap (snd (?rest w1)) = _ =>
        assert (Hrest : keeps_heap rest); [|apply Hrest]
    end.
    frame.
  - intros k items Hne Hk Hitems x Hx Hlive.
    apply (Hrows k items).
    + apply Hkeys. now split.
    + rewrite (Hread k Hne). now apply Harr0.
    + exact Hx.
    + unfold h0. apply lookup_lt_is_Some. rewrite length_insert.
      now apply lookup_lt_is_Some.
Qed.

Lemma create_write_stamps (m : Model) (fieldsToUpdate : row)
    (rels : list relation_update) (w w' : world) (v : value) (p : prim) :
  create_write m fieldsToUpdate rels w = (Ok v, w') ->
  (forall db last, head (answer (QGetLast (tableName m)) db) = Some last ->
                   get_prop "id" last = Some p) ->
  Forall (fun r => exists items, array_at (w_heap w) (relationData r) items)
         rels ->
  heap_stamps (stamp_key m) (Prim p) (w_heap w) (w_heap w')
  /\ forall r items,
       In r rels -> array_at (w_heap w) (relationData r) items ->
       rows_stamped (w_heap w) (w_heap w') (stamp_key m) (Prim p) items.
Proof.
  intros Hrun Hlast Harrays. unfold create_write in Hrun.
  apply bind_ok_inv in Hrun as (rows & w1 & Hinsert & Hrun).
  apply bind_ok_inv in Hrun as (result & w2 & Hgetlast & Hrun).
  apply bind_ok_inv in Hrun as (id & w3 & Hid & Hrun).
  assert (Hh1 : w_heap w1 = w_heap w).
  { pose proof (keeps_heap_runQuery (QueryBuilder_create m fieldsToUpdate) w) as Hk.
    now rewrite Hinsert in Hk. }
  assert (Hh2 : w_heap w2 = w_heap w1).
  { pose proof (keeps_heap_getLast m w1) as Hk. now rewrite Hgetlast in Hk. }
  assert (Hidp : id = Prim p /\ w3 = w2).
  { unfold getLast in Hgetlast.
    apply bind_ok_inv in Hgetlast as (data & w2' & Hq & [= <- <-]).
    destruct (runQuery_run (QGetLast (tableName m)) w1) as (_ & _ & Hq').
    unfold last_id in Hid.
    destruct (fault (QGetLast (tableName m)) (w_tables w1));
      destruct Hq' as [Hq' _]; rewrite Hq in Hq'; simpl in Hq';
      [discriminate|].
    injection Hq' as ->.
    destruct (head (answer (QGetLast (tableName m)) (w_tables w1))) as [last|] eqn:E;
      [|discriminate].
    rewrite (Hlast _ _ E) in Hid. now injection Hid as <- <-. }
  destruct Hidp as [-> ->].
  unfold create_relations in Hrun.
  apply bind_ok_inv in Hrun as (signed & w4 & Hsign & Hrun).
  assert (Hh4 : w_heap w' = w_heap w4).
  { match type of Hrun with
    | ?rest w4 = _ =>
        assert (Hk : keeps_heap rest) by frame;
        specialize (Hk w4); now rewrite Hrun in Hk
    end. }
  destruct (signRelationsDataWithSeniorId_run m rels (Prim p) w2)
    as (signed' & w4' & Hsign' & _ & _ & Hst & Hrows & _).
  { now rewrite Hh2, Hh1. }
  rewrite Hsign in Hsign'. injection Hsign' as <- <-.
  rewrite Hh4. rewrite Hh2, Hh1 in Hst, Hrows. split; [exact Hst | exact Hrows].
Qed.

End PayloadMutation.

(** C2, witness: a payload with a valid [tags] relation and no [name]. *)
Lemma create_missing_required_fields_witness :
  let C := Demo.collaborators Demo.no_rows in
  let w := Demo.world_of [Obj [("nick", Prim (PStr "B")); ("tags", Ref 1)];
                          Arr [Ref 2] [];
                          Obj [("id_tag", Prim (PNum 5))]] in
  fst (create (Demo.users C) (Ref 0) w) = Throw (InvalidModelInputError ["name"])
  /\ w_log (snd (create (Demo.users C) (Ref 0) w)) = []
  /\ w_tables (snd (create (Demo.users C) (Ref 0) w)) = Demo.store.
Proof.
  intros C w.
  destruct (create_missing_required_fields (H := C) (Demo.users C) (Ref 0) w)
    as (_ & Hlog & Htables & Herror); [discriminate|].
  split; [|split; [exact Hlog | exact Htables]].
  destruct (getRelationsToUpdate (Demo.users C) (Ref 0) (Prim PNull) w)
    as [[rels|e] w1] eqn:Erels; [|vm_compute in Erels; discriminate].
  apply (Herror (Ref 0) w rels w1); [reflexivity | exact Erels |].
  vm_compute in Erels. injection Erels as <- <-.
  repeat constructor. eexists. split; reflexivity.
Defined.

(** C2, counterexample to the claim as stated: [name] is missing from the
    payload [{tags: null}], yet the error is the [TypeError] of the
    relation payload, not [InvalidModelInput]. *)
Lemma create_relation_payload_fails_first :
  let C := Demo.collaborators Demo.no_rows in
  let w := Demo.world_of [Obj [("tags", Prim PNull)]] in
  missing_required (Demo.users C) (w_heap w) (Ref 0) = ["name"]
  /\ fst (create (Demo.users C) (Ref 0) w)
     = Throw (TypeError "Cannot read properties of null (reading 'map')")
  /\ fst (create (Demo.users C) (Ref 0) w)
     <> Throw (InvalidModelInputError ["name"]).
Proof.
  split; [reflexivity|]. split; [reflexivity | discriminate].
Qed.

(** ** What can be thrown *)

Section ThrowsOnly.
Context {A B : Type} (P : error -> Prop).

Lemma throws_only_bind (c : M A) (k : A -> M B) :
  throws_only P c -> (forall a, throws_only P (k a)) -> throws_only P (bind c k).
Proof.
  intros Hc Hk w e w' Hrun. apply bind_throw_inv in Hrun as [Hrun|(a & w1 & _ & Hrun)].
  - exact (Hc _ _ _ Hrun).
  - exact (Hk _ _ _ _ Hrun).
Qed.

Lemma throws_only_ret (a : A) : throws_only P (ret a).
Proof. intros w e w' Hrun. discriminate. Qed.

Lemma throws_only_throw (e : error) : P e -> throws_only P (@throw A e).
Proof. intros He w e' w' [= <- _]. exact He. Qed.

Lemma throws_only_attempt (c : M A) : throws_only P (attempt c).
Proof. intros w e w' Hrun. unfold attempt in Hrun. destruct (c w). discriminate. Qed.
End ThrowsOnly.

Lemma throws_only_detached (P : error -> Prop) (c : M unit) :
  throws_only P (detached c).
Proof. intros w e w' Hrun. discriminate. Qed.

Lemma throws_only_the_heap (P : error -> Prop) : throws_only P the_heap.
Proof. intros w e w' Hrun. discriminate. Qed.

Lemma throws_only_put_heap (P : error -> Prop) (h : heap) :
  throws_only P (put_heap h).
Proof. intros w e w' Hrun. discriminate. Qed.

Lemma throws_only_alloc (P : error -> Prop) (c : cell) : throws_only P (alloc c).
Proof. intros w e w' Hrun. discriminate. Qed.

Lemma throws_only_forEach {A} (P : error -> Prop) (f : A -> M unit) (l : list A) :
  (forall x, In x l -> throws_only P (f x)) -> throws_only P (forEach f l).
Proof.
  induction l as [|x rest IH]; intros Hf; simpl.
  - apply throws_only_ret.
  - apply throws_only_bind; [apply Hf; now left | intros _].
    apply IH. intros y Hy. apply Hf. now right.
Qed.

Lemma throws_only_mapM {A B} (P : error -> Prop) (f : A -> M B) (l : list A) :
  (forall x, throws_only P (f x)) -> throws_only P (mapM f l).
Proof.
  intros Hf. induction l as [|x rest IH]; simpl.
  - apply throws_only_ret.
  - apply throws_only_bind; [apply Hf | intros y].
    apply throws_only_bind; [exact IH | intros ys; apply throws_only_ret].
Qed.

(** Structural induction on tree values. *)
Lemma value_induction (P : value -> Prop) :
  (forall p, P (VPrim p)) ->
  (forall props, List.Forall (fun kv => P (snd kv)) props -> P (VObj props)) ->
  (forall items, List.Forall P items -> P (VArr items)) ->
  forall v, P v.
Proof.
  intros Hprim Hobj Harr.
  fix IH 1. intros [p|props|items].
  - apply Hprim.
  - apply Hobj. induction props as [|[k v] rest IHrest]; constructor.
    + apply IH.
    + exact IHrest.
  - apply Harr. induction items as [|v rest IHrest]; constructor.
    + apply IH.
    + exact IHrest.
Qed.

Lemma split_value_throws (v : value) (e : error) :
  split_value v = Throw e -> is_type_error e.
Proof.
  unfold split_value. destruct (truthy v); [|discriminate].
  destruct v as [[]| |]; try discriminate; intros [= <-]; eexists; reflexivity.
Qed.

Lemma reduce_step_throws (parse : value -> outcome (list value)) (key : string)
    (v : value) (result : list value) (e : error) :
  (forall e', parse v = Throw e' -> is_type_error e') ->
  reduce_step parse key v result = Throw e -> is_type_error e.
Proof.
  intros Hparse. unfold reduce_step, parsed_value.
  destruct (truthy v && is_object v).
  - destruct (parse v) eqn:E; [discriminate|]. intros [= <-]. now apply Hparse.
  - destruct (split_value v) eqn:E; [discriminate|]. intros [= <-].
    now apply split_value_throws in E.
Qed.

Lemma reduce_props_throws (parse : value -> outcome (list value))
    (entries : list (string * value)) (result : list value) (e : error) :
  List.Forall (fun kv => forall e', parse (snd kv) = Throw e' -> is_type_error e')
              entries ->
  reduce_props parse entries result = Throw e -> is_type_error e.
Proof.
  intros Hentries. revert result.
  induction Hentries as [|[k v] rest Hv _ IH]; intros result; simpl;
    [discriminate|].
  destruct (reduce_step parse k v result) eqn:E.
  - apply IH.
  - intros [= <-]. eapply reduce_step_throws; [exact Hv | exact E].
Qed.

Lemma reduce_items_throws (parse : value -> outcome (list value)) (i : nat)
    (items : list value) (result : list value) (e : error) :
  List.Forall (fun v => forall e', parse v = Throw e' -> is_type_error e') items ->
  reduce_items parse i items result = Throw e -> is_type_error e.
Proof.
  intros Hitems. revert i result.
  induction Hitems as [|v rest Hv _ IH]; intros i result; simpl; [discriminate|].
  destruct (reduce_step parse (index_key i) v result) eqn:E.
  - apply IH.
  - intros [= <-]. eapply reduce_step_throws; [exact Hv | exact E].
Qed.

Lemma parseRelationCollection_throws (v : value) (e : error) :
  parseRelationCollection v = Throw e -> is_type_error e.
Proof.
  revert e. induction v as [p|props IH|items IH] using value_induction; intros e.
  - destruct p as [| |b|n|s]; simpl; try discriminate;
      try (intros [= <-]; eexists; reflexivity).
    apply reduce_props_throws.
    generalize 0. induction s as [|c rest IHs]; intros i; constructor.
    + discriminate.
    + apply IHs.
  - simpl. apply reduce_props_throws. exact IH.
  - simpl. apply reduce_items_throws. exact IH.
Qed.

Lemma unflatten_relations_throws (relations : list (string * Relationship))
    (model : list (string * value)) (e : error) :
  unflatten_relations relations model = Throw e -> is_type_error e.
Proof.
  unfold unflatten_relations.
  assert (Hfold : forall acc,
            (forall e', acc = Throw e' -> is_type_error e') ->
            fold_left
              (fun acc '(_, relation) =>
                 match acc with
                 | Ok model => unflatten_relation model relation
                 | Throw e => Throw e
                 end) relations acc = Throw e ->
            is_type_error e).
  { induction relations as [|[k relation] rest IH]; intros acc Hacc; simpl.
    - apply Hacc.
    - apply IH. intros e'. destruct acc as [model0|e0]; [|apply Hacc].
      unfold unflatten_relation.
      destruct (parseRelationCollection _) eqn:E; [discriminate|].
      intros [= <-]. now apply parseRelationCollection_throws in E. }
  apply Hfold. discriminate.
Qed.

Lemma rawSQLToModel_throws (m : Model) (rawOutput : raw_row) (e : error) :
  rawSQLToModel m rawOutput = Throw e -> is_type_error e.
Proof.
  unfold rawSQLToModel.
  destruct (unflatten_relations _ _) eqn:E; [discriminate|].
  intros [= <-]. now apply unflatten_relations_throws in E.
Qed.

Create HintDb throws.

#[local] Hint Resolve throws_only_ret throws_only_attempt throws_only_detached
  throws_only_the_heap throws_only_put_heap throws_only_alloc : throws.

Ltac throws_step :=
  lazymatch goal with
  | |- forall _, _ => intros
  | |- throws_only _ (bind _ _) => apply throws_only_bind
  | |- throws_only _ (mapM _ _) => apply throws_only_mapM
  | |- throws_only _ (forEach _ _) => apply throws_only_forEach
  | |- throws_only _ (throw _) => apply throws_only_throw; exact I
  | |- throws_only _ ?c =>
      first [ solve [auto with throws]
            | match c with
              | context [match ?x with _ => _ end] => destruct x
              end ]
  end.

Ltac throws := repeat throws_step.

Section CrudThrows.
Context `{Collaborators}.

Lemma throws_only_runQuery (query : stmt) :
  throws_only other_than_not_found (runQuery query).
Proof.
  intros w e w'. unfold runQuery.
  destruct (fault query (w_tables w)); intros Hrun; inversion Hrun. exact I.
Qed.

Lemma throws_only_lift_mapper (m : Model) (rawOutput : raw_row) :
  throws_only other_than_not_found (lift (rawSQLToModel m rawOutput)).
Proof.
  intros w e w' [= Hrun _]. apply rawSQLToModel_throws in Hrun as [what ->].
  exact I.
Qed.

Lemma throws_only_get (m : Model) (id : val) :
  throws_only other_than_not_found (get m id).
Proof.
  unfold get. throws; [apply throws_only_runQuery | apply throws_only_lift_mapper].
Qed.

Lemma throws_only_array_items (array : val) :
  throws_only other_than_not_found (array_items array).
Proof. unfold array_items. throws. Qed.

Lemma throws_only_signRelationsDataWithSeniorId (m : Model)
    (data : list relation_update) (id : val) :
  throws_only other_than_not_found (signRelationsDataWithSeniorId m data id).
Proof.
  unfold signRelationsDataWithSeniorId. throws. apply throws_only_array_items.
Qed.

Lemma throws_only_getRelationsToUpdate (m : Model) (data signingId : val) :
  throws_only other_than_not_found (getRelationsToUpdate m data signingId).
Proof.
  unfold getRelationsToUpdate. throws.
  apply throws_only_signRelationsDataWithSeniorId.
Qed.

Lemma throws_only_validate (relation : Relationship) (data : val) :
  throws_only other_than_not_found (validate relation data).
Proof. unfold validate. throws. Qed.

Lemma throws_only_create_write (m : Model) (fieldsToUpdate : row)
    (relationsToInsert : list relation_update) :
  throws_only other_than_not_found
    (create_write m fieldsToUpdate relationsToInsert).
Proof.
  unfold create_write, getLast, last_id, create_relations. throws;
    try apply throws_only_runQuery.
  - apply throws_only_signRelationsDataWithSeniorId.
  - apply throws_only_get.
Qed.

Lemma throws_only_bind_post {A B} (P : error -> Prop) (Q : A -> Prop)
    (c : M A) (k : A -> M B) :
  (forall w a w1, c w = (Ok a, w1) -> Q a) ->
  throws_only P c ->
  (forall a, Q a -> throws_only P (k a)) ->
  throws_only P (bind c k).
Proof.
  intros Hpost Hc Hk w e w' Hrun.
  apply bind_throw_inv in Hrun as [Hrun|(a & w1 & Ha & Hrun)].
  - exact (Hc _ _ _ Hrun).
  - exact (Hk a (Hpost _ _ _ Ha) _ _ _ Hrun).
Qed.

Lemma throws_only_update_relations (m : Model) (id : val)
    (relationsToUpdate : list relation_update) :
  throws_only other_than_not_found (update_relations m id relationsToUpdate).
Proof.
  unfold update_relations. apply throws_only_bind.
  { unfold update_delete_existing. throws. }
  intros deleted.
  apply (throws_only_bind_post _
           (fun r => forall e, r = Throw e -> other_than_not_found e)).
  - intros w r w1. unfold attempt.
    destruct (get m id w) as [[v|e] w2] eqn:E; intros [= <- _] e' [= <-].
    exact (throws_only_get m id _ _ _ E).
  - apply throws_only_attempt.
  - intros result Hresult. apply throws_only_bind.
    + unfold update_insert_new. throws.
    + intros _ w e w' [= -> _]. now apply Hresult.
Qed.

Lemma throws_only_update (m : Model) (id data : val) :
  throws_only other_than_not_found (update m id data).
Proof.
  rewrite update_stages.
  unfold default_object, getValidFields, update_validate, relation_named,
    update_write, update_own_fields.
  throws; try apply throws_only_runQuery; try apply throws_only_validate.
  - apply throws_only_getRelationsToUpdate.
  - apply throws_only_update_relations.
Qed.
End CrudThrows.

(** ** Relation names in a payload *)

Lemma signRelationsDataWithSeniorId_names (m : Model)
    (data : list relation_update) (id : val) (w w' : world)
    (out : list relation_update) :
  signRelationsDataWithSeniorId m data id w = (Ok out, w') ->
  map relationName out = map relationName data.
Proof.
  revert w w' out. induction data as [|r rest IH]; intros w w' out Hrun.
  - injection Hrun as <- _. reflexivity.
  - unfold signRelationsDataWithSeniorId in Hrun. cbn [mapM] in Hrun.
    apply bind_ok_inv in Hrun as (r' & w1 & Hr' & Hrun).
    apply bind_ok_inv in Hrun as (out' & w2 & Hrest & Hrun).
    injection Hrun as <- _.
    apply bind_ok_inv in Hr' as (entries & w3 & _ & Hr').
    apply bind_ok_inv in Hr' as (stamped & w4 & _ & Hr').
    apply bind_ok_inv in Hr' as (fresh & w5 & _ & Hr').
    injection Hr' as <- _. simpl. f_equal. exact (IH _ _ _ Hrest).
Qed.

Lemma getRelationsToUpdate_names (m : Model) (data signingId : val)
    (w w' : world) (rels : list relation_update) :
  getRelationsToUpdate m data signingId w = (Ok rels, w') ->
  Forall (fun r => In (relationName r) (keys (relations m))) rels.
Proof.
  unfold getRelationsToUpdate. rewrite bind_run. cbn [the_heap].
  destruct (is_nullish data); [discriminate|]. intros Hrun.
  apply signRelationsDataWithSeniorId_names in Hrun.
  rewrite map_map in Hrun. cbn [relationName] in Hrun. rewrite map_id in Hrun.
  apply List.Forall_forall. intros r Hr.
  assert (Hin : In (relationName r) (map relationName rels)) by now apply in_map.
  rewrite Hrun in Hin. apply List.filter_In in Hin as [_ Hin].
  now apply includes_In.
Qed.

Section UndeclaredRelations.
Context `{Collaborators}.

(** C7, where the code departs from the claim: a payload key that names
    no declared relation never reaches the lookup of [create].
    [getRelationsToUpdate] collects only the keys that are declared
    relation names, so the check [if (!relation) throw ...] that [create]
    has for an unknown relation cannot fire: neither [create] nor [update]
    ever ends with the "Relation ... not found" error. *)
Theorem undeclared_relation_keys_are_ignored (m : Model) (data id : val)
    (w : world) :
  (forall rels w',
     getRelationsToUpdate m data id w = (Ok rels, w') ->
     Forall (fun r => In (relationName r) (keys (relations m))) rels)
  /\ (forall name,
        fst (create m data w) <> Throw (RelationNotFound name))
  /\ (forall name,
        fst (update m id data w) <> Throw (RelationNotFound name)).
Proof.
  split; [|split].
  - intros rels w'. apply getRelationsToUpdate_names.
  - intros name Hthrown.
    destruct (create_run m data w) as (data' & w0 & _ & _ & _ & Hcreate).
    rewrite Hcreate in Hthrown. clear Hcreate.
    destruct (getRelationsToUpdate m data' (Prim PNull) w0)
      as [[rels|e] w1] eqn:Erels.
    + pose proof (getRelationsToUpdate_names _ _ _ _ _ _ Erels) as Hnames.
      destruct (forEach (create_validate m) rels w1) as [[[]|e] w2] eqn:Eval.
      * destruct (0 <? length (missing_required m (w_heap w) data))%nat;
          [discriminate|].
        destruct (create_write m _ rels w2) as [[v|e] w3] eqn:Ewrite;
          [discriminate|].
        simpl in Hthrown. injection Hthrown as ->.
        exact (throws_only_create_write _ _ _ _ _ _ Ewrite).
      * simpl in Hthrown. injection Hthrown as ->.
        refine (throws_only_forEach other_than_not_found _ _ _ _ _ _ Eval).
        intros r Hr. rewrite List.Forall_forall in Hnames.
        specialize (Hnames r Hr). unfold create_validate.
        destruct (get_prop (relationName r) (relations m)) eqn:Eget.
        -- apply throws_only_validate.
        -- apply get_prop_None in Eget. contradiction.
    + simpl in Hthrown. injection Hthrown as ->.
      exact (throws_only_getRelationsToUpdate _ _ _ _ _ _ Erels).
  - intros name Hthrown.
    destruct (update m id data w) as [[v|e] w'] eqn:Eupdate; [discriminate|].
    simpl in Hthrown. injection Hthrown as ->.
    exact (throws_only_update _ _ _ _ _ _ Eupdate).
Qed.
End UndeclaredRelations.

(** C7, witness: the relation payloads collected from
    [{name, ghosts, tags}] are those of [tags] alone. *)
Lemma undeclared_relation_keys_are_ignored_witness :
  let C := Demo.collaborators Demo.one_user in
  let w := Demo.world_of [Obj [("name", Prim (PStr "Ann")); ("ghosts", Ref 1);
                               ("tags", Ref 1)];
                          Arr [Ref 2] [];
                          Obj [("id_tag", Prim (PNum 5))]] in
  map relationName
      (match fst (getRelationsToUpdate (Demo.users C) (Ref 0) (Prim PNull) w) with
       | Ok rels => rels
       | Throw _ => []
       end) = ["tags"]
  /\ Forall (fun r => In (relationName r) (keys (relations (Demo.users C))))
            (match fst (getRelationsToUpdate (Demo.users C) (Ref 0) (Prim PNull) w) with
             | Ok rels => rels
             | Throw _ => []
             end)
  /\ fst (create (Demo.users C) (Ref 0) w) <> Throw (RelationNotFound "ghosts").
Proof.
  intros C w.
  destruct (undeclared_relation_keys_are_ignored (H := C) (Demo.users C)
              (Ref 0) (Prim PNull) w) as (Hnames & Hcreate & _).
  split; [reflexivity|]. split; [|apply Hcreate].
  destruct (getRelationsToUpdate (Demo.users C) (Ref 0) (Prim PNull) w)
    as [[rels|e] w1] eqn:Erels; [|constructor].
  exact (Hnames rels w1 eq_refl).
Defined.

(** C7, the failing input: [ghosts] is no declared relation of [users],
    and both [create] and [update] go through with a payload that has it,
    where the claim has them fail with an unknown-relation error. *)
Lemma undeclared_relation_raises_nothing :
  let C := Demo.collaborators Demo.one_user in
  let w := Demo.world_of [Obj [("name", Prim (PStr "Ann")); ("ghosts", Ref 1)];
                          Arr [Ref 2] [];
                          Obj [("id_ghost", Prim (PNum 5))]] in
  includes "ghosts" (keys (relations (Demo.users C))) = false
  /\ fst (create (Demo.users C) (Ref 0) w)
     = Ok (VObj [("id", VPrim (PNum 1)); ("name", VPrim (PStr "Ann"));
                 ("tags", VArr [])])
  /\ fst (update (Demo.users C) (Prim (PStr "1")) (Ref 0) w)
     = Ok (VObj [("id", VPrim (PNum 1)); ("name", VPrim (PStr "Ann"));
                 ("tags", VArr [])]).
Proof.
  split; [reflexivity|]. split; reflexivity.
Qed.

(** ** The UPDATE statement *)

Section UpdateStatement.
Context `{Collaborators}.

(** The UPDATE of [update] is built from the payload object as it is, not
    from [fieldsToUpdate], which only decides whether it is issued. *)
Lemma update_own_fields_statement (m : Model) (id data : val)
    (fieldsToUpdate : row) (w : world) :
  fieldsToUpdate <> [] ->
  w_log (snd (update_own_fields m id data fieldsToUpdate w))
  = w_log w ++ [QUpdate (tableName m) id (own_props (w_heap w) data)].
Proof.
  intros Hfields. unfold update_own_fields.
  destruct fieldsToUpdate as [|f fs]; [contradiction|]. cbn [keys map length].
  cbn [Nat.ltb Nat.leb]. rewrite bind_run. cbn [the_heap]. rewrite bind_run.
  destruct (runQuery_run (QueryBuilder_update m id (own_props (w_heap w) data)) w)
    as (_ & Hlog & _).
  destruct (runQuery _ w) as [[rows|e] w1]; exact Hlog.
Qed.
End UpdateStatement.

(** C3, on the code: for [update("1", {name, created_at, tags})] the
    updateable-field subset is [{name}], but the UPDATE handed to the
    adapter is built from the whole payload, so its SET clause also covers
    [created_at] and the relation payload [tags]. *)
Theorem update_statement_is_built_from_whole_payload :
  let C := Demo.collaborators Demo.one_user in
  let w := Demo.world_of [Obj [("id", Prim (PNum 1));
                               ("name", Prim (PStr "Bea"));
                               ("created_at", Prim (PStr "2020-01-01"));
                               ("tags", Ref 1)];
                          Arr [Ref 2] [];
                          Obj [("id_tag", Prim (PNum 5))]] in
  keys (pick (w_heap w) (Ref 0) (updateableFields (Demo.users C))) = ["name"]
  /\ head (w_log (snd (update (Demo.users C) (Prim (PStr "1")) (Ref 0) w)))
     = Some (QUpdate "users" (Prim (PStr "1"))
               [("name", Prim (PStr "Bea"));
                ("created_at", Prim (PStr "2020-01-01"));
                ("tags", Ref 1)]).
Proof.
  split; reflexivity.
Qed.

(** ** The stored tables *)

Lemma rows_of_alter_table_other (f : list row -> list row)
    (table table' : string) (db : tables) :
  table <> table' ->
  rows_of table (alter_table f table' db) = rows_of table db.
Proof.
  intros Hne. unfold rows_of. induction db as [|[t rows] rest IH]; simpl;
    [reflexivity|].
  destruct (String.eqb t table') eqn:E; simpl.
  - apply String.eqb_eq in E. subst t.
    destruct (String.eqb table' table) eqn:E'; [|reflexivity].
    apply String.eqb_eq in E'. congruence.
  - destruct (String.eqb t table); [reflexivity | exact IH].
Qed.

Lemma rows_of_alter_table_same (f : list row -> list row) (table : string)
    (db : tables) :
  is_Some (get_prop table db) ->
  rows_of table (alter_table f table db) = f (rows_of table db).
Proof.
  unfold rows_of. induction db as [|[t rows] rest IH]; simpl.
  - intros [? [=]].
  - destruct (String.eqb t table) eqn:E; simpl; rewrite E; [reflexivity|].
    exact IH.
Qed.

Lemma has_table_alter_table (f : list row -> list row) (table table' : string)
    (db : tables) :
  is_Some (get_prop table (alter_table f table' db))
  <-> is_Some (get_prop table db).
Proof.
  induction db as [|[t rows] rest IH]; simpl; [reflexivity|].
  destruct (String.eqb t table') eqn:E; simpl.
  - destruct (String.eqb t table); [|reflexivity].
    split; intros _; eexists; reflexivity.
  - destruct (String.eqb t table); [|exact IH].
    split; intros _; eexists; reflexivity.
Qed.

Lemma has_table_run_write (query : stmt) (table : string) (db : tables) :
  is_Some (get_prop table (run_write query db)) <-> is_Some (get_prop table db).
Proof. destruct query; simpl; try reflexivity; apply has_table_alter_table. Qed.

Lemma insert_rows_cons (table : string) (entry : row) (rows : list row)
    (db : tables) :
  insert_rows table (entry :: rows) db
  = insert_rows table rows (alter_table (fun rs => rs ++ [entry]) table db).
Proof. reflexivity. Qed.

Lemma rows_of_insert_rows_other (table table' : string) (rows : list row)
    (db : tables) :
  table <> table' ->
  rows_of table (insert_rows table' rows db) = rows_of table db.
Proof.
  intros Hne. revert db. induction rows as [|r rest IH]; intros db;
    [reflexivity|].
  rewrite insert_rows_cons, IH. now apply rows_of_alter_table_other.
Qed.

Lemma has_table_insert_rows (table table' : string) (rows : list row)
    (db : tables) :
  is_Some (get_prop table (insert_rows table' rows db))
  <-> is_Some (get_prop table db).
Proof.
  revert db. induction rows as [|r rest IH]; intros db; [reflexivity|].
  rewrite insert_rows_cons, IH. apply has_table_alter_table.
Qed.

Lemma rows_of_insert_rows_same (table : string) (rows : list row) (db : tables) :
  is_Some (get_prop table db) ->
  rows_of table (insert_rows table rows db) = rows_of table db ++ rows.
Proof.
  revert db. induction rows as [|r rest IH]; intros db Hhas.
  - now rewrite app_nil_r.
  - rewrite insert_rows_cons, IH.
    + rewrite rows_of_alter_table_same by exact Hhas.
      now rewrite <- app_assoc.
    + now apply has_table_alter_table.
Qed.

Section ReplaceTables.
Variables (m : Model) (id : val) (h : heap).

Lemma has_table_delete_all (table : string) (rels : list relation_update)
    (db : tables) :
  is_Some (get_prop table (fold_left (delete_existing m id) rels db))
  <-> is_Some (get_prop table db).
Proof.
  revert db. induction rels as [|r rest IH]; intros db; simpl; [reflexivity|].
  rewrite IH. apply has_table_run_write.
Qed.

Lemma has_table_insert_all (table : string) (rels : list relation_update)
    (db : tables) :
  is_Some (get_prop table (fold_left (insert_new m h) rels db))
  <-> is_Some (get_prop table db).
Proof.
  revert db. induction rels as [|r rest IH]; intros db; simpl; [reflexivity|].
  rewrite IH. apply has_table_insert_rows.
Qed.

Lemma rows_of_delete_all_other (table : string) (rels : list relation_update)
    (db : tables) :
  ~ In table (map (table_of m) rels) ->
  rows_of table (fold_left (delete_existing m id) rels db) = rows_of table db.
Proof.
  revert db. induction rels as [|r rest IH]; intros db Hnotin; simpl;
    [reflexivity|].
  rewrite IH by (intros Hin; apply Hnotin; now right).
  apply rows_of_alter_table_other. intros ->. apply Hnotin. now left.
Qed.

Lemma rows_of_insert_all_other (table : string) (rels : list relation_update)
    (db : tables) :
  ~ In table (map (table_of m) rels) ->
  rows_of table (fold_left (insert_new m h) rels db) = rows_of table db.
Proof.
  revert db. induction rels as [|r rest IH]; intros db Hnotin; simpl;
    [reflexivity|].
  rewrite IH by (intros Hin; apply Hnotin; now right).
  apply rows_of_insert_rows_other. intros ->. apply Hnotin. now left.
Qed.

Lemma rows_of_delete_all (r0 : relation_update) (rels : list relation_update)
    (db : tables) :
  In r0 rels -> List.NoDup (map (table_of m) rels) ->
  is_Some (get_prop (table_of m r0) db) ->
  rows_of (table_of m r0) (fold_left (delete_existing m id) rels db)
  = List.filter (fun r => negb (column_is (stamp_key m) id r))
                (rows_of (table_of m r0) db).
Proof.
  revert db. induction rels as [|r rest IH]; intros db Hin Hnodup Hhas;
    [destruct Hin|].
  inversion Hnodup as [|? ? Hnotin Hnodup']; subst. simpl.
  destruct Hin as [->|Hin].
  - rewrite rows_of_delete_all_other by exact Hnotin.
    unfold delete_existing. simpl. now apply rows_of_alter_table_same.
  - rewrite IH; [|exact Hin | exact Hnodup' |].
    + unfold delete_existing at 1. simpl.
      rewrite rows_of_alter_table_other; [reflexivity|].
      intros Heq. apply Hnotin. rewrite <- Heq. now apply in_map.
    + now apply has_table_run_write.
Qed.

Lemma rows_of_insert_all (r0 : relation_update) (rels : list relation_update)
    (db : tables) :
  In r0 rels -> List.NoDup (map (table_of m) rels) ->
  is_Some (get_prop (table_of m r0) db) ->
  rows_of (table_of m r0) (fold_left (insert_new m h) rels db)
  = rows_of (table_of m r0) db
    ++ map (own_props h) (items_of h (relationData r0)).
Proof.
  revert db. induction rels as [|r rest IH]; intros db Hin Hnodup Hhas;
    [destruct Hin|].
  inversion Hnodup as [|? ? Hnotin Hnodup']; subst. simpl.
  destruct Hin as [->|Hin].
  - rewrite rows_of_insert_all_other by exact Hnotin.
    unfold insert_new. now apply rows_of_insert_rows_same.
  - rewrite IH; [|exact Hin | exact Hnodup' |].
    + unfold insert_new at 1.
      rewrite rows_of_insert_rows_other; [reflexivity|].
      intros Heq. apply Hnotin. rewrite <- Heq. now apply in_map.
    + now apply has_table_insert_rows.
Qed.
End ReplaceTables.

(** ** The relation writes of [update] *)

Section RelationWrites.
Context `{Collaborators}.
Hypothesis adapter_works : no_fault.

Lemma runQuery_no_fault (query : stmt) (w : world) :
  runQuery query w
  = (Ok (answer query (w_tables w)),
     {| w_heap := w_heap w; w_tables := run_write query (w_tables w);
        w_log := w_log w ++ [query] |}).
Proof. unfold runQuery. now rewrite adapter_works. Qed.

Lemma detached_run (c : M unit) (w : world) :
  detached c w = (Ok tt, snd (c w)).
Proof. reflexivity. Qed.

Lemma get_keeps_tables (m : Model) (id : val) (w : world) :
  w_tables (snd (get m id w)) = w_tables w.
Proof.
  unfold get. rewrite bind_run, runQuery_no_fault. rewrite bind_run.
  match goal with
  | |- context [mapM ?f ?l ?w0] =>
      assert (Hk : keeps_store (mapM f l)) by frame;
      destruct (Hk w0) as [Ht _]; destruct (mapM f l w0) as [[result|e] w1]
  end; simpl in *; exact Ht.
Qed.

Lemma assignRelationData_run (m : Model) (relation : Relationship)
    (newData : val) (w : world) :
  fst (assignRelationData m relation newData w) = Ok tt
  /\ w_heap (snd (assignRelationData m relation newData w)) = w_heap w
  /\ w_tables (snd (assignRelationData m relation newData w))
     = insert_rows (tableName_of relation)
         (map (own_props (w_heap w)) (items_of (w_heap w) newData))
         (w_tables w).
Proof.
  assert (Hgen : forall rows w0,
            fst (forEach (fun query => detached (runQuery query;;; ret tt))
                   (map (QCreateRelationEntry (tableName_of relation)) rows) w0)
            = Ok tt
            /\ w_heap (snd (forEach (fun query => detached (runQuery query;;; ret tt))
                   (map (QCreateRelationEntry (tableName_of relation)) rows) w0))
               = w_heap w0
            /\ w_tables (snd (forEach (fun query => detached (runQuery query;;; ret tt))
                   (map (QCreateRelationEntry (tableName_of relation)) rows) w0))
               = insert_rows (tableName_of relation) rows (w_tables w0)).
  { induction rows as [|entry rest IH]; intros w0; [now repeat split|].
    cbn [map forEach]. rewrite bind_run, detached_run, bind_run.
    rewrite runQuery_no_fault. cbn [ret snd].
    destruct (IH {| w_heap := w_heap w0;
                    w_tables := run_write (QCreateRelationEntry
                                             (tableName_of relation) entry)
                                          (w_tables w0);
                    w_log := w_log w0 ++ [QCreateRelationEntry
                                            (tableName_of relation) entry] |})
      as (Hok & Hheap & Htables).
    split; [exact Hok|]. split; [exact Hheap|]. rewrite Htables. reflexivity. }
  unfold assignRelationData. rewrite bind_run. cbn [the_heap].
  unfold QueryBuilder_createRelationEntries.
  rewrite <- (map_map (own_props (w_heap w))
                      (QCreateRelationEntry (tableName_of relation))).
  apply Hgen.
Qed.

Lemma delete_phase (m : Model) (id : val) (rels : list relation_update)
    (w : world) :
  Forall (fun r => is_Some (get_prop (relationName r) (relations m))) rels ->
  exists deleted w',
    mapM (update_delete_existing m id) rels w = (Ok deleted, w')
    /\ map fst deleted = rels
    /\ Forall (fun d => exists rows, snd d = Ok rows) deleted
    /\ w_heap w' = w_heap w
    /\ w_tables w' = fold_left (delete_existing m id) rels (w_tables w).
Proof.
  intros Hdecl. revert w.
  induction Hdecl as [|r rest [relation Hrel] _ IH]; intros w.
  - exists [], w. repeat split. constructor.
  - cbn [mapM]. rewrite bind_run. unfold update_delete_existing at 1.
    rewrite bind_run. unfold attempt. rewrite bind_run.
    unfold relation_named. rewrite Hrel. cbn [ret].
    rewrite runQuery_no_fault. cbn [ret].
    match goal with
    | |- context [bind _ _ ?w0] => destruct (IH w0)
        as (deleted & w' & Hrun & Hfst & Hok & Hheap & Htables)
    end.
    rewrite bind_run, Hrun. cbn [ret].
    eexists _, w'. split; [reflexivity|]. split; [simpl; now rewrite Hfst|].
    split; [constructor; [eexists; reflexivity | exact Hok]|].
    split; [exact Hheap|]. rewrite Htables. cbn [fold_left w_tables].
    unfold delete_existing at 3, table_of. rewrite Hrel. reflexivity.
Qed.

Lemma insert_phase (m : Model)
    (deleted : list (relation_update * outcome (list raw_row))) (w : world) :
  Forall (fun d => is_Some (get_prop (relationName (fst d)) (relations m))
                   /\ exists rows, snd d = Ok rows) deleted ->
  exists w',
    forEach (update_insert_new m) deleted w = (Ok tt, w')
    /\ w_heap w' = w_heap w
    /\ w_tables w'
       = fold_left (insert_new m (w_heap w)) (map fst deleted) (w_tables w).
Proof.
  intros Hdel. revert w.
  induction Hdel as [|[r answered] rest [[relation Hrel] [rows Hrows]] _ IH];
    intros w.
  - exists w. now repeat split.
  - simpl in Hrel, Hrows. subst answered. cbn [forEach]. rewrite bind_run.
    unfold update_insert_new at 1. rewrite detached_run, bind_run.
    unfold relation_named. rewrite Hrel. cbn [ret].
    destruct (assignRelationData_run m relation (relationData r) w)
      as (_ & Hheap & Htables).
    set (w1 := snd (assignRelationData m relation (relationData r) w)) in *.
    destruct (IH w1) as (w' & Hrun & Hheap' & Htables').
    exists w'. split; [exact Hrun|]. split; [congruence|].
    rewrite Htables', Hheap, Htables. cbn [map fold_left fst].
    unfold insert_new at 3, table_of. rewrite Hrel. reflexivity.
Qed.

Lemma update_relations_run (m : Model) (id : val)
    (rels : list relation_update) (w : world) :
  Forall (fun r => is_Some (get_prop (relationName r) (relations m))) rels ->
  w_heap (snd (update_relations m id rels w)) = w_heap w
  /\ w_tables (snd (update_relations m id rels w))
     = fold_left (insert_new m (w_heap w)) rels
         (fold_left (delete_existing m id) rels (w_tables w)).
Proof.
  intros Hdecl. unfold update_relations. rewrite bind_run.
  destruct (delete_phase m id rels w Hdecl)
    as (deleted & w1 & Hrun & Hfst & Hok & Hheap1 & Htables1).
  rewrite Hrun. rewrite bind_run. unfold attempt.
  pose proof (get_keeps_tables m id w1) as Hget_tables.
  pose proof (keeps_heap_get m id w1) as Hget_heap.
  destruct (get m id w1) as [result w2]. simpl in Hget_tables, Hget_heap.
  rewrite bind_run.
  destruct (insert_phase m deleted w2) as (w3 & Hins & Hheap3 & Htables3).
  { rewrite <- Hfst in Hdecl. clear -Hdecl Hok.
    induction deleted as [|d rest IH]; [constructor|].
    inversion Hdecl; inversion Hok; subst. constructor; [now split | now apply IH]. }
  rewrite Hins. unfold lift. simpl.
  split; [congruence|].
  rewrite Htables3, Hfst, Hget_tables, Htables1, Hget_heap, Hheap1. reflexivity.
Qed.
End RelationWrites.

Lemma relation_tables_distinct (rs : list (string * Relationship))
    (k1 k2 : string) (r1 r2 : Relationship) :
  List.NoDup (map (fun e => tableName_of (snd e)) rs) ->
  get_prop k1 rs = Some r1 -> get_prop k2 rs = Some r2 -> k1 <> k2 ->
  tableName_of r1 <> tableName_of r2.
Proof.
  induction rs as [|[k r] rest IH]; intros Hnodup H1 H2 Hne; [discriminate|].
  inversion Hnodup as [|? ? Hnotin Hnodup']; subst. simpl in *.
  destruct (String.eqb k k1) eqn:E1, (String.eqb k k2) eqn:E2.
  - apply String.eqb_eq in E1, E2. congruence.
  - injection H1 as <-. intros Heq. apply Hnotin. rewrite Heq.
    apply get_prop_In in H2.
    apply (in_map (fun e => tableName_of (snd e))) in H2. exact H2.
  - injection H2 as <-. intros Heq. apply Hnotin. rewrite <- Heq.
    apply get_prop_In in H1.
    apply (in_map (fun e => tableName_of (snd e))) in H1. exact H1.
  - now apply IH.
Qed.

Lemma NoDup_table_of (m : Model) (rels : list relation_update) :
  List.NoDup (map (fun e => tableName_of (snd e)) (relations m)) ->
  Forall (fun r => is_Some (get_prop (relationName r) (relations m))) rels ->
  List.NoDup (map relationName rels) ->
  List.NoDup (map (table_of m) rels).
Proof.
  intros Htables Hdecl. induction Hdecl as [|r rest [relation Hrel] Hrest IH];
    intros Hnames; simpl; [constructor|].
  inversion Hnames as [|? ? Hnotin Hnames']; subst. constructor; [|now apply IH].
  intros Hin. apply in_map_iff in Hin as (r' & Heq & Hr').
  rewrite List.Forall_forall in Hrest. destruct (Hrest r' Hr') as [relation' Hrel'].
  unfold table_of in Heq. rewrite Hrel, Hrel' in Heq.
  refine (relation_tables_distinct _ _ _ _ _ Htables Hrel Hrel' _ (eq_sym Heq)).
  intros Hsame. apply Hnotin. rewrite Hsame. now apply in_map.
Qed.

Lemma NoDup_keys_delete_prop {V} (key : string) (props : list (string * V)) :
  List.NoDup (keys props) -> List.NoDup (keys (delete_prop key props)).
Proof.
  induction props as [|[k x] rest IH]; intros Hnodup; simpl; [constructor|].
  inversion Hnodup as [|? ? Hnotin Hnodup']; subst.
  destruct (String.eqb k key); [now apply IH|]. simpl. constructor; [|now apply IH].
  intros Hin. apply keys_delete_prop in Hin as [Hin _]. contradiction.
Qed.

Lemma Forall2_names (R : string -> relation_update -> Prop)
    (ks : list string) (rels : list relation_update) :
  Forall2 (fun k r => relationName r = k /\ R k r) ks rels ->
  map relationName rels = ks.
Proof.
  induction 1 as [|k r ks' rels' [Hname _] _ IH]; simpl; [reflexivity|].
  now rewrite Hname, IH.
Qed.

Section FullReplace.
Context `{Collaborators}.
Hypothesis adapter_works : no_fault.

Lemma forEach_update_validate_accepted (m : Model)
    (rels : list relation_update) (w : world) :
  Forall (accepted m (w_heap w)) rels ->
  forEach (update_validate m) rels w = (Ok tt, w).
Proof.
  induction 1 as [|r rest (relation & Hrel & Hvalid) _ IH]; [reflexivity|].
  cbn [forEach]. rewrite bind_run. unfold update_validate at 1.
  rewrite bind_run. unfold relation_named. rewrite Hrel. cbn [ret].
  unfold validate. rewrite bind_run. cbn [the_heap]. rewrite Hvalid. exact IH.
Qed.

Lemma update_own_fields_run (m : Model) (id data : val) (fieldsToUpdate : row)
    (w : world) :
  exists w2,
    update_own_fields m id data fieldsToUpdate w = (Ok tt, w2)
    /\ w_heap w2 = w_heap w
    /\ (forall table, is_Some (get_prop table (w_tables w2))
                      <-> is_Some (get_prop table (w_tables w)))
    /\ (forall table, table <> tableName m ->
          rows_of table (w_tables w2) = rows_of table (w_tables w)).
Proof.
  unfold update_own_fields.
  destruct (0 <? length (keys fieldsToUpdate))%nat.
  - rewrite bind_run. cbn [the_heap]. rewrite bind_run.
    rewrite (runQuery_no_fault adapter_works). cbn [ret].
    eexists. split; [reflexivity|]. split; [reflexivity|]. split.
    + intros table. apply has_table_run_write.
    + intros table Hne. simpl. now apply rows_of_alter_table_other.
  - exists w. split; [reflexivity|]. now repeat split.
Qed.

(** [update] on a payload object whose relation payloads are accepted. *)
Lemma update_run (m : Model) (id : val) (l : nat)
    (props : list (string * val)) (w : world) :
  w_heap w !! l = Some (Obj props) ->
  let w0 := {| w_heap := <[l := Obj (delete_prop "id" props)]> (w_heap w);
               w_tables := w_tables w; w_log := w_log w |} in
  forall rels w1,
    getRelationsToUpdate m (Ref l) id w0 = (Ok rels, w1) ->
    Forall (accepted m (w_heap w1)) rels ->
    update m id (Ref l) w
    = update_write m id (Ref l) (pick (w_heap w0) (Ref l) (updateableFields m))
        rels w1.
Proof.
  intros Hl w0 rels w1 Hrels Hacc.
  rewrite update_stages, bind_run. cbn [default_object ret].
  rewrite bind_run. cbn [is_nullish]. rewrite bind_run. cbn [the_heap].
  unfold heap_delete. rewrite Hl. cbn [map_cell_props put_heap]. fold w0.
  rewrite bind_run. unfold getValidFields at 1. rewrite bind_run.
  cbn [the_heap ret]. rewrite bind_run, Hrels.
  rewrite bind_run, (forEach_update_validate_accepted m rels w1 Hacc).
  reflexivity.
Qed.
End FullReplace.

Lemma filter_senior_of_others (key : string) (id : val) (rows : list row) :
  List.filter (column_is key id)
              (List.filter (fun r => negb (column_is key id r)) rows) = [].
Proof.
  induction rows as [|r rest IH]; simpl; [reflexivity|].
  destruct (column_is key id r) eqn:E; simpl; [exact IH|].
  now rewrite E.
Qed.

Lemma filter_senior_of_stamped (key : string) (id : val) (rows : list row) :
  Forall (fun entry => get_prop key entry = Some id) rows ->
  List.filter (column_is key id) rows = rows.
Proof.
  induction 1 as [|r rest Hr _ IH]; simpl; [reflexivity|].
  unfold column_is at 1. rewrite bool_decide_eq_true_2 by exact Hr.
  now rewrite IH.
Qed.

Lemma payload_without_id (m : Model) (l : nat) (props : list (string * val))
    (h : heap) :
  h !! l = Some (Obj props) ->
  let h0 := <[l := Obj (delete_prop "id" props)]> h in
  (forall k, In k (relation_keys m h0 (Ref l))
             <-> In k (relation_keys m h (Ref l)) /\ k <> "id")
  /\ (forall k, k <> "id" -> read_prop h0 (Ref l) k = read_prop h (Ref l) k)
  /\ (forall array items, array_at h array items -> array_at h0 array items)
  /\ (forall v, object_row h v -> object_row h0 v)
  /\ relation_keys m h0 (Ref l)
     = List.filter (fun k => includes k (keys (relations m)))
                   (keys (delete_prop "id" props)).
Proof.
  intros Hl h0.
  assert (Hl0 : h0 !! l = Some (Obj (delete_prop "id" props))).
  { apply list_lookup_insert_eq. now apply lookup_lt_Some in Hl. }
  split; [|split; [|split; [|split]]].
  - intros k. unfold relation_keys, own_props. rewrite Hl0, Hl. simpl.
    rewrite !List.filter_In. split.
    + intros [Hk Hdecl]. apply keys_delete_prop in Hk. tauto.
    + intros [[Hk Hdecl] Hne]. split; [|exact Hdecl].
      apply keys_delete_prop_2; assumption.
  - intros k Hne. unfold read_prop, own_props. rewrite Hl0, Hl. simpl.
    rewrite get_delete_prop_ne by congruence. reflexivity.
  - intros array items (a & ps & -> & Ha). exists a, ps. split; [reflexivity|].
    unfold h0. rewrite list_lookup_insert_ne; [exact Ha|]. congruence.
  - intros v (x & ps & -> & Hx). destruct (decide (x = l)) as [->|Hne].
    + eexists l, _. split; [reflexivity | exact Hl0].
    + exists x, ps. split; [reflexivity|].
      unfold h0. now rewrite list_lookup_insert_ne.
  - unfold relation_keys, own_props. now rewrite Hl0.
Qed.

Section ReplaceTheorem.
Context `{Collaborators}.

(** The relation writes of [update] when nothing goes wrong: if the
    adapter accepts every statement, the UPDATE included, and the relation
    payloads are accepted, then after [update(id, data)] the rows of a
    relation's link table that hold this very [id] under the senior key
    [id_<name>] are exactly the rows of the payload, each stamped with
    [id], whatever rows were there before; the other rows stay. *)
Theorem update_replaces_relation_rows (m : Model) (id : val) (l : nat)
    (props : list (string * val)) (w : world) (k : string)
    (relation : Relationship) (items : list val) :
  no_fault ->
  plain_key (stamp_key m) = true ->
  id <> Prim PUndefined ->
  w_heap w !! l = Some (Obj props) ->
  List.NoDup (keys props) ->
  (forall k', In k' (relation_keys m (w_heap w) (Ref l)) ->
     exists items',
       array_at (w_heap w) (read_prop (w_heap w) (Ref l) k') items') ->
  (forall rels w1,
     getRelationsToUpdate m (Ref l) id
       {| w_heap := <[l := Obj (delete_prop "id" props)]> (w_heap w);
          w_tables := w_tables w; w_log := w_log w |} = (Ok rels, w1) ->
     Forall (accepted m (w_heap w1)) rels) ->
  List.NoDup (map (fun e => tableName_of (snd e)) (relations m)) ->
  k <> "id" -> In k (keys props) ->
  get_prop k (relations m) = Some relation ->
  array_at (w_heap w) (read_prop (w_heap w) (Ref l) k) items ->
  Forall (object_row (w_heap w)) items ->
  is_Some (get_prop (tableName_of relation) (w_tables w)) ->
  let w' := snd (update m id (Ref l) w) in
  let new_rows := map (own_props (w_heap w')) items in
  List.filter (column_is (stamp_key m) id)
              (rows_of (tableName_of relation) (w_tables w'))
  = new_rows
  /\ Forall (fun entry => get_prop (stamp_key m) entry = Some id) new_rows
  /\ (tableName_of relation <> tableName m ->
      rows_of (tableName_of relation) (w_tables w')
      = List.filter (fun r => negb (column_is (stamp_key m) id r))
                    (rows_of (tableName_of relation) (w_tables w))
        ++ new_rows).
Proof.
  intros Hworks _ Hid Hl Hnodup Harrays Haccepted Htables Hk Hkin Hrel Hitems
    Hobjects Hhas w' new_rows.
  set (h0 := <[l := Obj (delete_prop "id" props)]> (w_heap w)) in *.
  set (w0 := {| w_heap := h0; w_tables := w_tables w; w_log := w_log w |}) in *.
  destruct (payload_without_id m l props (w_heap w) Hl)
    as (Hkeys & Hread & Harr0 & Hobj0 & Hkeys0).
  fold h0 in Hkeys, Hread, Harr0, Hobj0, Hkeys0.
  assert (Hdefault : default_null id = id)
    by (destruct id as [[]|]; try reflexivity; contradiction).
  assert (Hkrel : In k (relation_keys m (w_heap w) (Ref l))).
  { unfold relation_keys, own_props. rewrite Hl. simpl. apply List.filter_In.
    split; [exact Hkin|]. apply includes_In. apply get_prop_In in Hrel.
    apply (in_map fst) in Hrel. exact Hrel. }
  destruct (getRelationsToUpdate_run m (Ref l) id w0 eq_refl)
    as (rels & w1 & Hrun & Htables1 & Hlog1 & Hst & Hrows & Hout).
  { change (w_heap w0) with h0. intros k' Hk'.
    apply Hkeys in Hk' as [Hk' Hne]. rewrite (Hread k' Hne).
    destruct (Harrays k' Hk') as [items' Hitems']. exists items'.
    now apply Harr0. }
  change (w_heap w0) with h0 in Hst, Hrows, Hout. rewrite Hdefault in Hst, Hrows.
  pose proof (Haccepted rels w1 Hrun) as Hacc.
  assert (Hdecl : Forall (fun r => is_Some (get_prop (relationName r) (relations m)))
                         rels).
  { eapply Forall_impl; [exact Hacc|]. intros r (relation' & Hr & _).
    now exists relation'. }
  assert (Hupdate : update m id (Ref l) w
                    = update_write m id (Ref l)
                        (pick h0 (Ref l) (updateableFields m)) rels w1).
  { exact (update_run m id l props w Hl rels w1 Hrun Hacc). }
  unfold update_write in Hupdate. rewrite bind_run in Hupdate.
  destruct (update_own_fields_run Hworks m id (Ref l)
              (pick h0 (Ref l) (updateableFields m)) w1)
    as (w2 & Hown & Hheap2 & Hhas2 & Hrows2).
  rewrite Hown in Hupdate.
  destruct (update_relations_run Hworks m id rels w2 Hdecl) as [Hheap' Htables'].
  rewrite <- Hupdate in Hheap', Htables'. fold w' in Hheap', Htables'.
  assert (Hh' : w_heap w' = w_heap w1) by congruence.
  (* the relation payload of [k] *)
  assert (Hk0 : In k (relation_keys m h0 (Ref l))) by (apply Hkeys; now split).
  destruct (Forall2_In_l _ _ _ k Hout Hk0) as (r0 & Hr0 & Hname0 & Harr).
  assert (Hitems1 : array_at (w_heap w1) (relationData r0) items).
  { apply Harr. rewrite (Hread k Hk). now apply Harr0. }
  assert (Hitems_of : items_of (w_heap w2) (relationData r0) = items).
  { rewrite Hheap2. destruct Hitems1 as (a & ps & -> & Ha). simpl.
    now rewrite Ha. }
  assert (Htable0 : table_of m r0 = tableName_of relation).
  { unfold table_of. now rewrite Hname0, Hrel. }
  assert (Hnodup_tables : List.NoDup (map (table_of m) rels)).
  { apply NoDup_table_of; [exact Htables | exact Hdecl|].
    rewrite (Forall2_names _ _ _ Hout), Hkeys0.
    apply List.NoDup_filter. now apply NoDup_keys_delete_prop. }
  assert (Hhas_w2 : is_Some (get_prop (table_of m r0) (w_tables w2))).
  { rewrite Htable0. apply Hhas2. now rewrite Htables1. }
  assert (Hfinal : rows_of (tableName_of relation) (w_tables w')
                   = List.filter (fun r => negb (column_is (stamp_key m) id r))
                       (rows_of (tableName_of relation) (w_tables w2))
                     ++ new_rows).
  { rewrite Htables', <- Htable0.
    rewrite (rows_of_insert_all m (w_heap w2) r0 rels _ Hr0 Hnodup_tables)
      by (apply has_table_delete_all; exact Hhas_w2).
    rewrite (rows_of_delete_all m id r0 rels _ Hr0 Hnodup_tables Hhas_w2).
    rewrite Hitems_of. unfold new_rows. now rewrite Hh', Hheap2. }
  assert (Hstamped : Forall (fun entry => get_prop (stamp_key m) entry = Some id)
                            new_rows).
  { unfold new_rows. apply List.Forall_forall. intros entry Hentry.
    apply in_map_iff in Hentry as (v & <- & Hv).
    rewrite List.Forall_forall in Hobjects.
    destruct (Hobj0 v (Hobjects v Hv)) as (x & ps & -> & Hx).
    assert (Hst_x : stamped (w_heap w1) (stamp_key m) id x).
    { apply (Hrows k items Hk0); [|exact Hv | now exists (Obj ps)].
      rewrite (Hread k Hk). now apply Harr0. }
    destruct Hst_x as (c & Hc & Hkey).
    destruct Hst as [_ Hst]. destruct (Hst x _ Hx) as (c' & Hc' & Hshape).
    rewrite Hc in Hc'. injection Hc' as <-.
    rewrite Hh'. unfold own_props. rewrite Hc.
    destruct Hshape as [->| ->]; exact Hkey. }
  split; [|split; [exact Hstamped|]].
  - rewrite Hfinal, List.filter_app, filter_senior_of_others.
    now apply filter_senior_of_stamped.
  - intros Hother. rewrite Hfinal, Hrows2 by exact Hother.
    now rewrite Htables1.
Qed.
End ReplaceTheorem.

Lemma In_keys_set_prop {V} (key : string) (v : V) (props : list (string * V))
    (k : string) :
  In k (keys props) -> In k (keys (set_prop key v props)).
Proof.
  induction props as [|[k' x] rest IH]; simpl; [tauto|].
  destruct (String.eqb k' key); simpl; tauto.
Qed.

Section RejectedUpdate.
Context `{Collaborators}.

(** C4, where the code departs from the claim: when the payload holds an
    updateable field next to a declared relation [k], the first statement
    that [update] hands to the adapter is the UPDATE built from the whole
    payload, whose field map names the relation [k] (see C3); and when the
    adapter rejects that statement, [update] ends there with the adapter's
    error: no DELETE and no INSERT of a relation row has been handed over
    and the stored tables are as they were, so nothing of relation [k] is
    replaced. *)
Theorem update_rejected_before_relation_writes (m : Model) (id : val)
    (l : nat) (props : list (string * val)) (w : world) (k what : string) :
  w_heap w !! l = Some (Obj props) ->
  (forall k', In k' (relation_keys m (w_heap w) (Ref l)) ->
     exists items,
       array_at (w_heap w) (read_prop (w_heap w) (Ref l) k') items) ->
  (forall rels w1,
     getRelationsToUpdate m (Ref l) id
       {| w_heap := <[l := Obj (delete_prop "id" props)]> (w_heap w);
          w_tables := w_tables w; w_log := w_log w |} = (Ok rels, w1) ->
     Forall (accepted m (w_heap w1)) rels) ->
  In k (relation_keys m (w_heap w) (Ref l)) -> k <> "id" ->
  pick (<[l := Obj (delete_prop "id" props)]> (w_heap w)) (Ref l)
       (updateableFields m) <> [] ->
  let w' := snd (update m id (Ref l) w) in
  let fieldMap := own_props (w_heap w') (Ref l) in
  fault (QUpdate (tableName m) id fieldMap) (w_tables w) = Some what ->
  In k (keys fieldMap)
  /\ fst (update m id (Ref l) w) = Throw (ExecutionFailure what)
  /\ w_log w' = w_log w ++ [QUpdate (tableName m) id fieldMap]
  /\ w_tables w' = w_tables w.
Proof.
  intros Hl Harrays Haccepted Hk Hne Hfields w' fieldMap.
  set (h0 := <[l := Obj (delete_prop "id" props)]> (w_heap w)) in *.
  set (w0 := {| w_heap := h0; w_tables := w_tables w; w_log := w_log w |}) in *.
  destruct (payload_without_id m l props (w_heap w) Hl)
    as (Hkeys & Hread & Harr0 & _ & _).
  fold h0 in Hkeys, Hread, Harr0.
  destruct (getRelationsToUpdate_run m (Ref l) id w0 eq_refl)
    as (rels & w1 & Hrun & Htables1 & Hlog1 & Hst & _ & _).
  { change (w_heap w0) with h0. intros k' Hk'.
    apply Hkeys in Hk' as [Hk' Hne']. rewrite (Hread k' Hne').
    destruct (Harrays k' Hk') as [items Hitems]. exists items.
    now apply Harr0. }
  change (w_heap w0) with h0 in Hst.
  pose proof (Haccepted rels w1 Hrun) as Hacc.
  assert (Hupdate : update m id (Ref l) w
                    = update_write m id (Ref l)
                        (pick h0 (Ref l) (updateableFields m)) rels w1)
    by exact (update_run m id l props w Hl rels w1 Hrun Hacc).
  assert (Hchanges : (0 <? length (keys (pick h0 (Ref l) (updateableFields m))))%nat
                     = true).
  { destruct (pick h0 (Ref l) (updateableFields m)); [contradiction|reflexivity]. }
  assert (Hh' : w_heap w' = w_heap w1).
  { unfold w'. rewrite Hupdate.
    assert (Hkeeps : keeps_heap
              (update_write m id (Ref l)
                 (pick h0 (Ref l) (updateableFields m)) rels)).
    { unfold update_write, update_own_fields, update_relations,
        update_delete_existing, update_insert_new. frame. }
    apply Hkeeps. }
  unfold update_write, update_own_fields in Hupdate.
  rewrite Hchanges, !bind_run in Hupdate. cbn [the_heap] in Hupdate.
  rewrite bind_run in Hupdate. unfold runQuery in Hupdate.
  cbn [QueryBuilder_update] in Hupdate.
  intros Hfault.
  unfold fieldMap in Hfault |- *. rewrite Hh' in Hfault |- *.
  unfold QueryBuilder_update in Hupdate. rewrite Htables1 in Hupdate.
  change (w_tables w0) with (w_tables w) in Hupdate, Htables1.
  change (w_log w0) with (w_log w) in Hlog1.
  rewrite Hfault in Hupdate.
  split; [|unfold w'; rewrite Hupdate; cbn [fst snd w_log w_tables];
           split; [reflexivity|]; split; [now rewrite Hlog1 | reflexivity]].
  (* the relation key is a key of the payload as [update] leaves it *)
  assert (Hl0 : h0 !! l = Some (Obj (delete_prop "id" props))).
  { apply list_lookup_insert_eq. now apply lookup_lt_Some in Hl. }
  assert (Hin : In k (keys (delete_prop "id" props))).
  { apply keys_delete_prop_2; [|exact Hne].
    unfold relation_keys, own_props in Hk. rewrite Hl in Hk.
    now apply List.filter_In in Hk as [Hk _]. }
  destruct Hst as [_ Hcells].
  destruct (Hcells l _ Hl0) as (c' & Hc' & [->| ->]);
    unfold own_props; rewrite Hc'; cbn [cell_entries map_cell_props].
  - exact Hin.
  - now apply In_keys_set_prop.
Qed.
End RejectedUpdate.

(** C4, the failing input: [update("1", {id: 1, name: "Bea",
    tags: [{id_tag: 5}]})] with an adapter that rejects the UPDATE for its
    [tags]: the error is the adapter's, the UPDATE is the only statement
    handed over, and the [tags] rows of user 1 are the old ones. *)
Lemma update_rejected_before_relation_writes_witness :
  let C := Sample.checking Demo.one_user in
  let run := update (Demo.users C) (Prim (PStr "1")) (Ref 0)
               (Demo.world_of Demo.payload) in
  fst run = Throw (ExecutionFailure "Unknown column 'tags' in 'field list'")
  /\ w_log (snd run)
     = [QUpdate "users" (Prim (PStr "1"))
          [("name", Prim (PStr "Bea")); ("tags", Ref 1)]]
  /\ rows_of "tags" (w_tables (snd run))
     = [ [("id_user", Prim (PStr "1")); ("id_tag", Prim (PNum 9))];
         [("id_user", Prim (PStr "2")); ("id_tag", Prim (PNum 9))] ].
Proof.
  intros C run.
  destruct (update_rejected_before_relation_writes (H := C) (Demo.users C)
              (Prim (PStr "1")) 0
              [("id", Prim (PNum 1)); ("name", Prim (PStr "Bea")); ("tags", Ref 1)]
              (Demo.world_of Demo.payload) "tags"
              "Unknown column 'tags' in 'field list'")
    as (_ & Hthrown & Hlog & Htables).
  - reflexivity.
  - intros k' Hk'. vm_compute in Hk'. destruct Hk' as [<-|[]].
    exists [Ref 2], 1, []. split; reflexivity.
  - intros rels w1 Hrun. vm_compute in Hrun. injection Hrun as <- <-.
    repeat constructor. eexists. split; reflexivity.
  - vm_compute. now left.
  - discriminate.
  - vm_compute. discriminate.
  - vm_compute. reflexivity.
  - split; [exact Hthrown|]. split.
    + unfold run. rewrite Hlog. vm_compute. reflexivity.
    + unfold run. rewrite Htables. reflexivity.
Defined.

(** An instance: user 1 has one [tags] row in the store; the update with
    [tags: [{id_tag: 5}]], accepted by the adapter, leaves exactly the new
    row for user 1, and the row of user 2 as it was. *)
Lemma update_replaces_relation_rows_witness :
  let C := Demo.collaborators Demo.one_user in
  let w' := snd (update (Demo.users C) (Prim (PStr "1")) (Ref 0)
                   (Demo.world_of Demo.payload)) in
  List.filter (column_is "id_user" (Prim (PStr "1"))) (rows_of "tags" (w_tables w'))
  = [[("id_tag", Prim (PNum 5)); ("id_user", Prim (PStr "1"))]]
  /\ rows_of "tags" (w_tables w')
     = [[("id_user", Prim (PStr "2")); ("id_tag", Prim (PNum 9))];
        [("id_tag", Prim (PNum 5)); ("id_user", Prim (PStr "1"))]].
Proof.
  intros C w'.
  destruct (update_replaces_relation_rows (H := C) (Demo.users C)
              (Prim (PStr "1")) 0
              [("id", Prim (PNum 1)); ("name", Prim (PStr "Bea")); ("tags", Ref 1)]
              (Demo.world_of Demo.payload) "tags" Demo.tags [Ref 2])
    as (Hsenior & _ & Hall).
  - intros query db. reflexivity.
  - reflexivity.
  - discriminate.
  - reflexivity.
  - repeat constructor; simpl; intuition discriminate.
  - intros k' Hk'. vm_compute in Hk'. destruct Hk' as [<-|[]].
    exists [Ref 2], 1, []. split; reflexivity.
  - intros rels w1 Hrun. vm_compute in Hrun. injection Hrun as <- <-.
    repeat constructor. eexists. split; reflexivity.
  - repeat constructor. simpl. intuition.
  - discriminate.
  - simpl. auto.
  - reflexivity.
  - exists 1, []. split; reflexivity.
  - repeat constructor. exists 2, [("id_tag", Prim (PNum 5))]. split; reflexivity.
  - eexists. reflexivity.
  - split; [exact Hsenior|]. apply Hall. discriminate.
Defined.


(** * Further properties *)

(** ** The row mapper: rows without related rows, aggregates that are no
    strings *)

Lemma assign_own_column (model : list (string * value)) (k : string) (v : prim) :
  plain_key k = true ->
  assign_column model (k, v) = set_prop k (VPrim v) model.
Proof.
  intros Hk. destruct (plain_key_parts k Hk) as [Hdot Hsafe].
  unfold assign_column. rewrite (split_on_no_sep _ _ Hdot). cbn [lookup list_lookup].
  unfold lodash_set_props, cast_path.
  destruct (has_prop k model); [|rewrite (split_on_no_sep _ _ Hdot)];
    cbn [base_set]; now rewrite Hsafe.
Qed.

Lemma assign_omitted_column (model : list (string * value))
    (column : string * prim) :
  omitted_column column -> assign_column model column = model.
Proof.
  destruct column as [k v]. intros (t & c & Hk & Ht & Hc & Hne & Hv).
  simpl in Hk, Hv. subst k. unfold assign_column.
  rewrite (split_alias t c Ht Hc). cbn [lookup list_lookup].
  apply String.eqb_neq in Hne. now rewrite Hne, Hv.
Qed.

Lemma alias_has_dot (t c : string) : contains_char "."%char (alias t c) = true.
Proof.
  unfold alias. rewrite contains_char_app. simpl. apply orb_true_r.
Qed.

Lemma collect_without_rows (m : Model) (rawOutput : raw_row) :
  Forall (fun column => own_column m column \/ omitted_column column) rawOutput ->
  forall base,
    List.NoDup (map fst rawOutput) ->
    (forall k, In k (keys base) -> ~ In k (map fst rawOutput)) ->
    fold_left assign_column rawOutput base
    = base ++ scalar_props (own_columns rawOutput).
Proof.
  induction 1 as [|[k v] rest Hcol _ IH]; intros base Hnodup Hbase.
  - simpl. now rewrite app_nil_r.
  - inversion Hnodup as [|? ? Hnotin Hnodup']; subst.
    cbn [fold_left own_columns List.filter fst].
    destruct Hcol as [[Hplain _]|Homitted].
    + simpl in Hplain. destruct (plain_key_parts k Hplain) as [Hdot _].
      rewrite Hdot. cbn [negb scalar_props map].
      rewrite (assign_own_column base k v Hplain).
      rewrite set_prop_fresh by (intros Hin; apply (Hbase k Hin); now left).
      rewrite IH; [now rewrite <- app_assoc | exact Hnodup'|].
      intros k' Hk'. unfold keys in Hk'. rewrite map_app in Hk'.
      apply in_app_or in Hk' as [Hk'|[<-|[]]]; [|exact Hnotin].
      intros Hin. apply (Hbase k' Hk'). now right.
    + rewrite (assign_omitted_column base (k, v) Homitted).
      destruct Homitted as (t & c & Hk & _). simpl in Hk. subst k.
      rewrite alias_has_dot. cbn [negb].
      apply IH; [exact Hnodup'|].
      intros k' Hk' Hin. apply (Hbase k' Hk'). now right.
Qed.

Lemma unflatten_absent_relations (rels : list (string * Relationship))
    (model0 : list (string * value)) :
  List.NoDup (map (fun e => tableName_of (snd e)) rels) ->
  (forall e, In e rels -> ~ In (tableName_of (snd e)) (keys model0)) ->
  unflatten_relations rels model0
  = Ok (model0 ++ map (fun e => (tableName_of (snd e), VArr [])) rels).
Proof.
  revert model0. induction rels as [|[k relation] rest IH];
    intros model0 Hnodup Habsent.
  - simpl. now rewrite app_nil_r.
  - inversion Hnodup as [|? ? Hnotin Hnodup']; subst. simpl in Hnotin.
    assert (Hthis : ~ In (tableName_of relation) (keys model0))
      by exact (Habsent (k, relation) (or_introl eq_refl)).
    assert (Hstep : unflatten_relation model0 relation
                    = Ok (model0 ++ [(tableName_of relation, VArr [])])).
    { unfold unflatten_relation, relation_sub_object.
      rewrite (proj2 (get_prop_None _ _) Hthis). simpl.
      now rewrite set_prop_fresh. }
    rewrite (unflatten_relations_cons k relation rest model0 _ Hstep).
    rewrite IH; [simpl; now rewrite <- app_assoc | exact Hnodup'|].
    intros e He Hin. unfold keys in Hin. rewrite map_app in Hin.
    apply in_app_or in Hin as [Hin|[Heq|[]]].
    + apply (Habsent e (or_intror He)). exact Hin.
    + apply Hnotin. simpl in Heq. rewrite Heq.
      now apply (in_map (fun e => tableName_of (snd e))).
Qed.

(** X1: a flattened row made of own columns and of relation columns
    without a value (the aliases [table.c] with [null], as a join without
    related rows gives) is mapped to the own columns as they are, in row
    order, followed by every declared relation with the empty collection:
    no property is created for a column without a value. *)
Theorem rawSQLToModel_relation_without_rows (m : Model) (rawOutput : raw_row) :
  List.NoDup (relation_tables m) ->
  List.NoDup (map fst rawOutput) ->
  Forall (fun column => own_column m column \/ omitted_column column)
         rawOutput ->
  rawSQLToModel m rawOutput
  = Ok (VObj (scalar_props (own_columns rawOutput) ++ empty_relations m)).
Proof.
  intros Htables Hnodup Hcolumns. unfold rawSQLToModel, collect_columns.
  rewrite (collect_without_rows m rawOutput Hcolumns [] Hnodup)
    by (intros k []).
  cbn [app]. rewrite unflatten_absent_relations.
  - unfold empty_relations, relation_tables. now rewrite map_map.
  - exact Htables.
  - intros e He Hin.
    assert (Htable : In (tableName_of (snd e)) (relation_tables m))
      by now apply (in_map (fun e => tableName_of (snd e))).
    unfold keys, scalar_props in Hin. rewrite map_map in Hin.
    apply in_map_iff in Hin as ([k v] & Hk & Hcol). simpl in Hk. subst k.
    apply List.filter_In in Hcol as [Hcol Hdot]. simpl in Hdot.
    rewrite List.Forall_forall in Hcolumns.
    destruct (Hcolumns _ Hcol) as [[_ Hown]|(t & c & Hk & _)].
    + now apply Hown.
    + simpl in Hk. rewrite Hk, alias_has_dot in Hdot. discriminate.
Qed.

(** X1, witness: a resident without addresses. *)
Lemma rawSQLToModel_relation_without_rows_witness :
  rawSQLToModel (Demo.residents (Demo.collaborators Demo.no_rows))
    [("id", PNum 1); ("addr.city", PNull); ("name", PStr "Ann");
     ("addr.zip", PStr "")]
  = Ok (VObj [("id", VPrim (PNum 1)); ("name", VPrim (PStr "Ann"));
              ("addr", VArr [])]).
Proof.
  apply (rawSQLToModel_relation_without_rows
           (Demo.residents (Demo.collaborators Demo.no_rows))
           [("id", PNum 1); ("addr.city", PNull); ("name", PStr "Ann");
            ("addr.zip", PStr "")]).
  - repeat constructor. simpl. tauto.
  - repeat constructor; simpl; intuition discriminate.
  - repeat apply List.Forall_cons; try apply List.Forall_nil.
    + left. split; [reflexivity|]. simpl. intuition discriminate.
    + right. exists "addr", "city". repeat split. discriminate.
    + left. split; [reflexivity|]. simpl. intuition discriminate.
    + right. exists "addr", "zip". repeat split. discriminate.
Defined.

Lemma reduce_props_bad_column (parse : value -> outcome (list value))
    (props : list (string * value)) (key : string) (p : prim) :
  In (key, VPrim p) props -> truthy_non_string p ->
  forall result, exists e, reduce_props parse props result = Throw e.
Proof.
  intros Hin [Htruthy Hnostring].
  induction props as [|[k v] rest IH]; intros result; [destruct Hin|].
  cbn [reduce_props].
  destruct (reduce_step parse k v result) as [result'|e] eqn:Estep;
    [|now exists e].
  destruct Hin as [[= -> ->]|Hin]; [|now apply IH].
  unfold reduce_step, parsed_value, split_value in Estep.
  cbn [truthy is_object andb] in Estep. rewrite andb_false_r, Htruthy in Estep.
  destruct p as [| |b|n|s]; try discriminate. now destruct (Hnostring s).
Qed.

Lemma unflatten_relations_thrown (rels : list (string * Relationship))
    (e : error) :
  fold_left
    (fun acc '(_, relation) =>
       match acc with
       | Ok model => unflatten_relation model relation
       | Throw e => Throw e
       end)
    rels (Throw e)
  = Throw e.
Proof. induction rels as [|[k relation] rest IH]; [reflexivity | exact IH]. Qed.

(** A relation whose sub-object cannot be parsed stops the mapping,
    whatever the other relations are. *)
Lemma unflatten_relations_bad_sub_object (rels : list (string * Relationship))
    (relation : Relationship) (bad : list (string * value)) :
  In relation (map snd rels) ->
  (exists e, parseRelationCollection (VObj bad) = Throw e) ->
  forall model,
    get_prop (tableName_of relation) model = Some (VObj bad) ->
    exists e, unflatten_relations rels model = Throw e.
Proof.
  intros Hrel [e0 Hbad].
  induction rels as [|[k r] rest IH]; intros model Hmodel; [destruct Hrel|].
  unfold unflatten_relations. cbn [fold_left].
  destruct (unflatten_relation model r) as [model1|e] eqn:Estep.
  - assert (Hother : tableName_of r <> tableName_of relation).
    { intros Heq. unfold unflatten_relation, relation_sub_object in Estep.
      rewrite Heq, Hmodel in Estep. cbn [truthy] in Estep.
      rewrite Hbad in Estep. discriminate. }
    apply (IH ltac:(destruct Hrel as [Heq|Hin];
                    [simpl in Heq; now subst r | exact Hin]) model1).
    unfold unflatten_relation in Estep.
    destruct (parseRelationCollection (relation_sub_object model r));
      [|discriminate].
    injection Estep as <-. now rewrite get_set_prop_ne.
  - exists e. apply unflatten_relations_thrown.
Qed.

(** A relation column with a value joins the sub-object under the
    relation's table name. *)
Lemma assign_relation_column (model : list (string * value)) (t c : string)
    (v : prim) :
  plain_key t = true -> plain_key c = true ->
  (forall k, In k (keys model) -> contains_char "."%char k = false) ->
  truthy_prim v = true ->
  assign_column model (alias t c, v)
  = set_prop t
      (VObj (set_prop c (VPrim v)
               match get_prop t model with
               | Some (VObj ps) => ps
               | _ => []
               end))
      model.
Proof.
  intros Ht Hc Hmodel Hv. unfold assign_column.
  rewrite (split_alias t c Ht Hc). cbn [lookup list_lookup].
  rewrite Hv, andb_false_r. unfold lodash_set_props, cast_path.
  assert (Hnokey : has_prop (alias t c) model = false).
  { apply has_prop_false. intros Hin. apply Hmodel in Hin.
    rewrite alias_has_dot in Hin. discriminate. }
  rewrite Hnokey, (split_alias t c Ht Hc). cbn [base_set].
  destruct (plain_key_parts t Ht) as [_ Htsafe].
  destruct (plain_key_parts c Hc) as [_ Hcsafe].
  now rewrite Htsafe, Hcsafe.
Qed.

Lemma In_set_prop {V} (key : string) (v : V) (props : list (string * V)) :
  In (key, v) (set_prop key v props).
Proof.
  induction props as [|[k x] rest IH]; simpl; [now left|].
  destruct (String.eqb k key) eqn:E.
  - apply String.eqb_eq in E. subst k. now left.
  - now right.
Qed.

(** X2: when a column of a declared relation carries a truthy scalar that
    is no string (a number, [true]), the mapper has no [split] to call on
    it: the whole row fails with a [TypeError], whatever its own columns
    and the relation's other columns are. *)
Theorem rawSQLToModel_rejects_non_string_aggregate (m : Model)
    (relation : Relationship) (own : raw_row)
    (columns : list (string * string)) (c : string) (p : prim) :
  In relation (map snd (relations m)) ->
  plain_key (tableName_of relation) = true ->
  Forall (fun k => plain_key k = true /\ k <> tableName_of relation)
         (map fst own) ->
  List.NoDup (map fst columns) ->
  Forall (fun k => plain_key k = true) (map fst columns) ->
  Forall (fun s => s <> "") (map snd columns) ->
  plain_key c = true ->
  truthy_non_string p ->
  exists what,
    rawSQLToModel m
      (own ++ relation_columns (tableName_of relation) columns
           ++ [(alias (tableName_of relation) c, p)])
    = Throw (TypeError what).
Proof.
  intros Hrel Htable Hown Hnodup Hplain Hvalues Hc Hp.
  set (t := tableName_of relation) in *.
  assert (Hownkeys : forall k, In k (keys (collect_columns own)) ->
            plain_key k = true /\ k <> t).
  { intros k Hk. unfold collect_columns in Hk.
    apply collect_own_columns in Hk as [[]|Hk].
    - rewrite List.Forall_forall in Hown. now apply Hown.
    - eapply Forall_impl; [exact Hown|]. now intros k' [Hk' _]. }
  assert (Hgathered : collect_columns (own ++ relation_columns t columns)
                      = gathered t (collect_columns own) columns).
  { unfold collect_columns at 1. rewrite fold_left_app.
    fold (collect_columns own). apply collect_relation_columns; try assumption.
    - intros k Hk. now apply plain_key_parts, Hownkeys.
    - intros Hk. now apply (Hownkeys t Hk). }
  assert (Hnodots : forall k, In k (keys (gathered t (collect_columns own) columns)) ->
            contains_char "."%char k = false).
  { intros k Hk. unfold gathered in Hk.
    destruct columns; [now apply plain_key_parts, Hownkeys|].
    apply keys_set_prop in Hk as [->|Hk]; apply plain_key_parts;
      [exact Htable | now apply Hownkeys]. }
  assert (Hmodel : exists bad,
            collect_columns (own ++ relation_columns t columns ++ [(alias t c, p)])
            = set_prop t (VObj bad) (gathered t (collect_columns own) columns)
            /\ In (c, VPrim p) bad).
  { eexists. split.
    - unfold collect_columns. rewrite app_assoc, fold_left_app.
      fold (collect_columns (own ++ relation_columns t columns)).
      rewrite Hgathered. cbn [fold_left].
      apply (assign_relation_column _ t c p Htable Hc Hnodots (proj1 Hp)).
    - apply In_set_prop. }
  destruct Hmodel as (bad & Hmodel & Hbad).
  destruct (reduce_props_bad_column parseRelationCollection bad c p Hbad Hp [])
    as [e0 He0].
  destruct (unflatten_relations_bad_sub_object (relations m) relation bad Hrel
              (ex_intro _ e0 He0)
              (set_prop t (VObj bad) (gathered t (collect_columns own) columns)))
    as [e He].
  { apply get_set_prop_eq. }
  assert (Hthrow : rawSQLToModel m
            (own ++ relation_columns t columns ++ [(alias t c, p)]) = Throw e).
  { unfold rawSQLToModel. now rewrite Hmodel, He. }
  destruct (rawSQLToModel_throws _ _ _ Hthrow) as [what ->].
  now exists what.
Qed.

(** X2, witness: a count next to the aggregated names. *)
Lemma rawSQLToModel_rejects_non_string_aggregate_witness :
  exists what,
    rawSQLToModel (Demo.residents (Demo.collaborators Demo.no_rows))
      [("id", PNum 1); ("addr.city", PStr "NY,LA"); ("addr.count", PNum 2)]
    = Throw (TypeError what).
Proof.
  apply (rawSQLToModel_rejects_non_string_aggregate
           (Demo.residents (Demo.collaborators Demo.no_rows)) Demo.addr
           [("id", PNum 1)] [("city", "NY,LA")] "count" (PNum 2)).
  - left. reflexivity.
  - reflexivity.
  - repeat apply List.Forall_cons; try apply List.Forall_nil.
    split; [reflexivity | discriminate].
  - repeat constructor. simpl. tauto.
  - repeat apply List.Forall_cons; try apply List.Forall_nil. reflexivity.
  - repeat apply List.Forall_cons; try apply List.Forall_nil. discriminate.
  - reflexivity.
  - split; [reflexivity | discriminate].
Defined.

(** ** The routes: lookups only read *)

Section RouteAnswers.
Context `{Collaborators}.

Lemma get_only_reads (m : Model) (id : val) (w : world) :
  only_reads (QGet (tableName m) (default_null id)) w (snd (get m id w)).
Proof.
  unfold get, QueryBuilder_get. rewrite bind_run.
  destruct (runQuery_run (QGet (tableName m) (default_null id)) w)
    as (Hheap & Hlog & Hrun).
  assert (Htables : w_tables (snd (runQuery (QGet (tableName m) (default_null id)) w))
                    = w_tables w).
  { destruct (fault (QGet (tableName m) (default_null id)) (w_tables w));
      now destruct Hrun as [_ ->]. }
  destruct (runQuery (QGet (tableName m) (default_null id)) w) as [[data|e] w1];
    simpl in Hheap, Hlog, Htables; [|now repeat split].
  match goal with
  | |- only_reads _ _ (snd (?rest w1)) =>
      assert (Hstore : keeps_store rest) by frame;
      assert (Hkeep : keeps_heap rest) by frame;
      destruct (Hstore w1) as [Ht Hl]; specialize (Hkeep w1)
  end.
  repeat split; congruence.
Qed.

(** X5: the two GET handlers hand the adapter the one get statement and
    leave the stored tables and the payload as they were, whatever they
    answer; and so do the PUT and DELETE handlers when the lookup of the
    [:id] finds no object or fails: no UPDATE or DELETE is attempted, and
    the request body is not touched. *)
Theorem lookup_routes_only_read (m : Model) (req : request) (w : world) :
  let id := Prim (PStr (params_id req)) in
  only_reads (QGet (tableName m) (Prim PNull)) w
             (snd (get_collection_handler m req w))
  /\ only_reads (QGet (tableName m) id) w (snd (get_handler m req w))
  /\ ((forall target, fst (get m id w) = Ok target -> truthy target = false) ->
      only_reads (QGet (tableName m) id) w (snd (put_handler m req w))
      /\ only_reads (QGet (tableName m) id) w (snd (delete_handler m req w))).
Proof.
  intros id. subst id.
  pose proof (get_only_reads m (Prim PUndefined) w) as Hall.
  pose proof (get_only_reads m (Prim (PStr (params_id req))) w) as Hone.
  cbn [default_null] in Hall, Hone. split; [|split].
  - unfold get_collection_handler. rewrite bind_run. unfold attempt.
    now destruct (get m (Prim PUndefined) w) as [[data|e] w1].
  - unfold get_handler. rewrite bind_run. unfold attempt.
    destruct (get m (Prim (PStr (params_id req))) w) as [[data|e] w1];
      [now destruct (truthy data) | exact Hone].
  - intros Hnone. unfold put_handler, delete_handler.
    rewrite !bind_run. unfold attempt. rewrite !bind_run.
    destruct (get m (Prim (PStr (params_id req))) w) as [[target|e] w1];
      [|now split].
    rewrite (Hnone target eq_refl). now split.
Qed.
End RouteAnswers.

(** X5, witness: [PUT /users/7] when there is no user 7 leaves the body
    [{id: 1, name: "Bea", tags: [...]}] and the store as they were. *)
Lemma lookup_routes_only_read_witness :
  let C := Demo.collaborators Demo.no_rows in
  let req := {| params_id := "7"; req_body := Ref 0 |} in
  only_reads (QGet "users" (Prim (PStr "7"))) (Demo.world_of Demo.payload)
             (snd (put_handler (Demo.users C) req (Demo.world_of Demo.payload))).
Proof.
  intros C req.
  destruct (lookup_routes_only_read (H := C) (Demo.users C) req
              (Demo.world_of Demo.payload)) as (_ & _ & Hmissing).
  destruct Hmissing as [Hput _]; [|exact Hput].
  intros target Hget. vm_compute in Hget. injection Hget as <-. reflexivity.
Defined.

(** ** The statements of [create] and [update], in order *)

Lemma get_prop_is_Some {V} (key : string) (props : list (string * V)) :
  In key (keys props) -> is_Some (get_prop key props).
Proof.
  intros Hin. destruct (get_prop key props) as [v|] eqn:E; [now exists v|].
  now apply get_prop_None in E.
Qed.

Lemma array_at_items_of (h : heap) (array : val) (items : list val) :
  array_at h array items -> items_of h array = items.
Proof. intros (a & ps & -> & Ha). simpl. now rewrite Ha. Qed.

Section StatementOrder.
Context `{Collaborators}.

Lemma handed_over (queries : list stmt) (w : world) :
  let c := forEach (fun query => detached (runQuery query ;;; ret tt)) queries in
  fst (c w) = Ok tt
  /\ w_heap (snd (c w)) = w_heap w
  /\ w_log (snd (c w)) = w_log w ++ queries.
Proof.
  revert w. induction queries as [|query rest IH]; intros w; cbn zeta.
  - repeat split. simpl. now rewrite app_nil_r.
  - cbn [forEach]. rewrite bind_run, detached_run.
    destruct (runQuery_run query w) as (Hheap & Hlog & _).
    assert (Hstep : w_heap (snd ((runQuery query ;;; ret tt) w)) = w_heap w
                    /\ w_log (snd ((runQuery query ;;; ret tt) w))
                       = w_log w ++ [query]).
    { rewrite bind_run. now destruct (runQuery query w) as [[rows|e] w1]. }
    destruct Hstep as [Hheap1 Hlog1].
    destruct (IH (snd ((runQuery query ;;; ret tt) w))) as (Hok & Hheap' & Hlog').
    split; [exact Hok|]. split; [congruence|].
    rewrite Hlog', Hlog1, <- app_assoc. reflexivity.
Qed.

Lemma assignRelationData_log (m : Model) (relation : Relationship)
    (newData : val) (w : world) :
  fst (assignRelationData m relation newData w) = Ok tt
  /\ w_heap (snd (assignRelationData m relation newData w)) = w_heap w
  /\ w_log (snd (assignRelationData m relation newData w))
     = w_log w
       ++ QueryBuilder_createRelationEntries m relation (w_heap w)
            (items_of (w_heap w) newData).
Proof.
  unfold assignRelationData. rewrite bind_run. cbn [the_heap].
  apply handed_over.
Qed.

Lemma relation_inserts_log (m : Model) (rels : list relation_update)
    (w : world) :
  Forall (fun r => is_Some (get_prop (relationName r) (relations m))) rels ->
  exists w',
    forEach (fun r =>
               detached
                 (let* relation := relation_named m (relationName r) in
                  assignRelationData m relation (relationData r)))
            rels w
    = (Ok tt, w')
    /\ w_heap w' = w_heap w
    /\ w_log w' = w_log w ++ relation_inserts m (w_heap w) rels.
Proof.
  intros Hdecl. revert w.
  induction Hdecl as [|r rest [relation Hrel] _ IH]; intros w.
  - exists w. repeat split. unfold relation_inserts. simpl.
    now rewrite app_nil_r.
  - cbn [forEach]. rewrite bind_run, detached_run, bind_run.
    unfold relation_named. rewrite Hrel. cbn [ret].
    destruct (assignRelationData_log m relation (relationData r) w)
      as (_ & Hheap & Hlog).
    set (w1 := snd (assignRelationData m relation (relationData r) w)) in *.
    destruct (IH w1) as (w' & Hrun & Hheap' & Hlog').
    exists w'. split; [exact Hrun|]. split; [congruence|].
    rewrite Hlog', Hlog, Hheap, <- app_assoc. f_equal.
    unfold relation_inserts. cbn [map concat]. f_equal.
    unfold QueryBuilder_createRelationEntries, table_of. now rewrite Hrel.
Qed.

Lemma payload_arrays (h0 h1 : heap) (data : val) (ks : list string)
    (rels : list relation_update) :
  Forall2 (fun k r =>
             relationName r = k
             /\ forall items,
                  array_at h0 (read_prop h0 data k) items ->
                  array_at h1 (relationData r) items)
          ks rels ->
  (forall k, In k ks -> exists items, array_at h0 (read_prop h0 data k) items) ->
  Forall (fun r => exists items, array_at h1 (relationData r) items) rels.
Proof.
  induction 1 as [|k r ks' rels' [_ Harr] _ IH]; intros Harrays;
    constructor.
  - destruct (Harrays k (or_introl eq_refl)) as [items Hitems].
    exists items. now apply Harr.
  - apply IH. intros k' Hk'. apply Harrays. now right.
Qed.

(** X6: a [create] that succeeds has handed to the adapter, in this order
    and nothing else: the INSERT built from exactly the filtered fields
    [getValidFields(data)] (no [id], no [created_at], no relation key); the
    read of the last row; one INSERT per row of every declared relation
    payload, in payload order; and the get by the id of the row read back,
    which therefore follows the relation INSERTs.  No UPDATE and no DELETE
    is issued.  (For a payload object whose declared relation payloads are
    arrays, the stamp key [id_<name>] being a plain property name.) *)
Theorem create_statement_order (m : Model) (l : nat)
    (props : list (string * val)) (w w' : world) (v : value) :
  plain_key (stamp_key m) = true ->
  w_heap w !! l = Some (Obj props) ->
  (forall k, In k (relation_keys m (w_heap w) (Ref l)) ->
     exists items, array_at (w_heap w) (read_prop (w_heap w) (Ref l) k) items) ->
  create m (Ref l) w = (Ok v, w') ->
  let fieldsToUpdate := pick (w_heap w) (Ref l) (updateableFields m) in
  exists last signed,
    head (answer (QGetLast (tableName m))
            (run_write (QCreate (tableName m) fieldsToUpdate) (w_tables w)))
    = Some last
    /\ Forall2 (payload_of_key (w_heap w) (w_heap w') (Ref l))
               (relation_keys m (w_heap w) (Ref l)) signed
    /\ w_log w'
       = w_log w
         ++ [QCreate (tableName m) fieldsToUpdate; QGetLast (tableName m)]
         ++ relation_inserts m (w_heap w') signed
         ++ [QGet (tableName m)
               (default_null match get_prop "id" last with
                             | Some p => Prim p
                             | None => Prim PUndefined
                             end)].
Proof.
  intros _ Hl Harrays Hok fieldsToUpdate.
  destruct (getRelationsToUpdate_run m (Ref l) (Prim PNull) w eq_refl Harrays)
    as (rels & w1 & Hrels & Htables1 & Hlog1 & _ & _ & Hout1).
  destruct (create_run m (Ref l) w) as (data' & w0 & Hdef & _ & _ & Hcreate).
  injection Hdef as <- <-. rewrite Hrels in Hcreate. rewrite Hcreate in Hok.
  clear Hcreate.
  pose proof (keeps_heap_forEach (create_validate m) rels
                (keeps_heap_create_validate m) w1) as Hheap2.
  destruct (keeps_store_forEach (create_validate m) rels
              (keeps_store_create_validate m) w1) as [Htables2 Hlog2].
  destruct (forEach (create_validate m) rels w1) as [[[]|e] w2];
    [|discriminate]. simpl in Hheap2, Htables2, Hlog2.
  destruct (0 <? length (missing_required m (w_heap w) (Ref l)))%nat;
    [discriminate|].
  fold fieldsToUpdate in Hok. unfold create_write in Hok.
  apply bind_ok_inv in Hok as (rows & w3 & Hinsert & Hok).
  apply bind_ok_inv in Hok as (result & w4 & Hgetlast & Hok).
  apply bind_ok_inv in Hok as (id & w5 & Hid & Hok).
  (* the INSERT *)
  destruct (runQuery_run (QueryBuilder_create m fieldsToUpdate) w2)
    as (Hheap3 & Hlog3 & Hran3).
  rewrite Hinsert in Hheap3, Hlog3, Hran3. simpl in Hheap3, Hlog3, Hran3.
  assert (Htables3 : w_tables w3
                     = run_write (QCreate (tableName m) fieldsToUpdate)
                                 (w_tables w)).
  { destruct (fault (QueryBuilder_create m fieldsToUpdate) (w_tables w2));
      destruct Hran3 as [Hran3 Htables3]; [discriminate|].
    rewrite Htables3, Htables2, Htables1. reflexivity. }
  (* the read of the last row *)
  unfold getLast in Hgetlast.
  apply bind_ok_inv in Hgetlast as (data & w4' & Hlast & [= <- <-]).
  destruct (runQuery_run (QGetLast (tableName m)) w3)
    as (Hheap4 & Hlog4 & Hran4).
  rewrite Hlast in Hheap4, Hlog4, Hran4. simpl in Hheap4, Hlog4, Hran4.
  assert (Hdata : data = answer (QGetLast (tableName m)) (w_tables w3)).
  { destruct (fault (QGetLast (tableName m)) (w_tables w3));
      destruct Hran4 as [Hran4 _]; [discriminate | now injection Hran4]. }
  unfold last_id in Hid.
  destruct (head data) as [last|] eqn:Ehead; [|discriminate].
  injection Hid as <- <-.
  (* the relation INSERTs and the get *)
  unfold create_relations in Hok.
  apply bind_ok_inv in Hok as (signed & w6 & Hsign & Hok).
  apply bind_ok_inv in Hok as ([] & w7 & Hinserts & Hget).
  assert (Hheap41 : w_heap w4' = w_heap w1) by congruence.
  destruct (signRelationsDataWithSeniorId_run m rels
              match get_prop "id" last with
              | Some p => Prim p
              | None => Prim PUndefined
              end w4')
    as (signed' & w6' & Hsign' & Htables6 & Hlog6 & _ & _ & Hout6).
  { rewrite Hheap41. exact (payload_arrays _ _ _ _ _ Hout1 Harrays). }
  rewrite Hsign in Hsign'. injection Hsign' as <- <-.
  destruct (relation_inserts_log m signed w6) as (w7' & Hinserts' & Hheap7 & Hlog7).
  { apply getRelationsToUpdate_names in Hrels.
    apply signRelationsDataWithSeniorId_names in Hsign.
    apply List.Forall_forall. intros r Hr. apply get_prop_is_Some.
    assert (Hname : In (relationName r) (map relationName rels))
      by (rewrite <- Hsign; now apply in_map).
    apply in_map_iff in Hname as (r0 & <- & Hr0).
    rewrite List.Forall_forall in Hrels. now apply Hrels. }
  rewrite Hinserts in Hinserts'. injection Hinserts' as <-.
  destruct (get_only_reads m match get_prop "id" last with
                             | Some p => Prim p
                             | None => Prim PUndefined
                             end w7)
    as (Hheap' & _ & Hlog').
  rewrite Hget in Hheap', Hlog'. simpl in Hheap', Hlog'.
  exists last, signed. split; [|split].
  - now rewrite <- Htables3, <- Hdata.
  - assert (Hh : w_heap w' = w_heap w6) by congruence.
    rewrite Hh. clear -Hout1 Hout6 Hheap41.
    revert signed Hout6.
    induction Hout1 as [|k r ks rels' [Hname Harr] _ IH]; intros signed Hout6;
      inversion Hout6 as [|? r' ? signed' [Hname' Harr'] Hrest]; subst;
      constructor.
    + split; [congruence|]. intros items Hitems.
      apply array_at_items_of, Harr'. rewrite Hheap41. now apply Harr.
    + now apply IH.
  - rewrite Hlog', Hlog7, Hlog6, Hlog4, Hlog3, Hlog2, Hlog1.
    assert (Hh : w_heap w6 = w_heap w') by congruence.
    rewrite Hh, <- !app_assoc. reflexivity.
Qed.
End StatementOrder.

(** X6, witness: [create({id: 1, name: "Bea", tags: [{id_tag: 5}]})] on
    [users], the adapter answering every read with user 1. *)
Lemma create_statement_order_witness :
  let C := Demo.collaborators Demo.one_user in
  let w' := snd (create (Demo.users C) (Ref 0) (Demo.world_of Demo.payload)) in
  exists signed,
    Forall2 (payload_of_key Demo.payload (w_heap w') (Ref 0)) ["tags"] signed
    /\ w_log w'
       = [QCreate "users" [("name", Prim (PStr "Bea"))]; QGetLast "users"]
         ++ relation_inserts (Demo.users C) (w_heap w') signed
         ++ [QGet "users" (Prim (PNum 1))].
Proof.
  intros C w'.
  destruct (create (Demo.users C) (Ref 0) (Demo.world_of Demo.payload))
    as [[v|e] w1] eqn:Erun; [|vm_compute in Erun; discriminate].
  destruct (create_statement_order (H := C) (Demo.users C) 0
              [("id", Prim (PNum 1)); ("name", Prim (PStr "Bea")); ("tags", Ref 1)]
              (Demo.world_of Demo.payload) w1 v)
    as (last & signed & Hlast & Hsigned & Hlog).
  - reflexivity.
  - reflexivity.
  - intros k' Hk'. vm_compute in Hk'. destruct Hk' as [<-|[]].
    exists [Ref 2], 1, []. split; reflexivity.
  - exact Erun.
  - vm_compute in Hlast. injection Hlast as <-.
    exists signed. split; [exact Hsigned | exact Hlog].
Defined.

Lemma mapM_lift_pure {A B} (f : A -> outcome B) (l : list A) :
  exists r, forall w, mapM (fun x => lift (f x)) l w = (r, w).
Proof.
  induction l as [|x rest [r IH]].
  - now exists (Ok []).
  - exists (match f x with
            | Ok y => match r with Ok ys => Ok (y :: ys) | Throw e => Throw e end
            | Throw e => Throw e
            end).
    intros w. cbn [mapM]. rewrite bind_run. unfold lift at 1.
    destruct (f x) as [y|e]; [|reflexivity].
    rewrite bind_run, IH. now destruct r.
Qed.

Lemma relation_filter_without_id {V} (names : list string)
    (props : list (string * V)) :
  ~ In "id" names ->
  List.filter (fun k => includes k names) (keys (delete_prop "id" props))
  = List.filter (fun k => includes k names) (keys props).
Proof.
  intros Hnoid. induction props as [|[k x] rest IH]; [reflexivity|].
  cbn [delete_prop keys map fst List.filter].
  destruct (String.eqb k "id") eqn:E.
  - apply String.eqb_eq in E. subst k.
    assert (Hout : includes "id" names = false).
    { destruct (includes "id" names) eqn:Ein; [|reflexivity].
      now apply includes_In in Ein. }
    rewrite Hout. exact IH.
  - cbn [keys map fst List.filter]. unfold keys in IH. now rewrite IH.
Qed.

Section UpdateOrder.
Context `{Collaborators}.
Hypothesis adapter_works : no_fault.

(** What [get] returns depends on the stored tables only. *)
Lemma get_result_of_tables (m : Model) (id : val) (w1 w2 : world) :
  w_tables w1 = w_tables w2 -> fst (get m id w1) = fst (get m id w2).
Proof.
  intros Htables. unfold get. rewrite !bind_run.
  rewrite !(runQuery_no_fault adapter_works), Htables.
  destruct (mapM_lift_pure (rawSQLToModel m)
              (answer (QueryBuilder_get m (default_null id)) (w_tables w2)))
    as [r Hr].
  rewrite !bind_run, !Hr. now destruct r.
Qed.

Lemma update_own_fields_full (m : Model) (id data : val)
    (fieldsToUpdate : row) (w : world) :
  let query := QUpdate (tableName m) id (own_props (w_heap w) data) in
  let changes := (0 <? length (keys fieldsToUpdate))%nat in
  exists w2,
    update_own_fields m id data fieldsToUpdate w = (Ok tt, w2)
    /\ w_heap w2 = w_heap w
    /\ w_tables w2
       = (if changes then run_write query (w_tables w) else w_tables w)
    /\ w_log w2 = w_log w ++ (if changes then [query] else []).
Proof.
  cbn zeta. unfold update_own_fields.
  destruct (0 <? length (keys fieldsToUpdate))%nat.
  - rewrite bind_run. cbn [the_heap]. rewrite bind_run.
    rewrite (runQuery_no_fault adapter_works). cbn [ret].
    eexists. split; [reflexivity|]. now repeat split.
  - exists w. split; [reflexivity|]. repeat split. now rewrite app_nil_r.
Qed.

Lemma delete_phase_log (m : Model) (id : val) (rels : list relation_update)
    (w : world) :
  Forall (fun r => is_Some (get_prop (relationName r) (relations m))) rels ->
  w_log (snd (mapM (update_delete_existing m id) rels w))
  = w_log w ++ relation_deletes m id rels.
Proof.
  intros Hdecl. revert w.
  induction Hdecl as [|r rest [relation Hrel] _ IH]; intros w.
  - simpl. now rewrite app_nil_r.
  - cbn [mapM]. rewrite bind_run. unfold update_delete_existing at 1.
    rewrite bind_run. unfold attempt. rewrite bind_run.
    unfold relation_named. rewrite Hrel. cbn [ret].
    rewrite (runQuery_no_fault adapter_works). cbn [ret].
    match goal with
    | |- context [bind _ _ ?w0] => specialize (IH w0); rewrite bind_run
    end.
    destruct (mapM (update_delete_existing m id) rest _) as [[deleted|e] w1];
      simpl in IH |- *; rewrite IH; cbn [w_log]; rewrite <- app_assoc;
      unfold relation_deletes, QueryBuilder_deleteExistingRelation, table_of,
        stamp_key; cbn [map app]; now rewrite Hrel.
Qed.

Lemma insert_phase_callbacks (m : Model)
    (deleted : list (relation_update * outcome (list raw_row))) (w : world) :
  Forall (fun d => exists rows, snd d = Ok rows) deleted ->
  forEach (update_insert_new m) deleted w
  = forEach (fun r =>
               detached
                 (let* relation := relation_named m (relationName r) in
                  assignRelationData m relation (relationData r)))
            (map fst deleted) w.
Proof.
  intros Hok. revert w.
  induction Hok as [|[r answered] rest [rows Hrows] _ IH]; intros w;
    [reflexivity|].
  simpl in Hrows. subst answered. cbn [forEach map fst].
  rewrite !bind_run. cbn [update_insert_new].
  destruct (detached _ w) as [[[]|e] w1]; [apply IH | reflexivity].
Qed.

(** The relation writes of [update]: the DELETEs, the get, the INSERTs. *)
Lemma update_relations_full (m : Model) (id : val)
    (rels : list relation_update) (w : world) :
  Forall (fun r => is_Some (get_prop (relationName r) (relations m))) rels ->
  let w' := snd (update_relations m id rels w) in
  w_heap w' = w_heap w
  /\ w_log w'
     = w_log w ++ relation_deletes m id rels
       ++ [QGet (tableName m) (default_null id)]
       ++ relation_inserts m (w_heap w) rels
  /\ forall w_mid,
       w_tables w_mid = fold_left (delete_existing m id) rels (w_tables w) ->
       fst (update_relations m id rels w) = fst (get m id w_mid).
Proof.
  intros Hdecl. cbn zeta. unfold update_relations. rewrite bind_run.
  pose proof (delete_phase_log m id rels w Hdecl) as Hlog1.
  destruct (delete_phase adapter_works m id rels w Hdecl)
    as (deleted & w1 & Hrun & Hfst & Hok & Hheap1 & Htables1).
  rewrite Hrun in Hlog1 |- *. simpl in Hlog1. rewrite bind_run. unfold attempt.
  destruct (get_only_reads m id w1) as (Hheap2 & _ & Hlog2).
  assert (Hresult : forall w_mid, w_tables w_mid = w_tables w1 ->
            fst (get m id w1) = fst (get m id w_mid))
    by (intros w_mid Hmid; now apply get_result_of_tables).
  destruct (get m id w1) as [result w2]. simpl in Hheap2, Hlog2, Hresult.
  rewrite bind_run, (insert_phase_callbacks m deleted w2 Hok), Hfst.
  destruct (relation_inserts_log m rels w2 Hdecl) as (w3 & Hins & Hheap3 & Hlog3).
  rewrite Hins. unfold lift. simpl. split; [congruence|]. split.
  - rewrite Hlog3, Hlog2, Hlog1, Hheap2, Hheap1, <- !app_assoc. reflexivity.
  - intros w_mid Hmid. apply Hresult. congruence.
Qed.

End UpdateOrder.

Section UpdateOrderTheorem.
Context `{Collaborators}.

(** X7: on a payload whose relation payloads are accepted, and with an
    adapter that does not fail, [update(id, data)] hands to the adapter, in
    this order and nothing else: the UPDATE built from the whole payload as
    [update] leaves it (only when the payload has an updateable field);
    one DELETE per declared relation of the payload; the get by [id]; and
    only then one INSERT per row of the relation payloads.  So the entity
    that [update] returns is the one read from the store where the old
    relation rows of [id] are deleted and the new ones are not yet
    inserted.  (For a payload object whose declared relation payloads are
    arrays, no relation being named [id] and the stamp key [id_<name>]
    being a plain property name.) *)
Theorem update_statement_order (m : Model) (id : val) (l : nat)
    (props : list (string * val)) (w : world) :
  no_fault ->
  plain_key (stamp_key m) = true ->
  ~ In "id" (keys (relations m)) ->
  w_heap w !! l = Some (Obj props) ->
  (forall k, In k (relation_keys m (w_heap w) (Ref l)) ->
     exists items, array_at (w_heap w) (read_prop (w_heap w) (Ref l) k) items) ->
  (forall rels w1,
     getRelationsToUpdate m (Ref l) id
       {| w_heap := <[l := Obj (delete_prop "id" props)]> (w_heap w);
          w_tables := w_tables w; w_log := w_log w |} = (Ok rels, w1) ->
     Forall (accepted m (w_heap w1)) rels) ->
  let w' := snd (update m id (Ref l) w) in
  let query := QUpdate (tableName m) id (own_props (w_heap w') (Ref l)) in
  let fieldsToUpdate :=
    pick (<[l := Obj (delete_prop "id" props)]> (w_heap w)) (Ref l)
         (updateableFields m) in
  let changes := (0 <? length (keys fieldsToUpdate))%nat in
  exists rels,
    Forall2 (payload_of_key (w_heap w) (w_heap w') (Ref l))
            (relation_keys m (w_heap w) (Ref l)) rels
    /\ w_log w'
       = w_log w ++ (if changes then [query] else [])
         ++ relation_deletes m id rels
         ++ [QGet (tableName m) (default_null id)]
         ++ relation_inserts m (w_heap w') rels
    /\ (forall w_mid,
          w_tables w_mid
          = fold_left (delete_existing m id) rels
              (if changes then run_write query (w_tables w) else w_tables w) ->
          fst (update m id (Ref l) w) = fst (get m id w_mid))
    /\ w_tables w'
       = fold_left (insert_new m (w_heap w')) rels
           (fold_left (delete_existing m id) rels
              (if changes then run_write query (w_tables w) else w_tables w)).
Proof.
  intros adapter_works _ Hnoid Hl Harrays Haccepted w' query fieldsToUpdate
    changes.
  set (h0 := <[l := Obj (delete_prop "id" props)]> (w_heap w)) in *.
  set (w0 := {| w_heap := h0; w_tables := w_tables w; w_log := w_log w |}) in *.
  destruct (payload_without_id m l props (w_heap w) Hl)
    as (Hkeys & Hread & Harr0 & _ & Hkeys0).
  fold h0 in Hkeys, Hread, Harr0, Hkeys0.
  assert (Hsamekeys : relation_keys m h0 (Ref l)
                      = relation_keys m (w_heap w) (Ref l)).
  { rewrite Hkeys0. unfold relation_keys, own_props. rewrite Hl.
    now apply relation_filter_without_id. }
  assert (Hnotid : forall k, In k (relation_keys m (w_heap w) (Ref l)) ->
            k <> "id").
  { intros k Hk. rewrite <- Hsamekeys in Hk. now apply Hkeys in Hk. }
  destruct (getRelationsToUpdate_run m (Ref l) id w0 eq_refl)
    as (rels & w1 & Hrun & Htables1 & Hlog1 & Hst & _ & Hout).
  { change (w_heap w0) with h0. rewrite Hsamekeys. intros k Hk.
    rewrite (Hread k (Hnotid k Hk)).
    destruct (Harrays k Hk) as [items Hitems]. exists items. now apply Harr0. }
  change (w_heap w0) with h0 in Hst, Hout. rewrite Hsamekeys in Hout.
  pose proof (Haccepted rels w1 Hrun) as Hacc.
  assert (Hdecl : Forall (fun r => is_Some (get_prop (relationName r) (relations m)))
                         rels).
  { eapply Forall_impl; [exact Hacc|]. intros r (relation & Hr & _).
    now exists relation. }
  assert (Hupdate : update m id (Ref l) w
                    = update_write m id (Ref l)
                        (pick h0 (Ref l) (updateableFields m)) rels w1)
    by exact (update_run m id l props w Hl rels w1 Hrun Hacc).
  unfold update_write in Hupdate. rewrite bind_run in Hupdate.
  destruct (update_own_fields_full adapter_works m id (Ref l)
              (pick h0 (Ref l) (updateableFields m)) w1)
    as (w2 & Hown & Hheap2 & Htables2 & Hlog2).
  rewrite Hown in Hupdate.
  destruct (update_relations_full adapter_works m id rels w2 Hdecl)
    as (Hheap' & Hlog' & Hresult).
  pose proof (update_relations_run adapter_works m id rels w2 Hdecl)
    as [_ Htables'].
  rewrite <- Hupdate in Hheap', Hlog', Hresult, Htables'.
  fold w' in Hheap', Hlog', Htables'.
  assert (Hh' : w_heap w' = w_heap w1) by congruence.
  exists rels. split; [|split; [|split]].
  - clear -Hout Hh' Hread Harr0 Hnotid.
    induction Hout as [|k r ks rels' [Hname Harr] _ IH]; constructor.
    + split; [exact Hname|]. intros items Hitems. rewrite Hh'.
      apply array_at_items_of, Harr.
      rewrite (Hread k (Hnotid k (or_introl eq_refl))). now apply Harr0.
    + apply IH. intros k' Hk'. apply Hnotid. now right.
  - rewrite Hlog', Hlog2, Hlog1, Hheap2, <- Hh', <- !app_assoc. reflexivity.
  - intros w_mid Hmid. apply Hresult.
    rewrite Hmid, Htables2, Htables1, <- Hh'. reflexivity.
  - rewrite Htables', Htables2, Htables1, Hheap2, <- Hh'. reflexivity.
Qed.
End UpdateOrderTheorem.

(** X7, witness: [update("1", {id: 1, name: "Bea", tags: [{id_tag: 5}]})]:
    the UPDATE, the DELETE of the [tags] rows of user 1, the get, and then
    the INSERT of the new row. *)
Lemma update_statement_order_witness :
  let C := Demo.collaborators Demo.one_user in
  let w' := snd (update (Demo.users C) (Prim (PStr "1")) (Ref 0)
                   (Demo.world_of Demo.payload)) in
  exists rels,
    Forall2 (payload_of_key Demo.payload (w_heap w') (Ref 0)) ["tags"] rels
    /\ w_log w'
       = [QUpdate "users" (Prim (PStr "1")) (own_props (w_heap w') (Ref 0))]
         ++ relation_deletes (Demo.users C) (Prim (PStr "1")) rels
         ++ [QGet "users" (Prim (PStr "1"))]
         ++ relation_inserts (Demo.users C) (w_heap w') rels.
Proof.
  intros C w'.
  destruct (update_statement_order (H := C) (Demo.users C)
              (Prim (PStr "1")) 0
              [("id", Prim (PNum 1)); ("name", Prim (PStr "Bea")); ("tags", Ref 1)]
              (Demo.world_of Demo.payload))
    as (rels & Hrels & Hlog & _).
  - intros query db. reflexivity.
  - reflexivity.
  - simpl. intuition discriminate.
  - reflexivity.
  - intros k' Hk'. vm_compute in Hk'. destruct Hk' as [<-|[]].
    exists [Ref 2], 1, []. split; reflexivity.
  - intros rels w1 Hrun. vm_compute in Hrun. injection Hrun as <- <-.
    repeat constructor. eexists. split; reflexivity.
  - exists rels. split; [exact Hrels | exact Hlog].
Defined.

(** ** [update] with nothing to write *)


(** ** [update] with nothing to write *)

Lemma pick_nothing (h : heap) (object : val) (paths : list string) :
  (forall path, In path paths -> get_prop path (own_props h object) = None) ->
  pick h object paths = [].
Proof.
  intros Hnone. unfold pick.
  assert (Hgen : forall result,
            fold_left
              (fun result path =>
                 match get_prop path (own_props h object) with
                 | Some v => set_prop path v result
                 | None => result
                 end)
              paths result
            = result); [|apply Hgen].
  induction paths as [|path rest IH]; intros result; cbn [fold_left];
    [reflexivity|].
  rewrite (Hnone path (or_introl eq_refl)). apply IH.
  intros path' Hpath'. apply Hnone. now right.
Qed.

Lemma filter_nothing {X} (f : X -> bool) (l : list X) :
  Forall (fun x => f x = false) l -> List.filter f l = [].
Proof.
  induction 1 as [|x rest Hx _ IH]; [reflexivity|]. simpl. now rewrite Hx.
Qed.

Section UpdateWithoutChanges.
Context `{Collaborators}.

(** [update] once [id] is removed from a payload that has nothing to
    write. *)
Lemma update_nothing_to_write (m : Model) (id data : val) (w0 : world) :
  (forall k, In k (keys (own_props (w_heap w0) data)) ->
     ~ In k (updateableFields m) /\ ~ In k (keys (relations m))) ->
  is_nullish data = false ->
  (let* fieldsToUpdate := getValidFields m data in
   let* relationsToUpdate := getRelationsToUpdate m data id in
   forEach (update_validate m) relationsToUpdate ;;;
   update_write m id data fieldsToUpdate relationsToUpdate) w0
  = get m id w0.
Proof.
  intros Hleft Hdata.
  assert (Hpick : pick (w_heap w0) data (updateableFields m) = []).
  { apply pick_nothing. intros path Hpath.
    apply get_prop_None. intros Hin. destruct (Hleft path Hin) as [Hnot _].
    now apply Hnot. }
  assert (Hrels : getRelationsToUpdate m data id w0 = (Ok [], w0)).
  { unfold getRelationsToUpdate. rewrite bind_run. cbn [the_heap].
    rewrite Hdata, filter_nothing; [reflexivity|].
    apply List.Forall_forall. intros k Hk.
    destruct (includes k (keys (relations m))) eqn:E; [|reflexivity].
    apply includes_In in E. now destruct (Hleft k Hk). }
  rewrite bind_run. unfold getValidFields at 1. rewrite bind_run.
  cbn [the_heap ret]. rewrite Hpick, bind_run, Hrels.
  cbn [forEach]. rewrite bind_run. cbn [ret].
  unfold update_write, update_own_fields, update_relations.
  cbn [keys map length Nat.ltb Nat.leb mapM forEach].
  cbv beta iota zeta delta [bind ret attempt lift mapM forEach].
  now destruct (get m id w0) as [[v|e] w1].
Qed.

(** X8: when the payload holds, apart from [id], no updateable field and
    no declared relation, [update(id, data)] writes nothing: once it has
    removed [id] from the payload it is [get(id)], the one statement it
    hands to the adapter.  This holds whatever the adapter answers. *)
Theorem update_without_changes_is_get (m : Model) (id : val) (l : nat)
    (props : list (string * val)) (w : world) :
  w_heap w !! l = Some (Obj props) ->
  Forall (fun k => k = "id"
                   \/ (~ In k (updateableFields m)
                       /\ ~ In k (keys (relations m))))
         (keys props) ->
  update m id (Ref l) w
  = get m id {| w_heap := <[l := Obj (delete_prop "id" props)]> (w_heap w);
                w_tables := w_tables w; w_log := w_log w |}.
Proof.
  intros Hl Hkeys.
  set (w0 := {| w_heap := <[l := Obj (delete_prop "id" props)]> (w_heap w);
                w_tables := w_tables w; w_log := w_log w |}).
  assert (Hprops : own_props (w_heap w0) (Ref l) = delete_prop "id" props).
  { unfold own_props, w0. cbn [w_heap].
    rewrite list_lookup_insert_eq by (now apply lookup_lt_Some in Hl).
    reflexivity. }
  rewrite update_stages, bind_run. cbn [default_object ret].
  rewrite bind_run. cbn [is_nullish]. rewrite bind_run. cbn [the_heap].
  unfold heap_delete. rewrite Hl. cbn [map_cell_props put_heap]. fold w0.
  apply update_nothing_to_write; [|reflexivity].
  rewrite Hprops. intros k Hk. apply keys_delete_prop in Hk as [Hk Hne].
  rewrite List.Forall_forall in Hkeys. destruct (Hkeys k Hk); tauto.
Qed.

Lemma filter_everything {X} (f : X -> bool) (l : list X) :
  Forall (fun x => f x = true) l -> List.filter f l = l.
Proof.
  induction 1 as [|x rest Hx _ IH]; [reflexivity|]. simpl.
  now rewrite Hx, IH.
Qed.

(** X12: [create()] and [update(id)] without a payload run on a fresh
    empty object: [update] then is [get(id)] and writes nothing; [create],
    for an entity with required fields, fails with [InvalidModelInput]
    listing every required field, and hands nothing to the adapter. *)
Theorem calls_without_payload (m : Model) (id : val) (w : world) :
  let w0 := {| w_heap := w_heap w ++ [Obj []]; w_tables := w_tables w;
               w_log := w_log w |} in
  update m id (Prim PUndefined) w = get m id w0
  /\ (requiredFields m <> [] ->
      create m (Prim PUndefined) w
      = (Throw (InvalidModelInputError (requiredFields m)), w0)).
Proof.
  intros w0.
  assert (Hfresh : w_heap w0 !! length (w_heap w) = Some (Obj []))
    by (unfold w0; cbn [w_heap]; now rewrite list_lookup_middle).
  assert (Hpick : pick (w_heap w0) (Ref (length (w_heap w))) (updateableFields m)
                  = []).
  { apply pick_nothing. intros path _. unfold own_props. now rewrite Hfresh. }
  split.
  - rewrite update_stages, bind_run. cbn [default_object alloc]. fold w0.
    rewrite bind_run. cbn [is_nullish]. rewrite bind_run. cbn [the_heap].
    unfold heap_delete. rewrite Hfresh. cbn [map_cell_props put_heap delete_prop].
    rewrite (list_insert_id _ _ _ Hfresh).
    change {| w_heap := w_heap w0; w_tables := w_tables w0; w_log := w_log w0 |}
      with w0.
    apply update_nothing_to_write; [|reflexivity].
    unfold own_props. rewrite Hfresh. intros k [].
  - intros Hrequired.
    assert (Hstart : create m (Prim PUndefined) w
                     = create m (Ref (length (w_heap w))) w0)
      by reflexivity.
    rewrite Hstart.
    destruct (create_run m (Ref (length (w_heap w))) w0)
      as (data' & w1 & Hdef & _ & _ & Hcreate).
    injection Hdef as <- <-. rewrite Hcreate.
    assert (Hrels : getRelationsToUpdate m (Ref (length (w_heap w)))
                      (Prim PNull) w0 = (Ok [], w0)).
    { unfold getRelationsToUpdate. rewrite bind_run. cbn [the_heap is_nullish].
      unfold own_props. now rewrite Hfresh. }
    rewrite Hrels. cbn [forEach ret].
    assert (Hmissing : missing_required m (w_heap w0) (Ref (length (w_heap w)))
                       = requiredFields m).
    { unfold missing_required. rewrite Hpick. apply filter_everything.
      now apply List.Forall_forall. }
    rewrite Hmissing. destruct (requiredFields m); [contradiction|reflexivity].
Qed.
End UpdateWithoutChanges.

(** X12, witness: [create()] on [users], whose only required field is
    [name]. *)
Lemma calls_without_payload_witness :
  let C := Demo.collaborators Demo.one_user in
  create (Demo.users C) (Prim PUndefined) (Demo.world_of [])
  = (Throw (InvalidModelInputError ["name"]), Demo.world_of [Obj []]).
Proof.
  intros C.
  destruct (calls_without_payload (H := C) (Demo.users C) (Prim PNull)
              (Demo.world_of [])) as [_ Hcreate].
  apply Hcreate. discriminate.
Defined.

(** X8, witness: [update("1", {id: 1, created_at: "2020-01-01"})] on
    [users]. *)
Lemma update_without_changes_is_get_witness :
  let C := Demo.collaborators Demo.one_user in
  let h := [Obj [("id", Prim (PNum 1));
                 ("created_at", Prim (PStr "2020-01-01"))]] in
  update (Demo.users C) (Prim (PStr "1")) (Ref 0) (Demo.world_of h)
  = get (Demo.users C) (Prim (PStr "1"))
      (Demo.world_of [Obj [("created_at", Prim (PStr "2020-01-01"))]]).
Proof.
  intros C h.
  apply (update_without_changes_is_get (H := C) (Demo.users C)
           (Prim (PStr "1")) 0
           [("id", Prim (PNum 1)); ("created_at", Prim (PStr "2020-01-01"))]
           (Demo.world_of h)).
  - reflexivity.
  - repeat apply List.Forall_cons; try apply List.Forall_nil.
    + now left.
    + right. simpl. intuition discriminate.
Defined.

(** ** Relation payloads are checked before anything is written *)

Section ValidationFirst.
Context `{Collaborators}.

Lemma validate_all_rejected (step : relation_update -> M unit) (m : Model)
    (rels : list relation_update) (w : world) :
  (forall r relation w0,
     get_prop (relationName r) (relations m) = Some relation ->
     step r w0 = validate relation (relationData r) w0) ->
  Forall (fun r => In (relationName r) (keys (relations m))) rels ->
  Exists (fun r => exists what, rejected m (w_heap w) r what) rels ->
  exists r what,
    In r rels /\ rejected m (w_heap w) r what
    /\ forEach step rels w = (Throw (RelationValidationFailure what), w).
Proof.
  intros Hstep Hdecl. induction Hdecl as [|r rest Hr _ IH]; intros Hrej.
  - inversion Hrej.
  - destruct (get_prop_is_Some _ _ Hr) as [relation Hrel].
    cbn [forEach]. rewrite bind_run, (Hstep r relation w Hrel).
    unfold validate. rewrite bind_run. cbn [the_heap].
    destruct (validateDataForCreate relation (w_heap w) (relationData r))
      as [what|] eqn:Evalid.
    + exists r, what. split; [now left|]. split; [now exists relation|].
      reflexivity.
    + destruct IH as (r' & what & Hin & Hrejected & Hrun).
      * inversion Hrej as [? ? (what & relation' & Hrel' & Hwhat)|]; subst;
          [congruence | assumption].
      * exists r', what. split; [now right|]. split; assumption.
Qed.

Lemma update_validate_step (m : Model) (r : relation_update)
    (relation : Relationship) (w : world) :
  get_prop (relationName r) (relations m) = Some relation ->
  update_validate m r w = validate relation (relationData r) w.
Proof.
  intros Hrel. unfold update_validate, relation_named.
  now rewrite bind_run, Hrel.
Qed.

Lemma create_validate_step (m : Model) (r : relation_update)
    (relation : Relationship) (w : world) :
  get_prop (relationName r) (relations m) = Some relation ->
  create_validate m r w = validate relation (relationData r) w.
Proof. intros Hrel. unfold create_validate. now rewrite Hrel. Qed.

(** X9: [update] validates every relation payload before it hands
    anything to the adapter: when the validation of one of them rejects
    it, [update] fails with that validation's error, no statement has been
    issued and the stored tables are as they were (the payload has already
    lost its [id] and its rows are already stamped). *)
Theorem update_validates_before_writing (m : Model) (id : val) (l : nat)
    (props : list (string * val)) (w : world)
    (rels : list relation_update) (w1 : world) :
  w_heap w !! l = Some (Obj props) ->
  getRelationsToUpdate m (Ref l) id
    {| w_heap := <[l := Obj (delete_prop "id" props)]> (w_heap w);
       w_tables := w_tables w; w_log := w_log w |} = (Ok rels, w1) ->
  Exists (fun r => exists what, rejected m (w_heap w1) r what) rels ->
  exists r what,
    In r rels /\ rejected m (w_heap w1) r what
    /\ update m id (Ref l) w = (Throw (RelationValidationFailure what), w1)
    /\ w_log w1 = w_log w /\ w_tables w1 = w_tables w.
Proof.
  intros Hl Hrels Hrejected.
  destruct (validate_all_rejected (update_validate m) m rels w1
              (update_validate_step m)
              (getRelationsToUpdate_names _ _ _ _ _ _ Hrels) Hrejected)
    as (r & what & Hin & Hrej & Hrun).
  exists r, what. split; [exact Hin|]. split; [exact Hrej|].
  destruct (keeps_store_getRelationsToUpdate m (Ref l) id
              {| w_heap := <[l := Obj (delete_prop "id" props)]> (w_heap w);
                 w_tables := w_tables w; w_log := w_log w |}) as [Ht Hlog].
  rewrite Hrels in Ht, Hlog. simpl in Ht, Hlog.
  split; [|now split].
  rewrite update_stages, bind_run. cbn [default_object ret].
  rewrite bind_run. cbn [is_nullish]. rewrite bind_run. cbn [the_heap].
  unfold heap_delete. rewrite Hl. cbn [map_cell_props put_heap].
  rewrite bind_run. unfold getValidFields at 1. rewrite bind_run.
  cbn [the_heap ret]. rewrite bind_run, Hrels, bind_run, Hrun. reflexivity.
Qed.

(** X10: so does [create], and before it looks at the required fields:
    when the validation of a relation payload rejects it, [create] fails
    with that validation's error, whether or not a required field is
    missing, and no statement has been issued. *)
Theorem create_validates_before_writing (m : Model) (l : nat) (w : world)
    (rels : list relation_update) (w1 : world) :
  getRelationsToUpdate m (Ref l) (Prim PNull) w = (Ok rels, w1) ->
  Exists (fun r => exists what, rejected m (w_heap w1) r what) rels ->
  exists r what,
    In r rels /\ rejected m (w_heap w1) r what
    /\ create m (Ref l) w = (Throw (RelationValidationFailure what), w1)
    /\ w_log w1 = w_log w /\ w_tables w1 = w_tables w.
Proof.
  intros Hrels Hrejected.
  destruct (validate_all_rejected (create_validate m) m rels w1
              (create_validate_step m)
              (getRelationsToUpdate_names _ _ _ _ _ _ Hrels) Hrejected)
    as (r & what & Hin & Hrej & Hrun).
  exists r, what. split; [exact Hin|]. split; [exact Hrej|].
  destruct (keeps_store_getRelationsToUpdate m (Ref l) (Prim PNull) w)
    as [Ht Hlog].
  rewrite Hrels in Ht, Hlog. simpl in Ht, Hlog.
  split; [|now split].
  destruct (create_run m (Ref l) w) as (data' & w0 & Hdef & _ & _ & Hcreate).
  injection Hdef as <- <-. now rewrite Hcreate, Hrels, Hrun.
Qed.
End ValidationFirst.

(** X9, witness: [update("1", {name: "Bea", roles: []})] when [roles]
    wants at least one row. *)
Lemma update_validates_before_writing_witness :
  let C := Demo.collaborators Demo.one_user in
  let w := Demo.world_of Sample.without_roles in
  fst (update (Sample.members C) (Prim (PStr "1")) (Ref 0) w)
  = Throw (RelationValidationFailure "roles: at least one row is required")
  /\ w_log (snd (update (Sample.members C) (Prim (PStr "1")) (Ref 0) w)) = [].
Proof.
  intros C w.
  destruct (getRelationsToUpdate (Sample.members C) (Ref 0) (Prim (PStr "1")) w)
    as [[rels|e] w1] eqn:Erels; [|vm_compute in Erels; discriminate].
  destruct (update_validates_before_writing (H := C) (Sample.members C)
              (Prim (PStr "1")) 0
              [("name", Prim (PStr "Bea")); ("roles", Ref 1)] w rels w1)
    as (r & what & Hin & (relation & Hrel & Hwhat) & Hrun & Hlog & _).
  - reflexivity.
  - exact Erels.
  - vm_compute in Erels. injection Erels as <- <-.
    apply Exists_cons_hd. eexists. exists Sample.roles. split; reflexivity.
  - rewrite Hrun. split; [|exact Hlog]. cbn [fst].
    vm_compute in Erels. injection Erels as <- <-.
    destruct Hin as [<-|[]]. vm_compute in Hrel. injection Hrel as <-.
    vm_compute in Hwhat. injection Hwhat as <-. reflexivity.
Defined.

(** X10, witness: [create({name: "Bea", roles: []})]. *)
Lemma create_validates_before_writing_witness :
  let C := Demo.collaborators Demo.one_user in
  let w := Demo.world_of Sample.without_roles in
  fst (create (Sample.members C) (Ref 0) w)
  = Throw (RelationValidationFailure "roles: at least one row is required")
  /\ w_log (snd (create (Sample.members C) (Ref 0) w)) = [].
Proof.
  intros C w.
  destruct (getRelationsToUpdate (Sample.members C) (Ref 0) (Prim PNull) w)
    as [[rels|e] w1] eqn:Erels; [|vm_compute in Erels; discriminate].
  destruct (create_validates_before_writing (H := C) (Sample.members C) 0
              w rels w1)
    as (r & what & Hin & (relation & Hrel & Hwhat) & Hrun & Hlog & _).
  - exact Erels.
  - vm_compute in Erels. injection Erels as <- <-.
    apply Exists_cons_hd. eexists. exists Sample.roles. split; reflexivity.
  - rewrite Hrun. split; [|exact Hlog]. cbn [fst].
    vm_compute in Erels. injection Erels as <- <-.
    destruct Hin as [<-|[]]. vm_compute in Hrel. injection Hrel as <-.
    vm_compute in Hwhat. injection Hwhat as <-. reflexivity.
Defined.

(** ** A relation payload that is no array *)

Lemma no_array_stamps (key : string) (id : val) (h h' : heap) (v : val) :
  heap_stamps key id h h' -> no_array h v -> no_array h' v.
Proof.
  intros [_ Hcells]. destruct v as [p|a]; [trivial|]. intros [props Ha].
  destruct (Hcells a _ Ha) as (c' & Hc' & [->| ->]); eexists; exact Hc'.
Qed.

Section NoArray.
Context `{Collaborators}.

Lemma array_items_no_array (v : val) (w : world) :
  no_array (w_heap w) v ->
  exists what, array_items v w = (Throw (TypeError what), w).
Proof.
  unfold array_items. rewrite bind_run. cbn [the_heap].
  destruct v as [p|a].
  - intros _. destruct p; eexists; reflexivity.
  - intros [props Ha]. rewrite Ha. eexists. reflexivity.
Qed.

(** One relation payload is stamped, or it is rejected with a
    [TypeError]; the store is not touched. *)
Lemma sign_one_run (m : Model) (id : val) (r : relation_update) (w : world) :
  let sign_one relation :=
    let* entries := array_items (relationData relation) in
    let* stamped :=
      mapM (fun relationEntry =>
              let* h := the_heap in
              put_heap (heap_set h relationEntry (stamp_key m) id) ;;;
              ret relationEntry)
           entries in
    let* fresh := alloc (Arr stamped []) in
    ret {| relationName := relationName relation; relationData := fresh |} in
  (exists what, sign_one r w = (Throw (TypeError what), w))
  \/ (exists r' w',
        sign_one r w = (Ok r', w')
        /\ w_tables w' = w_tables w /\ w_log w' = w_log w
        /\ heap_stamps (stamp_key m) id (w_heap w) (w_heap w')).
Proof.
  cbn beta zeta. rewrite bind_run.
  assert (Hitems : (exists what,
                      array_items (relationData r) w = (Throw (TypeError what), w))
                   \/ exists items,
                        array_items (relationData r) w = (Ok items, w)).
  { unfold array_items. rewrite bind_run. cbn [the_heap].
    destruct (relationData r) as [p|a];
      [left; destruct p; eexists; reflexivity|].
    destruct (w_heap w !! a) as [[props|items props]|];
      [left; eexists; reflexivity | right; now exists items
      | left; eexists; reflexivity]. }
  destruct Hitems as [[what Hthrow]|[items Hitems]];
    [left; exists what; now rewrite Hthrow|].
  right. rewrite Hitems, bind_run.
  destruct (stamp_entries_run (stamp_key m) id items w)
    as (w2 & Hrun & Htables & Hlog & Hst & _).
  rewrite Hrun, bind_run. cbn [alloc ret].
  eexists _, _. split; [reflexivity|]. cbn [w_tables w_log w_heap].
  split; [exact Htables|]. split; [exact Hlog|].
  eapply heap_stamps_trans; [exact Hst | apply heap_stamps_alloc].
Qed.

Lemma sign_no_array (m : Model) (id : val) (data : list relation_update)
    (w : world) :
  Exists (fun r => no_array (w_heap w) (relationData r)) data ->
  exists what w',
    signRelationsDataWithSeniorId m data id w = (Throw (TypeError what), w')
    /\ w_tables w' = w_tables w /\ w_log w' = w_log w.
Proof.
  revert w. induction data as [|r rest IH]; intros w Hex; [inversion Hex|].
  unfold signRelationsDataWithSeniorId. cbn [mapM]. rewrite bind_run.
  destruct (sign_one_run m id r w) as [[what Hthrow]|(r' & w1 & Hok & Ht & Hl & Hst)].
  - cbn zeta in Hthrow. rewrite Hthrow. now exists what, w.
  - cbn zeta in Hok. rewrite Hok, bind_run.
    destruct (IH w1) as (what & w' & Hrun & Ht' & Hl').
    + inversion Hex as [? ? Hhead|? ? Htail]; subst.
      * exfalso. destruct (array_items_no_array _ w Hhead) as [what Hthrow].
        rewrite bind_run, Hthrow in Hok. discriminate.
      * eapply List.Exists_impl; [|exact Htail]. intros r0.
        now apply no_array_stamps with (key := stamp_key m) (id := id).
    + unfold signRelationsDataWithSeniorId in Hrun. rewrite Hrun.
      exists what, w'. split; [reflexivity|]. split; congruence.
Qed.

Lemma getRelationsToUpdate_no_array (m : Model) (data signingId : val)
    (k : string) (w : world) :
  is_nullish data = false ->
  In k (relation_keys m (w_heap w) data) ->
  no_array (w_heap w) (read_prop (w_heap w) data k) ->
  exists what w',
    getRelationsToUpdate m data signingId w = (Throw (TypeError what), w')
    /\ w_tables w' = w_tables w /\ w_log w' = w_log w.
Proof.
  intros Hdata Hk Hno. unfold getRelationsToUpdate. rewrite bind_run.
  cbn [the_heap]. rewrite Hdata. apply sign_no_array.
  apply List.Exists_exists.
  exists {| relationName := k; relationData := read_prop (w_heap w) data k |}.
  split; [|exact Hno].
  now apply (in_map (fun relationName =>
                       {| relationName := relationName;
                          relationData := read_prop (w_heap w) data relationName |})).
Qed.

(** X11: when the payload holds, under the name of a declared relation,
    something that is no array (a scalar, [null], an object), [create] and
    [update] fail with a [TypeError], and no statement has been handed to
    the adapter. *)
Theorem relation_payload_must_be_array (m : Model) (id : val) (l : nat)
    (props : list (string * val)) (k : string) (w : world) :
  w_heap w !! l = Some (Obj props) ->
  In k (relation_keys m (w_heap w) (Ref l)) ->
  k <> "id" ->
  no_array (w_heap w) (read_prop (w_heap w) (Ref l) k) ->
  (exists what w',
     create m (Ref l) w = (Throw (TypeError what), w')
     /\ w_log w' = w_log w /\ w_tables w' = w_tables w)
  /\ (exists what w',
        update m id (Ref l) w = (Throw (TypeError what), w')
        /\ w_log w' = w_log w /\ w_tables w' = w_tables w).
Proof.
  intros Hl Hk Hne Hno. split.
  - destruct (getRelationsToUpdate_no_array m (Ref l) (Prim PNull) k w
                eq_refl Hk Hno) as (what & w' & Hrun & Ht & Hlog).
    exists what, w'. split; [|now split].
    destruct (create_run m (Ref l) w) as (data' & w0 & Hdef & _ & _ & Hcreate).
    injection Hdef as <- <-. now rewrite Hcreate, Hrun.
  - set (h0 := <[l := Obj (delete_prop "id" props)]> (w_heap w)).
    set (w0 := {| w_heap := h0; w_tables := w_tables w; w_log := w_log w |}).
    destruct (payload_without_id m l props (w_heap w) Hl)
      as (Hkeys & Hread & _).
    fold h0 in Hkeys, Hread.
    destruct (getRelationsToUpdate_no_array m (Ref l) id k w0 eq_refl)
      as (what & w' & Hrun & Ht & Hlog).
    + apply Hkeys. now split.
    + change (w_heap w0) with h0. rewrite (Hread k Hne).
      destruct (read_prop (w_heap w) (Ref l) k) as [p|a]; [exact I|].
      destruct Hno as [ps Ha]. unfold h0. simpl.
      destruct (decide (a = l)) as [->|Hal].
      * rewrite list_lookup_insert_eq by (now apply lookup_lt_Some in Hl).
        eexists. reflexivity.
      * rewrite list_lookup_insert_ne by congruence. now exists ps.
    + exists what, w'. split; [|now split].
      rewrite update_stages, bind_run. cbn [default_object ret].
      rewrite bind_run. cbn [is_nullish]. rewrite bind_run. cbn [the_heap].
      unfold heap_delete. rewrite Hl. cbn [map_cell_props put_heap].
      fold h0. fold w0.
      rewrite bind_run. unfold getValidFields at 1. rewrite bind_run.
      cbn [the_heap ret]. now rewrite bind_run, Hrun.
Qed.
End NoArray.

(** X11, witness: [{name: "Bea", tags: {id_tag: 5}}]. *)
Lemma relation_payload_must_be_array_witness :
  let C := Demo.collaborators Demo.one_user in
  let w := Demo.world_of Sample.tags_as_object in
  (exists what w',
     create (Demo.users C) (Ref 0) w = (Throw (TypeError what), w')
     /\ w_log w' = [])
  /\ (exists what w',
        update (Demo.users C) (Prim (PStr "1")) (Ref 0) w
        = (Throw (TypeError what), w')
        /\ w_log w' = []).
Proof.
  intros C w.
  destruct (relation_payload_must_be_array (H := C) (Demo.users C)
              (Prim (PStr "1")) 0
              [("name", Prim (PStr "Bea")); ("tags", Ref 1)] "tags" w)
    as [(what & w' & Hrun & Hlog & _) (what2 & w2 & Hrun2 & Hlog2 & _)].
  - reflexivity.
  - vm_compute. now left.
  - discriminate.
  - eexists. reflexivity.
  - split; [exists what, w' | exists what2, w2]; now split.
Defined.

(** ** [DELETE /{tableName}/:id] on an entity that exists *)

Section DeleteRoute.
Context `{Collaborators}.

(** X13: when the lookup finds the entity and the adapter does not fail on
    the DELETE, the DELETE route hands the adapter the lookup and then the
    one DELETE of the entity's own row, answers 200 with
    [{"success": true}], and leaves the request body alone. *)
Theorem delete_route_on_existing_entity (m : Model) (req : request)
    (w w1 : world) (target : value) :
  let id := Prim (PStr (params_id req)) in
  get m id w = (Ok target, w1) ->
  truthy target = true ->
  fault (QDelete (tableName m) id) (w_tables w) = None ->
  exists w2,
    delete_handler m req w
    = (Ok {| status := 200; contentType := "application/json";
             content := BJson (VObj [("success", VPrim (PBool true))]) |}, w2)
    /\ w_log w2 = w_log w ++ [QGet (tableName m) id; QDelete (tableName m) id]
    /\ w_heap w2 = w_heap w.
Proof.
  intros id Hget Htarget Hfault. subst id.
  destruct (get_only_reads m (Prim (PStr (params_id req))) w)
    as (Hheap1 & Htables1 & Hlog1).
  rewrite Hget in Hheap1, Htables1, Hlog1. cbn [snd default_null] in *.
  unfold delete_handler. rewrite bind_run. unfold attempt.
  rewrite bind_run, Hget, Htarget. cbn [negb]. rewrite bind_run.
  unfold delete. rewrite bind_run. unfold runQuery.
  rewrite Htables1, Hfault. cbn [ret].
  eexists. split; [reflexivity|]. cbn [w_log w_tables w_heap].
  split; [|exact Hheap1].
  now rewrite Hlog1, <- app_assoc.
Qed.
End DeleteRoute.

(** X13, witness: [DELETE /users/1]. *)
Lemma delete_route_on_existing_entity_witness :
  let C := Demo.collaborators Demo.one_user in
  let req := {| params_id := "1"; req_body := Prim PUndefined |} in
  exists w2,
    delete_handler (Demo.users C) req (Demo.world_of [])
    = (Ok {| status := 200; contentType := "application/json";
             content := BJson (VObj [("success", VPrim (PBool true))]) |}, w2)
    /\ w_log w2 = [QGet "users" (Prim (PStr "1"));
                   QDelete "users" (Prim (PStr "1"))].
Proof.
  intros C req.
  destruct (get (Demo.users C) (Prim (PStr "1")) (Demo.world_of []))
    as [[target|e] w1] eqn:Eget; [|vm_compute in Eget; discriminate].
  destruct (delete_route_on_existing_entity (H := C) (Demo.users C) req
              (Demo.world_of []) w1 target)
    as (w2 & Hrun & Hlog & _).
  - exact Eget.
  - vm_compute in Eget. injection Eget as <- _. reflexivity.
  - reflexivity.
  - exists w2. split; [exact Hrun | exact Hlog].
Defined.

(** ** The row mapper on a nested sub-object *)

Lemma reduce_props_objects (parse : value -> outcome (list value))
    (props : list (string * value)) (result rows : list value) :
  Forall is_plain_object result ->
  reduce_props parse props result = Ok rows ->
  Forall is_plain_object rows.
Proof.
  revert result. induction props as [|[k v] rest IH]; intros result Hres Hrun.
  - injection Hrun as <-. exact Hres.
  - cbn [reduce_props] in Hrun. unfold reduce_step in Hrun.
    destruct (parsed_value parse v) as [parsedValue|e]; [|discriminate].
    eapply IH; [|exact Hrun]. now apply assign_entries_objects.
Qed.

Lemma reduce_items_objects (parse : value -> outcome (list value))
    (items : list value) (i : nat) (result rows : list value) :
  Forall is_plain_object result ->
  reduce_items parse i items result = Ok rows ->
  Forall is_plain_object rows.
Proof.
  revert i result. induction items as [|v rest IH]; intros i result Hres Hrun.
  - injection Hrun as <-. exact Hres.
  - cbn [reduce_items] in Hrun. unfold reduce_step in Hrun.
    destruct (parsed_value parse v) as [parsedValue|e]; [|discriminate].
    eapply IH; [|exact Hrun]. now apply assign_entries_objects.
Qed.

(** What the mapper returns for a sub-object is a list of plain objects. *)
Lemma parseRelationCollection_objects (v : value) (rows : list value) :
  parseRelationCollection v = Ok rows -> Forall is_plain_object rows.
Proof.
  destruct v as [p|props|items]; cbn [parseRelationCollection].
  - destruct p as [| |b|n|s]; try discriminate;
      try (intros [= <-]; constructor).
    apply reduce_props_objects. constructor.
  - apply reduce_props_objects. constructor.
  - apply reduce_items_objects. constructor.
Qed.

(** X14: a column that holds a nested object (the third level of an alias
    [table.group.c]) is un-flattened on its own, and each of its rows
    becomes the value of the column in the row of the same index. *)
Theorem parseRelationCollection_nested (key : string)
    (group : list (string * value)) (rows : list value) :
  plain_key key = true ->
  parseRelationCollection (VObj group) = Ok rows ->
  parseRelationCollection (VObj [(key, VObj group)])
  = Ok (map (fun row => VObj [(key, row)]) rows).
Proof.
  intros Hkey Hrows.
  pose proof (parseRelationCollection_objects _ _ Hrows) as Hobjects.
  cbn [parseRelationCollection reduce_props]. unfold reduce_step, parsed_value.
  cbn [truthy is_object andb].
  change (reduce_props parseRelationCollection group [])
    with (parseRelationCollection (VObj group)).
  rewrite Hrows. f_equal. clear Hrows.
  induction Hobjects as [|row rest [ps ->] _ IH]; [reflexivity|].
  cbn [assign_entries map]. rewrite (lodash_set_plain [] key _ Hkey).
  unfold or_null. cbn [truthy set_prop]. f_equal. exact IH.
Qed.

(** X14, witness: [{geo: {lat: "1,2", lng: "3,4"}}]. *)
Lemma parseRelationCollection_nested_witness :
  parseRelationCollection
    (VObj [("geo", VObj [("lat", VPrim (PStr "1,2"));
                         ("lng", VPrim (PStr "3,4"))])])
  = Ok [VObj [("geo", VObj [("lat", VPrim (PStr "1"));
                            ("lng", VPrim (PStr "3"))])];
        VObj [("geo", VObj [("lat", VPrim (PStr "2"));
                            ("lng", VPrim (PStr "4"))])]].
Proof.
  apply (parseRelationCollection_nested "geo"
           [("lat", VPrim (PStr "1,2")); ("lng", VPrim (PStr "3,4"))]
           [VObj [("lat", VPrim (PStr "1")); ("lng", VPrim (PStr "3"))];
            VObj [("lat", VPrim (PStr "2")); ("lng", VPrim (PStr "4"))]]).
  - reflexivity.
  - reflexivity.
Defined.
